(** * GraphNext: the graph state and path engine

    A shallow embedding of the path extraction / aggregation code of
    [FrontEnd/src/app/routing/page.tsx] and of the graph store of
    [FrontEnd/src/store/useGraphStore.ts], and the properties that the
    specification states about them. The later sections cover the code
    around it: the handlers of the routing page, the outliers page, the
    layout request of the dashboard and the formatting of durations, with
    the invariants, edge cases and compositions that the code shows.

    Conventions of the embedding:
    - a JavaScript [number] holding a duration, a timestamp or a weight is an
      exact rational ([Q]); the IEEE rounding of the implementation is not
      modelled, equalities between computed durations are stated with [==];
      a total that the code accumulates in a loop is stated as the fold of
      its terms from the left, in the order in which the code adds them;
      every division below has a divisor that is not zero (a counted
      frequency, a number of edges, a constant);
    - a case count ([Frequency], [frequency], [Case_Count]) is a natural
      number ([N]); an optional field is an [option];
    - an array is a [list]; a [Set<string>] is a [gset string]; a
      [Record<string, number>] is a [gmap string Q] (only its lookups are
      observable in the code below: edge ids always contain the separator
      and are never array indices); a [Map] whose [values()] are turned into
      an array is an insertion-ordered association list ([JsMap]). *)

From Stdlib Require Import ZArith QArith Qminmax Qround Qabs Ascii String.
From stdpp Require Import gmap strings list fin_maps pretty.

Local Open Scope Z_scope.

(** Comparisons of rationals are decidable. *)
#[global] Instance Qlt_decision (x y : Q) : Decision (x < y)%Q.
Proof. unfold Qlt. apply _. Defined.

#[global] Instance Qle_decision (x y : Q) : Decision (x <= y)%Q.
Proof. unfold Qle. apply _. Defined.

#[global] Instance Qeq_decision (x y : Q) : Decision (x == y)%Q.
Proof. unfold Qeq. apply _. Defined.

(* ------------------------------------------------------------------ *)
(** ** JavaScript primitives used by the code *)
(* ------------------------------------------------------------------ *)

Module Js.

(** [Array.prototype.indexOf]: first index of [x], [-1] when absent. *)
Fixpoint indexOfFrom (x : string) (l : list string) (i : Z) : Z :=
  match l with
  | [] => -1
  | y :: l' => if decide (y = x) then i else indexOfFrom x l' (i + 1)
  end.

Definition indexOf (l : list string) (x : string) : Z := indexOfFrom x l 0.

(** [Array.prototype.lastIndexOf]: last index of [x], [-1] when absent. *)
Fixpoint lastIndexOfFrom (x : string) (l : list string) (i last : Z) : Z :=
  match l with
  | [] => last
  | y :: l' => lastIndexOfFrom x l' (i + 1) (if decide (y = x) then i else last)
  end.

Definition lastIndexOf (l : list string) (x : string) : Z :=
  lastIndexOfFrom x l 0 (-1).

Definition len {A} (l : list A) : Z := Z.of_nat (length l).

(** Relative index of [slice]: negative counts from the end. *)
Definition clampIndex (n i : Z) : Z :=
  if i <? 0 then Z.max (n + i) 0 else Z.min i n.

(** [Array.prototype.slice (s, e)]. *)
Definition slice {A} (l : list A) (s e : Z) : list A :=
  let s' := clampIndex (len l) s in
  let e' := clampIndex (len l) e in
  take (Z.to_nat (e' - s')) (drop (Z.to_nat s') l).

(** [l[i]]: [None] is [undefined]. *)
Definition at_ {A} (l : list A) (i : Z) : option A :=
  if i <? 0 then None else l !! Z.to_nat i.

(** [l[i]] interpolated in a template string. *)
Definition strAt (l : list string) (i : Z) : string :=
  default "undefined" (at_ l i).

(** [Array.prototype.join]. *)
Definition join (sep : string) (l : list string) : string :=
  String.concat sep l.

(** [x || d] on an optional count: [undefined] and [0] are falsy. *)
Definition orN (x : option N) (d : N) : N :=
  match x with
  | Some n => if (n =? 0)%N then d else n
  | None => d
  end.

(** [x || d] on an optional number. *)
Definition orQ (x : option Q) (d : Q) : Q :=
  match x with
  | Some q => if Qeq_bool q 0 then d else q
  | None => d
  end.

(** [Math.max(0, x)]. *)
Definition max0 (x : Q) : Q := Qmax 0 x.

(** [s.split("->")], with the piece being read in [cur]. *)
Fixpoint splitArrowFrom (s cur : string) : list string :=
  match s with
  | EmptyString => [cur]
  | String c s' =>
      match c, s' with
      | "-"%char, String ">"%char rest => cur :: splitArrowFrom rest ""
      | _, _ => splitArrowFrom s' (cur +:+ String c "")
      end
  end.

Definition splitArrow (s : string) : list string := splitArrowFrom s "".

(** A count used as a number. *)
Definition numOfN (n : N) : Q := inject_Z (Z.of_N n).

End Js.

(** [Map<string, V>]: keys in insertion order; [set] on a key already
    present replaces the value in place. *)
Module JsMap.

Definition t (V : Type) : Type := list (string * V).

Definition empty {V} : t V := [].

Fixpoint get {V} (k : string) (m : t V) : option V :=
  match m with
  | [] => None
  | (k', v) :: m' => if decide (k' = k) then Some v else get k m'
  end.

Definition has {V} (k : string) (m : t V) : bool :=
  match get k m with Some _ => true | None => false end.

Fixpoint set {V} (k : string) (v : V) (m : t V) : t V :=
  match m with
  | [] => [(k, v)]
  | (k', v') :: m' =>
      if decide (k' = k) then (k, v) :: m' else (k', v') :: set k v m'
  end.

Definition keys {V} (m : t V) : list string := m.*1.

(** [Array.from(m.values())]. *)
Definition values {V} (m : t V) : list V := m.*2.

End JsMap.

(** [o?.[k]] on an optional object. *)
Definition lookupIn (o : option (gmap string Q)) (k : string) : option Q :=
  match o with Some m => m !! k | None => None end.

(** [for (const [k, v] of Object.entries(o)) acc[k] = f k v acc[k]]. *)
Definition forEntries (f : string → Q → option Q → Q)
    (o acc : gmap string Q) : gmap string Q :=
  map_fold (λ k v a, <[k := f k v (a !! k)]> a) acc o.

(* ------------------------------------------------------------------ *)
(** ** Types ([types/types.ts]) *)
(* ------------------------------------------------------------------ *)

Definition START_NODE : string := "START_NODE".
Definition END_NODE : string := "END_NODE".

(** The id of the edge from [source] to [target]. *)
Definition edgeIdOf (source target : string) : string :=
  source +:+ "->" +:+ target.

(** [Frequency] is declared [number]; the payload is parsed JSON and the
    code guards its use with [||], so an absent field is representable.
    An absent timing array is the empty one (the code treats both alike). *)
Record Variant := {
  Variant_Path : list string;
  Frequency : option N;
  Avg_Timings : list Q;
  Total_Timings : list Q;
  Percentage : Q;
}.

Inductive PathType := absolute | relative.

Record ExtendedPath := {
  nodes : list string;
  edges : list string;
  frequency : option N;
  totalDuration : option Q;
  averageDuration : option Q;
  _variantDuration : option Q;
  _frequency : option N;
  _fullPathNodes : option (list string);
  _startIndex : option Z;
  _endIndex : option Z;
  _pathType : option PathType;
  _variantTimings : option (list Q);
  _specificEdgeDurations : option (gmap string Q);
  _specificTotalDurations : option (gmap string Q);
}.

#[global] Instance PathType_eq_dec : EqDecision PathType.
Proof. solve_decision. Defined.

(* ------------------------------------------------------------------ *)
(** ** Path extraction and aggregation ([app/routing/page.tsx]) *)
(* ------------------------------------------------------------------ *)

Module Routing.

(** State of the timing loop of [findPathsBetweenNodes]. *)
Record Timing := {
  tm_totalDuration : Q;
  tm_edgeDurations : gmap string Q;
  tm_edgeTotalDurations : gmap string Q;
}.

Definition avgDurationAt (variant : Variant) (i : Z) : Q :=
  let currentTime := default 0%Q (Js.at_ (Avg_Timings variant) i) in
  let nextTime := default 0%Q (Js.at_ (Avg_Timings variant) (i + 1)) in
  Js.max0 (nextTime - currentTime).

Definition totalTimingDurationAt (variant : Variant) (i : Z) : Q :=
  let currentTotal := default 0%Q (Js.at_ (Total_Timings variant) i) in
  let nextTotal := default 0%Q (Js.at_ (Total_Timings variant) (i + 1)) in
  Js.max0 (nextTotal - currentTotal).

(** One iteration of the timing loop, at index [i]. *)
Definition timingStep (variant : Variant) (st : Timing) (i : Z) : Timing :=
  let avgDuration := avgDurationAt variant i in
  let totalTimingDuration := totalTimingDurationAt variant i in
  let edgeSource := Js.strAt (Variant_Path variant) i in
  let edgeTarget := Js.strAt (Variant_Path variant) (i + 1) in
  let edgeId := edgeIdOf edgeSource edgeTarget in
  {| tm_totalDuration := (tm_totalDuration st + avgDuration)%Q;
     tm_edgeDurations := <[edgeId := avgDuration]> (tm_edgeDurations st);
     tm_edgeTotalDurations :=
       <[edgeId := totalTimingDuration]> (tm_edgeTotalDurations st) |}.

(** [n > 1 ? total / (n - 1) : 0], for a path of [n] nodes. *)
Definition averagePerEdge (total : Q) (n : Z) : Q :=
  if decide (1 < n) then (total / inject_Z (n - 1))%Q else 0%Q.

(** [for (let i = startIndex; i < endIndex && i + 1 < Avg_Timings.length; i++)]
    from the index [i] on: [remaining] is [endIndex - i], so the test
    [i < endIndex] is the test that [remaining] is not zero. *)
Fixpoint timingLoopFrom (variant : Variant) (remaining : nat) (i : Z)
    (st : Timing) : Timing :=
  match remaining with
  | O => st
  | S remaining' =>
      if decide (i + 1 < Js.len (Avg_Timings variant))
      then timingLoopFrom variant remaining' (i + 1) (timingStep variant st i)
      else st
  end.

Definition timingLoop (variant : Variant) (startIndex endIndex : Z)
    : Timing :=
  timingLoopFrom variant (Z.to_nat (endIndex - startIndex)) startIndex
    {| tm_totalDuration := 0; tm_edgeDurations := ∅;
       tm_edgeTotalDurations := ∅ |}.

Definition resolveStartIndex (startId : string) (variantPath : list string)
    : Z :=
  let startIndex := Js.indexOf variantPath startId in
  if decide (startId = START_NODE) then 0 else startIndex.

Definition resolveEndIndex (endId : string) (variantPath : list string)
    : Z :=
  let endIndex := Js.lastIndexOf variantPath endId in
  if decide (endId = END_NODE) then Js.len variantPath - 1 else endIndex.

(** The body of the loop over the variants: [None] is [continue]. *)
Definition extractVariant (startId endId : string) (variant : Variant)
    : option ExtendedPath :=
  let variantPath := Variant_Path variant in
  let startIndex := resolveStartIndex startId variantPath in
  if decide (startIndex = -1) then None else
  let endIndex := resolveEndIndex endId variantPath in
  if decide (endIndex = -1 ∨ endIndex ≤ startIndex) then None else
  let subPath := Js.slice variantPath startIndex (endIndex + 1) in
  let isAbsolute :=
    bool_decide (startIndex = 0 ∧ endIndex = Js.len variantPath - 1) in
  let path :=
    {| nodes := subPath;
       edges := [];
       frequency := Frequency variant;
       totalDuration := Some 0%Q;
       averageDuration := Some 0%Q;
       _variantDuration := None;
       _frequency := Frequency variant;
       _fullPathNodes := Some variantPath;
       _startIndex := Some startIndex;
       _endIndex := Some endIndex;
       _pathType := Some (if isAbsolute then absolute else relative);
       _variantTimings := None;
       _specificEdgeDurations := None;
       _specificTotalDurations := None |} in
  if decide (0 < Js.len (Avg_Timings variant)) then
    let st := timingLoop variant startIndex endIndex in
    let total := tm_totalDuration st in
    Some
      {| nodes := nodes path;
         edges := edges path;
         frequency := frequency path;
         totalDuration := Some total;
         averageDuration :=
           Some (averagePerEdge total (Js.len subPath));
         _variantDuration := Some total;
         _frequency := _frequency path;
         _fullPathNodes := _fullPathNodes path;
         _startIndex := _startIndex path;
         _endIndex := _endIndex path;
         _pathType := _pathType path;
         _variantTimings :=
           Some (Js.slice (Avg_Timings variant) startIndex (endIndex + 1));
         _specificEdgeDurations := Some (tm_edgeDurations st);
         _specificTotalDurations := Some (tm_edgeTotalDurations st) |}
  else Some path.

(** The first loop of [findPathsBetweenNodes]: one candidate per
    qualifying variant, in the order of the variants. *)
Definition extractPaths (startId endId : string) (variantList : list Variant)
    : list ExtendedPath :=
  omap (extractVariant startId endId) variantList.

(** An entry of [pathMap]. *)
Record Group := {
  g_path : ExtendedPath;
  totalFrequency : N;
  weightedTotalDuration : Q;
  weightedEdgeDurations : gmap string Q;
  summedEdgeTotalDurations : gmap string Q;
}.

Definition pathKey (path : ExtendedPath) : string :=
  Js.join "->" (nodes path).

Definition objOrEmpty (o : option (gmap string Q)) : gmap string Q :=
  default ∅ o.

(** One iteration of the grouping loop. An absent per-edge object skips
    its [for .. of Object.entries] loop, as the empty object does. *)
Definition groupStep (pathMap : JsMap.t Group) (path : ExtendedPath)
    : JsMap.t Group :=
  let key := pathKey path in
  let frequency := Js.orN (frequency path) 1 in
  let pathTotalDuration := Js.orQ (totalDuration path) 0 in
  match JsMap.get key pathMap with
  | Some existing =>
      JsMap.set key
        {| g_path := g_path existing;
           totalFrequency := (totalFrequency existing + frequency)%N;
           weightedTotalDuration :=
             (weightedTotalDuration existing
              + pathTotalDuration * Js.numOfN frequency)%Q;
           weightedEdgeDurations :=
             forEntries
               (λ _ duration old,
                  (Js.orQ old 0 + duration * Js.numOfN frequency)%Q)
               (objOrEmpty (_specificEdgeDurations path))
               (weightedEdgeDurations existing);
           summedEdgeTotalDurations :=
             forEntries (λ _ totalDur old, (Js.orQ old 0 + totalDur)%Q)
               (objOrEmpty (_specificTotalDurations path))
               (summedEdgeTotalDurations existing) |}
        pathMap
  | None =>
      JsMap.set key
        {| g_path := path;
           totalFrequency := frequency;
           weightedTotalDuration :=
             (pathTotalDuration * Js.numOfN frequency)%Q;
           weightedEdgeDurations :=
             forEntries
               (λ _ duration _, (duration * Js.numOfN frequency)%Q)
               (objOrEmpty (_specificEdgeDurations path)) ∅;
           summedEdgeTotalDurations :=
             forEntries (λ _ totalDur _, totalDur)
               (objOrEmpty (_specificTotalDurations path)) ∅ |}
        pathMap
  end.

Definition groupPaths (paths : list ExtendedPath) : JsMap.t Group :=
  fold_left groupStep paths JsMap.empty.

(** The callback of [Array.from(pathMap.values()).map]. *)
Definition mergeGroup (g : Group) : ExtendedPath :=
  let path := g_path g in
  let totalFrequency := Js.numOfN (totalFrequency g) in
  let avgEdgeDurations :=
    forEntries (λ _ weightedTotal _, (weightedTotal / totalFrequency)%Q)
      (weightedEdgeDurations g) ∅ in
  let total := (weightedTotalDuration g / totalFrequency)%Q in
  {| nodes := nodes path;
     edges := edges path;
     frequency := Some (Routing.totalFrequency g);
     totalDuration := Some total;
     averageDuration :=
       Some (averagePerEdge total (Js.len (nodes path)));
     _variantDuration := Some total;
     _frequency := Some (Routing.totalFrequency g);
     _fullPathNodes := _fullPathNodes path;
     _startIndex := _startIndex path;
     _endIndex := _endIndex path;
     _pathType := _pathType path;
     _variantTimings := _variantTimings path;
     _specificEdgeDurations := Some avgEdgeDurations;
     _specificTotalDurations := Some (summedEdgeTotalDurations g) |}.

(** [sort((a, b) => (b.frequency || 0) - (a.frequency || 0))]: the sort
    is stable, [a] stays before [b] unless [b] is strictly more frequent. *)
Fixpoint insertByFrequency (a : ExtendedPath) (l : list ExtendedPath)
    : list ExtendedPath :=
  match l with
  | [] => [a]
  | b :: l' =>
      if decide (Js.orN (frequency a) 0 < Js.orN (frequency b) 0)%N
      then b :: insertByFrequency a l'
      else a :: b :: l'
  end.

Definition sortByFrequency (l : list ExtendedPath) : list ExtendedPath :=
  foldr insertByFrequency [] l.

(** The grouping, merging and sorting part of [findPathsBetweenNodes]. *)
Definition aggregatePaths (paths : list ExtendedPath) : list ExtendedPath :=
  sortByFrequency (mergeGroup <$> JsMap.values (groupPaths paths)).

Definition findPathsBetweenNodes (startId endId : string)
    (variantList : list Variant) : list ExtendedPath :=
  if decide (Js.len variantList = 0) then []
  else aggregatePaths (extractPaths startId endId variantList).

End Routing.

(* ------------------------------------------------------------------ *)
(** ** Duration formatting ([utils/formatDuration.ts]) *)
(* ------------------------------------------------------------------ *)

Module Format.

Definition padZeros (digits : nat) (s : string) : string :=
  String.concat "" (replicate (digits - String.length s) "0") +:+ s.

(** [x.toFixed(digits)], on the exact value of [x]: the nearest decimal
    with [digits] fractional digits, ties away from zero (the exponential
    notation of values from 1e21 on is not modelled). *)
Definition toFixed (x : Q) (digits : nat) : string :=
  let scale := 10 ^ Z.of_nat digits in
  let n := Qfloor (Qabs x * inject_Z scale + (1 # 2))%Q in
  let sign := if decide (x < 0)%Q then "-" else "" in
  let fraction :=
    match digits with
    | O => ""
    | _ => "." +:+ padZeros digits (pretty (n mod scale))
    end in
  sign +:+ pretty (n / scale) +:+ fraction.

Definition formatDuration (seconds : Q) : string :=
  if decide (seconds < 60)%Q then toFixed seconds 0 +:+ " ثانیه"
  else if decide (seconds < 3600)%Q then toFixed (seconds / 60)%Q 1 +:+ " دقیقه"
  else if decide (seconds < 86400)%Q then toFixed (seconds / 3600)%Q 1 +:+ " ساعت"
  else toFixed (seconds / 86400)%Q 2 +:+ " روز".

End Format.

(* ------------------------------------------------------------------ *)
(** ** The graph store ([store/useGraphStore.ts]) *)
(* ------------------------------------------------------------------ *)

(** A row of [graphData] ([GraphData] of [types/types.ts]). *)
Record GraphData := {
  Source_Activity : string;
  Target_Activity : string;
  Mean_Duration_Seconds : Q;
  Tooltip_Total_Time : string;
  Tooltip_Mean_Time : string;
  Weight_Value : Q;
  Edge_Label : string;
  Case_Count : N;
}.

(** The parts of a React Flow [Node] that the store writes. *)
Record NodeData := {
  nd_label : string;
  nd_type : option string;
  nd_isStart : option bool;
  nd_isEnd : option bool;
  nd_isGhost : option bool;
}.

Record NodeStyle := {
  ns_width : Z;
  ns_border : option string;
  ns_backgroundColor : option string;
  ns_color : option string;
}.

Record Node := {
  node_id : string;
  node_type : string;
  node_position : Q * Q;
  node_data : NodeData;
  node_style : NodeStyle;
  node_draggable : bool;
}.

(** The parts of a React Flow [Edge] that the store writes. *)
Record EdgeData := {
  ed_Weight_Value : option Q;
  ed_Case_Count : option N;
  ed_Mean_Duration_Seconds : option Q;
  ed_Tooltip_Total_Time : option string;
  ed_Tooltip_Mean_Time : option string;
  ed_isGhost : option bool;
  ed_originalStroke : option string;
  ed_originalStrokeWidth : option Q;
  ed_pathDuration : option Q;
  ed_pathFrequency : option N;
}.

Record EdgeStyle := {
  es_stroke : option string;
  es_strokeDasharray : option string;
  es_strokeWidth : option Q;
}.

(** [edge_target] is optional: a ghost edge takes its endpoints from
    [id.split("->")], whose second piece may be [undefined]. *)
Record Edge := {
  edge_id : string;
  edge_source : string;
  edge_target : option string;
  edge_type : string;
  edge_animated : option bool;
  edge_label : option string;
  edge_style : option EdgeStyle;
  edge_data : EdgeData;
}.

Record ActivePathInfo := {
  api_nodes : list string;
  api_edges : list string;
  edgeDurations : option (gmap string Q);
  edgeTotalDurations : option (gmap string Q);
  api_frequency : option N;
}.

Record SearchCasePathInfo := {
  sc_nodes : list string;
  sc_edges : list string;
}.

(** [LayoutConfig]; [graphData] and [startEndNodes] are not read by
    [computeLayout] and are left out. *)
Record LayoutConfig := {
  colorPaletteKey : string;
  filteredNodeIds : gset string;
  filteredEdgeIds : option (gset string);
  activePathInfo : option ActivePathInfo;
  searchCasePathInfo : option SearchCasePathInfo;
}.

(** The layout and pathfinding fields of [GraphState]. *)
Record GraphState := {
  allNodes : list Node;
  allEdges : list Edge;
  layoutedNodes : list Node;
  layoutedEdges : list Edge;
  isLayoutLoading : bool;
  loadingMessage : string;
  pathStartNodeId : option string;
  pathEndNodeId : option string;
  foundPaths : list ExtendedPath;
  activePath : option ExtendedPath;
  _edgeLookupMap : JsMap.t Edge;
}.

(** The colour scale [(weight, minWeight, maxWeight) => string] of
    [constants/colorPalettes.ts], which delegates to d3. *)
Definition ColorScaleFn : Type := Q → Q → Q → string.

(** The request sent to the layered layout algorithm and its answer. *)
Inductive LayerConstraint := FIRST | LAST.

Record ElkNode := {
  elk_id : string;
  elk_width : Z;
  elk_height : Z;
  elk_layerConstraint : option LayerConstraint;
}.

Record ElkEdge := {
  elke_id : string;
  elke_sources : list string;
  elke_targets : list (option string);
}.

Record ElkGraph := {
  elk_children : list ElkNode;
  elk_edges : list ElkEdge;
}.

Record ElkPlaced := {
  placed_id : string;
  placed_x : option Q;
  placed_y : option Q;
}.

(** How the call of [elk.layout] ends: the promise is rejected (or the
    call throws), or it resolves with a graph whose [children] may be
    missing. *)
Inductive ElkOutcome :=
| ElkRejected
| ElkResolved (children : option (list ElkPlaced)).

Module Store.

Definition emptyEdgeData : EdgeData :=
  {| ed_Weight_Value := None; ed_Case_Count := None;
     ed_Mean_Duration_Seconds := None; ed_Tooltip_Total_Time := None;
     ed_Tooltip_Mean_Time := None; ed_isGhost := None;
     ed_originalStroke := None; ed_originalStrokeWidth := None;
     ed_pathDuration := None; ed_pathFrequency := None |}.

(** The initial state of the store. *)
Definition initialState : GraphState :=
  {| allNodes := [];
     allEdges := [];
     layoutedNodes := [];
     layoutedEdges := [];
     isLayoutLoading := false;
     loadingMessage := "در حال بارگذاری داده‌ها...";
     pathStartNodeId := None;
     pathEndNodeId := None;
     foundPaths := [];
     activePath := None;
     _edgeLookupMap := JsMap.empty |}.

(** *** [calculateEdgeOverride] *)

Record TooltipOverride := {
  to_label : N;
  to_meanTime : string;
  to_totalTime : string;
  to_rawDuration : option Q;
}.

Record EdgeOverride := {
  displayLabel : string;
  tooltipOverride : TooltipOverride;
}.

(** [pathEdges.forEach((id, idx) => { if (id === edge.id) edgeIndices.push(idx) })] *)
Fixpoint edgeIndicesFrom (pathEdges : list string) (id : string) (idx : Z)
    : list Z :=
  match pathEdges with
  | [] => []
  | e :: rest =>
      if decide (e = id) then idx :: edgeIndicesFrom rest id (idx + 1)
      else edgeIndicesFrom rest id (idx + 1)
  end.

Definition edgeIndices (pathEdges : list string) (id : string) : list Z :=
  edgeIndicesFrom pathEdges id 0.

(** The accumulator of the loop over the occurrences of the edge. *)
Record Occurrences := {
  oc_totalDuration : Q;
  oc_count : N;
}.

Definition occurrenceStep (timings : list Q) (startIndex : Z)
    (st : Occurrences) (idx : Z) : Occurrences :=
  let timeIndex := startIndex + idx in
  match Js.at_ timings timeIndex, Js.at_ timings (timeIndex + 1) with
  | Some start, Some end_ =>
      {| oc_totalDuration := (oc_totalDuration st + Js.max0 (end_ - start))%Q;
         oc_count := (oc_count st + 1)%N |}
  | _, _ => st
  end.

Definition sumOccurrences (timings : list Q) (startIndex : Z)
    (indices : list Z) : Occurrences :=
  fold_left (occurrenceStep timings startIndex) indices
    {| oc_totalDuration := 0; oc_count := 0 |}.

(** The first branch: the path carries a duration for this edge id. *)
Definition specificOverride (path : ExtendedPath) (id : string)
    (avgDuration : Q) : EdgeOverride :=
  let displayLabel := Format.formatDuration avgDuration in
  let tooltipMeanTime := displayLabel +:+ " (میانگین)" in
  let pathFrequency := Js.orN (_frequency path) (Js.orN (frequency path) 1) in
  let totalDuration :=
    default avgDuration (lookupIn (_specificTotalDurations path) id) in
  {| displayLabel := displayLabel;
     tooltipOverride :=
       {| to_label := pathFrequency;
          to_meanTime := tooltipMeanTime;
          to_totalTime := Format.formatDuration totalDuration;
          to_rawDuration := Some avgDuration |} |}.

(** The second branch: the deltas of the occurrences that were counted. *)
Definition variantOverride (path : ExtendedPath) (oc : Occurrences)
    : EdgeOverride :=
  let displayLabel := Format.formatDuration (oc_totalDuration oc) in
  let tooltipMeanTime :=
    if decide (1 < oc_count oc)%N
    then displayLabel +:+ " (مجموع " +:+ pretty (oc_count oc) +:+ " بار عبور)"
    else displayLabel in
  let frequency := Js.orN (_frequency path) 0 in
  let tooltipTotalTime :=
    Format.formatDuration (oc_totalDuration oc * Js.numOfN frequency)%Q in
  {| displayLabel := displayLabel;
     tooltipOverride :=
       {| to_label := frequency;
          to_meanTime := tooltipMeanTime;
          to_totalTime := tooltipTotalTime;
          to_rawDuration := None |} |}.

Definition calculateEdgeOverride (edge : Edge)
    (activePath : option ExtendedPath) : option EdgeOverride :=
  match activePath with
  | None => None
  | Some path =>
      let indices := edgeIndices (edges path) (edge_id edge) in
      match lookupIn (_specificEdgeDurations path) (edge_id edge) with
      | Some avgDuration => Some (specificOverride path (edge_id edge) avgDuration)
      | None =>
          match _variantTimings path, _startIndex path with
          | Some timings, Some startIndex =>
              if decide (0 < Js.len indices ∧ 0 < Js.len timings) then
                let oc := sumOccurrences timings startIndex indices in
                if decide (0 < oc_count oc)%N
                then Some (variantOverride path oc)
                else None
              else None
          | _, _ => None
          end
      end
  end.

(** *** [processInitialData] *)

Definition activityNode (id : string) (startActivities endActivities : list string)
    : Node :=
  {| node_id := id;
     node_type := "activity";
     node_position := (0, 0)%Q;
     node_data :=
       {| nd_label := id;
          nd_type := Some "activity";
          nd_isStart := Some (bool_decide (id ∈ startActivities));
          nd_isEnd := Some (bool_decide (id ∈ endActivities));
          nd_isGhost := None |};
     node_style :=
       {| ns_width := 250; ns_border := None; ns_backgroundColor := None;
          ns_color := None |};
     node_draggable := true |}.

(** The edge built from one row of [graphData]. *)
Definition recordEdge (item : GraphData) : Edge :=
  {| edge_id := edgeIdOf (Source_Activity item) (Target_Activity item);
     edge_source := Source_Activity item;
     edge_target := Some (Target_Activity item);
     edge_type := "default";
     edge_animated := None;
     edge_label := Some (Edge_Label item);
     edge_style := None;
     edge_data :=
       {| ed_Weight_Value := Some (Weight_Value item);
          ed_Case_Count := Some (Case_Count item);
          ed_Mean_Duration_Seconds := Some (Mean_Duration_Seconds item);
          ed_Tooltip_Total_Time := Some (Tooltip_Total_Time item);
          ed_Tooltip_Mean_Time := Some (Tooltip_Mean_Time item);
          ed_isGhost := None;
          ed_originalStroke := None;
          ed_originalStrokeWidth := None;
          ed_pathDuration := None;
          ed_pathFrequency := None |} |}.

(** [if (!m.has(k)) m.set(k, v)] *)
Definition setIfAbsent {V} (k : string) (v : V) (m : JsMap.t V) : JsMap.t V :=
  if JsMap.has k m then m else JsMap.set k v m.

(** The body of the second [graphData.forEach]. *)
Definition ingestStep (startActivities endActivities : list string)
    (maps : JsMap.t Node * JsMap.t Edge) (item : GraphData)
    : JsMap.t Node * JsMap.t Edge :=
  let source := Source_Activity item in
  let target := Target_Activity item in
  let nodesMap :=
    setIfAbsent source (activityNode source startActivities endActivities)
      maps.1 in
  let nodesMap :=
    setIfAbsent target (activityNode target startActivities endActivities)
      nodesMap in
  let edgeId := edgeIdOf source target in
  (nodesMap, setIfAbsent edgeId (recordEdge item) maps.2).

Definition collectValidNodeIds (graphData : list GraphData) : gset string :=
  fold_left
    (λ ids item, {[Target_Activity item]} ∪ ({[Source_Activity item]} ∪ ids))
    graphData ∅.

Definition startNode : Node :=
  {| node_id := START_NODE;
     node_type := "start";
     node_position := (0, 0)%Q;
     node_data :=
       {| nd_label := "شروع"; nd_type := Some "start"; nd_isStart := None;
          nd_isEnd := None; nd_isGhost := None |};
     node_style :=
       {| ns_width := 150; ns_border := None; ns_backgroundColor := None;
          ns_color := None |};
     node_draggable := true |}.

Definition endNode : Node :=
  {| node_id := END_NODE;
     node_type := "end";
     node_position := (0, 0)%Q;
     node_data :=
       {| nd_label := "پایان"; nd_type := Some "end"; nd_isStart := None;
          nd_isEnd := None; nd_isGhost := None |};
     node_style :=
       {| ns_width := 150; ns_border := None; ns_backgroundColor := None;
          ns_color := None |};
     node_draggable := true |}.

(** A dashed edge between an anchor and an activity. *)
Definition anchorEdge (id source target : string) : Edge :=
  {| edge_id := id;
     edge_source := source;
     edge_target := Some target;
     edge_type := "default";
     edge_animated := None;
     edge_label := None;
     edge_style :=
       Some {| es_stroke := Some "#a0aec0"; es_strokeDasharray := Some "5 5";
               es_strokeWidth := None |};
     edge_data :=
       {| ed_Weight_Value := None; ed_Case_Count := None;
          ed_Mean_Duration_Seconds := None; ed_Tooltip_Total_Time := None;
          ed_Tooltip_Mean_Time := None; ed_isGhost := None;
          ed_originalStroke := Some "#a0aec0";
          ed_originalStrokeWidth := Some (3 # 2);
          ed_pathDuration := None; ed_pathFrequency := None |} |}.

Definition startEdgeId (targetNodeId : string) : string :=
  "start-to-" +:+ targetNodeId.

Definition endEdgeId (sourceNodeId : string) : string :=
  sourceNodeId +:+ "-to-end".

Definition addStartEdges (validNodeIds : gset string)
    (startActivities : list string) (edgesMap : JsMap.t Edge) : JsMap.t Edge :=
  fold_left
    (λ m targetNodeId,
       JsMap.set (startEdgeId targetNodeId)
         (anchorEdge (startEdgeId targetNodeId) START_NODE targetNodeId) m)
    (filter (λ targetId, targetId ∈ validNodeIds) startActivities) edgesMap.

Definition addEndEdges (validNodeIds : gset string)
    (endActivities : list string) (edgesMap : JsMap.t Edge) : JsMap.t Edge :=
  fold_left
    (λ m sourceNodeId,
       JsMap.set (endEdgeId sourceNodeId)
         (anchorEdge (endEdgeId sourceNodeId) sourceNodeId END_NODE) m)
    (filter (λ sourceId, sourceId ∈ validNodeIds) endActivities) edgesMap.

(** The two maps of [processInitialData] when it reaches [set]. *)
Definition ingest (graphData : list GraphData)
    (startActivities endActivities : list string)
    : JsMap.t Node * JsMap.t Edge :=
  let validNodeIds := collectValidNodeIds graphData in
  let maps :=
    fold_left (ingestStep startActivities endActivities) graphData
      (JsMap.empty, JsMap.empty) in
  let nodesMap := JsMap.set START_NODE startNode maps.1 in
  let nodesMap := JsMap.set END_NODE endNode nodesMap in
  let edgesMap := addStartEdges validNodeIds startActivities maps.2 in
  let edgesMap := addEndEdges validNodeIds endActivities edgesMap in
  (nodesMap, edgesMap).

Definition processInitialData (s : GraphState) (graphData : list GraphData)
    (startActivities endActivities : list string) : GraphState :=
  let maps := ingest graphData startActivities endActivities in
  {| allNodes := JsMap.values maps.1;
     allEdges := JsMap.values maps.2;
     layoutedNodes := layoutedNodes s;
     layoutedEdges := layoutedEdges s;
     isLayoutLoading := isLayoutLoading s;
     loadingMessage := loadingMessage s;
     pathStartNodeId := pathStartNodeId s;
     pathEndNodeId := pathEndNodeId s;
     foundPaths := foundPaths s;
     activePath := activePath s;
     _edgeLookupMap := _edgeLookupMap s |}.

(** *** [computeLayout]: filters *)

(** [extendedNodeIds.has(edge.source) && extendedNodeIds.has(edge.target)] *)
Definition endpointsIn (ids : gset string) (edge : Edge) : Prop :=
  edge_source edge ∈ ids ∧
  match edge_target edge with Some target => target ∈ ids | None => False end.

#[global] Instance endpointsIn_dec ids edge : Decision (endpointsIn ids edge).
Proof. unfold endpointsIn. destruct (edge_target edge); apply _. Defined.

(** The set of kept ids, with the anchors unless a path is shown. *)
Definition extendNodeIds (config : LayoutConfig) : gset string :=
  match activePathInfo config with
  | None => {[END_NODE]} ∪ ({[START_NODE]} ∪ filteredNodeIds config)
  | Some _ => filteredNodeIds config
  end.

(** "Apply node filters". *)
Definition applyNodeFilter (config : LayoutConfig)
    (graph : list Node * list Edge) : list Node * list Edge :=
  if decide (0 < Js.len graph.1 ∧ (0 < size (filteredNodeIds config))%nat) then
    let extendedNodeIds := extendNodeIds config in
    (filter (λ node, node_id node ∈ extendedNodeIds) graph.1,
     filter (endpointsIn extendedNodeIds) graph.2)
  else graph.

(** "Apply edge filters". *)
Definition applyEdgeFilter (config : LayoutConfig)
    (graph : list Node * list Edge) : list Node * list Edge :=
  match filteredEdgeIds config with
  | Some ids =>
      if decide (0 < Js.len graph.2 ∧ (0 < size ids)%nat)
      then (graph.1, filter (λ edge, edge_id edge ∈ ids) graph.2)
      else graph
  | None => graph
  end.

(** The node and edge filters of [computeLayout], before any overlay. *)
Definition filterGraph (config : LayoutConfig)
    (allNodes : list Node) (allEdges : list Edge) : list Node * list Edge :=
  applyEdgeFilter config (applyNodeFilter config (allNodes, allEdges)).

(** *** [computeLayout]: ghost and search-case overlays *)

Definition overlayNode (isGhost : bool) (id : string) : Node :=
  {| node_id := id;
     node_type := "activity";
     node_position := (0, 0)%Q;
     node_data :=
       {| nd_label := id; nd_type := None; nd_isStart := None;
          nd_isEnd := None; nd_isGhost := Some isGhost |};
     node_style :=
       if isGhost then
         {| ns_width := 250; ns_border := Some "2px dashed #f59e0b";
            ns_backgroundColor := Some "#fffbeb"; ns_color := Some "#b45309" |}
       else
         {| ns_width := 250; ns_border := None; ns_backgroundColor := None;
            ns_color := None |};
     node_draggable := true |}.

(** [const [source, target] = edgeId.split("->")]; [split] never returns
    an empty array. *)
Definition overlayEdge (isGhost : bool) (edgeId : string) : Edge :=
  let pieces := Js.splitArrow edgeId in
  {| edge_id := edgeId;
     edge_source := default "" (pieces !! 0%nat);
     edge_target := pieces !! 1%nat;
     edge_type := "default";
     edge_animated := Some isGhost;
     edge_label := Some "";
     edge_style :=
       Some (if isGhost then
               {| es_stroke := Some "#f59e0b";
                  es_strokeDasharray := Some "5, 5";
                  es_strokeWidth := Some 2%Q |}
             else
               {| es_stroke := None; es_strokeDasharray := None;
                  es_strokeWidth := Some 2%Q |});
     edge_data :=
       {| ed_Weight_Value := None; ed_Case_Count := None;
          ed_Mean_Duration_Seconds := None; ed_Tooltip_Total_Time := None;
          ed_Tooltip_Mean_Time := None; ed_isGhost := Some isGhost;
          ed_originalStroke := None; ed_originalStrokeWidth := None;
          ed_pathDuration := None; ed_pathFrequency := None |} |}.

(** Appends a node for every id of [ids] that no node of the list has. *)
Definition addOverlayNodes (isGhost : bool) (ids : list string)
    (nodesToLayout : list Node) : list Node :=
  if decide (0 < Js.len ids) then
    let existingNodeIds : gset string :=
      list_to_set (node_id <$> nodesToLayout) in
    let ghostNodeIds := filter (λ id, id ∉ existingNodeIds) ids in
    nodesToLayout ++ (overlayNode isGhost <$> ghostNodeIds)
  else nodesToLayout.

Definition addOverlayEdges (isGhost : bool) (ids : list string)
    (edgesToLayout : list Edge) : list Edge :=
  if decide (0 < Js.len ids) then
    let existingEdgeIds : gset string :=
      list_to_set (edge_id <$> edgesToLayout) in
    let ghostEdgeIds := filter (λ id, id ∉ existingEdgeIds) ids in
    edgesToLayout ++ (overlayEdge isGhost <$> ghostEdgeIds)
  else edgesToLayout.

(** "Add Ghost Nodes" and "Add Ghost Edges" (from [activePathInfo]). *)
Definition injectGhosts (info : option ActivePathInfo)
    (graph : list Node * list Edge) : list Node * list Edge :=
  match info with
  | Some info =>
      (addOverlayNodes true (api_nodes info) graph.1,
       addOverlayEdges true (api_edges info) graph.2)
  | None => graph
  end.

(** "Add Search Case Nodes" and "Add Search Case Edges" (non-ghosted). *)
Definition injectSearchCase (info : option SearchCasePathInfo)
    (graph : list Node * list Edge) : list Node * list Edge :=
  match info with
  | Some info =>
      (addOverlayNodes false (sc_nodes info) graph.1,
       addOverlayEdges false (sc_edges info) graph.2)
  | None => graph
  end.

(** [nodesToLayout] and [edgesToLayout] when the layout is requested. *)
Definition graphToLayout (config : LayoutConfig)
    (allNodes : list Node) (allEdges : list Edge) : list Node * list Edge :=
  injectSearchCase (searchCasePathInfo config)
    (injectGhosts (activePathInfo config)
       (filterGraph config allNodes allEdges)).

(** *** [computeLayout]: the layout request and its outcome *)

Definition elkNodeOf (node : Node) : ElkNode :=
  {| elk_id := node_id node;
     elk_width :=
       if decide (ns_width (node_style node) = 0) then 250
       else ns_width (node_style node);
     elk_height := 50;
     elk_layerConstraint :=
       let layoutOptions :=
         if decide (node_id node = START_NODE) then Some FIRST else None in
       if decide (node_id node = END_NODE) then Some LAST else layoutOptions |}.

Definition elkEdgeOf (edge : Edge) : ElkEdge :=
  {| elke_id := edge_id edge;
     elke_sources := [edge_source edge];
     elke_targets := [edge_target edge] |}.

Definition elkRequest (graph : list Node * list Edge) : ElkGraph :=
  {| elk_children := elkNodeOf <$> graph.1;
     elk_edges := elkEdgeOf <$> graph.2 |}.

Definition placeNode (children : list ElkPlaced) (node : Node) : Node :=
  let elkNode :=
    List.find (λ n, bool_decide (placed_id n = node_id node)) children in
  {| node_id := node_id node;
     node_type := node_type node;
     node_position :=
       (Js.orQ (elkNode ≫= placed_x) 0, Js.orQ (elkNode ≫= placed_y) 0);
     node_data := node_data node;
     node_style := node_style node;
     node_draggable := node_draggable node |}.

Definition isGhostEdge (edge : Edge) : bool :=
  default false (ed_isGhost (edge_data edge)).

Definition weightOf (edge : Edge) : Q :=
  Js.orQ (ed_Weight_Value (edge_data edge)) 0.

(** The running minimum and maximum; [None] is the initial [Infinity]
    (respectively [-Infinity]). *)
Definition rangeStep (range : option Q * option Q) (edge : Edge)
    : option Q * option Q :=
  if isGhostEdge edge then range
  else
    let weight := weightOf edge in
    (match range.1 with
     | Some minWeight =>
         Some (if decide (weight < minWeight)%Q then weight else minWeight)
     | None => Some weight
     end,
     match range.2 with
     | Some maxWeight =>
         Some (if decide (maxWeight < weight)%Q then weight else maxWeight)
     | None => Some weight
     end).

Definition weightRange (edgesToLayout : list Edge) : Q * Q :=
  let range := fold_left rangeStep edgesToLayout (None, None) in
  let range :=
    match range.1 with
    | None => (0, 1)%Q
    | Some minWeight => (minWeight, default minWeight range.2)
    end in
  if decide (range.1 == range.2)%Q then (range.1, range.1 + 1)%Q else range.

(** The label and tooltip fields taken from [activePathInfo] when it
    carries a duration for the edge. *)
Definition pathDurationOf (info : option ActivePathInfo) (id : string)
    : option Q :=
  lookupIn (info ≫= edgeDurations) id.

Definition withPathDuration (info : option ActivePathInfo) (edge : Edge)
    (avgDuration : Q) (data : EdgeData) : EdgeData :=
  let totalDuration :=
    default avgDuration
      (lookupIn (info ≫= edgeTotalDurations) (edge_id edge)) in
  let pathFrequency := Js.orN (info ≫= api_frequency) 1 in
  {| ed_Weight_Value := ed_Weight_Value data;
     ed_Case_Count := Some pathFrequency;
     ed_Mean_Duration_Seconds := ed_Mean_Duration_Seconds data;
     ed_Tooltip_Total_Time := Some (Format.formatDuration totalDuration);
     ed_Tooltip_Mean_Time := Some (Format.formatDuration avgDuration);
     ed_isGhost := ed_isGhost data;
     ed_originalStroke := ed_originalStroke data;
     ed_originalStrokeWidth := ed_originalStrokeWidth data;
     ed_pathDuration := Some avgDuration;
     ed_pathFrequency := Some pathFrequency |}.

Definition withOriginalStroke (color : string) (data : EdgeData) : EdgeData :=
  {| ed_Weight_Value := ed_Weight_Value data;
     ed_Case_Count := ed_Case_Count data;
     ed_Mean_Duration_Seconds := ed_Mean_Duration_Seconds data;
     ed_Tooltip_Total_Time := ed_Tooltip_Total_Time data;
     ed_Tooltip_Mean_Time := ed_Tooltip_Mean_Time data;
     ed_isGhost := ed_isGhost data;
     ed_originalStroke := Some color;
     ed_originalStrokeWidth := ed_originalStrokeWidth data;
     ed_pathDuration := ed_pathDuration data;
     ed_pathFrequency := ed_pathFrequency data |}.

Definition withStroke (color : string) (style : option EdgeStyle) : EdgeStyle :=
  {| es_stroke := Some color;
     es_strokeDasharray := style ≫= es_strokeDasharray;
     es_strokeWidth := style ≫= es_strokeWidth |}.

(** The callback of [edgesToLayout.map] that colours an edge; [None] when
    the palette function is [undefined] and the call throws. *)
Definition colorEdge (getEdgeColor : option ColorScaleFn)
    (info : option ActivePathInfo) (range : Q * Q) (edge : Edge)
    : option Edge :=
  if isGhostEdge edge then
    match pathDurationOf info (edge_id edge) with
    | Some avgDuration =>
        Some {| edge_id := edge_id edge;
                edge_source := edge_source edge;
                edge_target := edge_target edge;
                edge_type := edge_type edge;
                edge_animated := edge_animated edge;
                edge_label := Some (Format.formatDuration avgDuration);
                edge_style := edge_style edge;
                edge_data :=
                  withPathDuration info edge avgDuration (edge_data edge) |}
    | None => Some edge
    end
  else
    match getEdgeColor with
    | None => None
    | Some scale =>
        let color := scale (weightOf edge) range.1 range.2 in
        let edgeData := withOriginalStroke color (edge_data edge) in
        Some {| edge_id := edge_id edge;
                edge_source := edge_source edge;
                edge_target := edge_target edge;
                edge_type := edge_type edge;
                edge_animated := edge_animated edge;
                edge_label :=
                  match pathDurationOf info (edge_id edge) with
                  | Some avgDuration => Some (Format.formatDuration avgDuration)
                  | None => edge_label edge
                  end;
                edge_style := Some (withStroke color (edge_style edge));
                edge_data :=
                  match pathDurationOf info (edge_id edge) with
                  | Some avgDuration =>
                      withPathDuration info edge avgDuration edgeData
                  | None => edgeData
                  end |}
    end.

(** The statements of the [try] block after [await elk.layout(..)]:
    [None] when one of them throws. *)
Definition layoutResult (colorPalettes : string → option ColorScaleFn)
    (config : LayoutConfig) (graph : list Node * list Edge)
    (outcome : ElkOutcome) : option (list Node * list Edge) :=
  match outcome with
  | ElkRejected => None
  | ElkResolved None => None
  | ElkResolved (Some children) =>
      let newLayoutedNodes := placeNode children <$> graph.1 in
      let range := weightRange graph.2 in
      let getEdgeColor :=
        match colorPalettes (colorPaletteKey config) with
        | Some scale => Some scale
        | None => colorPalettes "default"
        end in
      coloredEdges ←
        mapM (colorEdge getEdgeColor (activePathInfo config) range) graph.2;
      Some (newLayoutedNodes, coloredEdges)
  end.

(** [updateEdgeLookupMap] *)
Definition edgeLookupMapOf (allEdges : list Edge) : JsMap.t Edge :=
  fold_left
    (λ map edge,
       JsMap.set
         (edgeIdOf (edge_source edge) (default "undefined" (edge_target edge)))
         edge map)
    allEdges JsMap.empty.

Definition updateEdgeLookupMap (s : GraphState) : GraphState :=
  {| allNodes := allNodes s;
     allEdges := allEdges s;
     layoutedNodes := layoutedNodes s;
     layoutedEdges := layoutedEdges s;
     isLayoutLoading := isLayoutLoading s;
     loadingMessage := loadingMessage s;
     pathStartNodeId := pathStartNodeId s;
     pathEndNodeId := pathEndNodeId s;
     foundPaths := foundPaths s;
     activePath := activePath s;
     _edgeLookupMap := edgeLookupMapOf (allEdges s) |}.

(** [set({ layoutedNodes, layoutedEdges, isLayoutLoading })] *)
Definition setLayout (nodes : list Node) (edges : list Edge) (loading : bool)
    (s : GraphState) : GraphState :=
  {| allNodes := allNodes s;
     allEdges := allEdges s;
     layoutedNodes := nodes;
     layoutedEdges := edges;
     isLayoutLoading := loading;
     loadingMessage := loadingMessage s;
     pathStartNodeId := pathStartNodeId s;
     pathEndNodeId := pathEndNodeId s;
     foundPaths := foundPaths s;
     activePath := activePath s;
     _edgeLookupMap := _edgeLookupMap s |}.

(** [set({ isLayoutLoading })] *)
Definition setIsLayoutLoading (loading : bool) (s : GraphState) : GraphState :=
  {| allNodes := allNodes s;
     allEdges := allEdges s;
     layoutedNodes := layoutedNodes s;
     layoutedEdges := layoutedEdges s;
     isLayoutLoading := loading;
     loadingMessage := loadingMessage s;
     pathStartNodeId := pathStartNodeId s;
     pathEndNodeId := pathEndNodeId s;
     foundPaths := foundPaths s;
     activePath := activePath s;
     _edgeLookupMap := _edgeLookupMap s |}.

(** [set({ isLayoutLoading: true, loadingMessage })] *)
Definition setLoadingWithMessage (message : string) (s : GraphState)
    : GraphState :=
  {| allNodes := allNodes s;
     allEdges := allEdges s;
     layoutedNodes := layoutedNodes s;
     layoutedEdges := layoutedEdges s;
     isLayoutLoading := true;
     loadingMessage := message;
     pathStartNodeId := pathStartNodeId s;
     pathEndNodeId := pathEndNodeId s;
     foundPaths := foundPaths s;
     activePath := activePath s;
     _edgeLookupMap := _edgeLookupMap s |}.

(** [computeLayout] is asynchronous. Up to [await elk.layout(..)] it either
    finishes (nothing to lay out) or leaves the store loading, with a
    request in flight for the graph it assembled. *)
Inductive LayoutStart :=
| LayoutDone (s : GraphState)
| LayoutAwait (s : GraphState) (graph : list Node * list Edge).

Definition computeLayoutStart (config : LayoutConfig) (s : GraphState)
    : LayoutStart :=
  let graph := graphToLayout config (allNodes s) (allEdges s) in
  if decide (Js.len graph.1 = 0) then LayoutDone (setLayout [] [] false s)
  else
    LayoutAwait (setLoadingWithMessage "در حال محاسبه چیدمان گراف..." s) graph.

(** The rest of [computeLayout], run on the store as it is when the
    promise settles: the remainder of the [try] block, or [catch]. *)
Definition computeLayoutSettle (colorPalettes : string → option ColorScaleFn)
    (config : LayoutConfig) (graph : list Node * list Edge)
    (outcome : ElkOutcome) (s : GraphState) : GraphState :=
  match layoutResult colorPalettes config graph outcome with
  | Some (newLayoutedNodes, coloredEdges) =>
      updateEdgeLookupMap (setLayout newLayoutedNodes coloredEdges false s)
  | None => setIsLayoutLoading false s
  end.

(** [computeLayout] when nothing else touches the store while the layout
    is computed; [elk] is the layout algorithm. *)
Definition computeLayout (colorPalettes : string → option ColorScaleFn)
    (elk : ElkGraph → ElkOutcome) (config : LayoutConfig) (s : GraphState)
    : GraphState :=
  match computeLayoutStart config s with
  | LayoutDone s' => s'
  | LayoutAwait s' graph =>
      computeLayoutSettle colorPalettes config graph (elk (elkRequest graph)) s'
  end.

(** *** [handleNodeClick]: the candidates found when the end node is clicked *)

(** [for (i = 0; i < pathNodes.length - 1; i++) push(`${n[i]}->${n[i+1]}`)] *)
Fixpoint consecutiveEdgeIds (pathNodes : list string) : list string :=
  match pathNodes with
  | source :: (target :: _) as rest =>
      edgeIdOf source target :: consecutiveEdgeIds rest
  | _ => []
  end.

(** The callback of [variants.forEach]; [None] when nothing is pushed.
    [_variantDuration] is [None] when a timestamp is missing (the
    subtraction is not a number). *)
Definition clickCandidate (pathStartNodeId endId : string) (variant : Variant)
    : option ExtendedPath :=
  let variantPath := Variant_Path variant in
  let startIdx :=
    if decide (pathStartNodeId = START_NODE) then 0
    else Js.indexOf variantPath pathStartNodeId in
  let endIdx :=
    if decide (endId = END_NODE) then Js.len variantPath - 1
    else Js.lastIndexOf variantPath endId in
  if decide (startIdx ≠ -1 ∧ endIdx ≠ -1 ∧ startIdx < endIdx) then
    let pathNodes := Js.slice variantPath startIdx (endIdx + 1) in
    Some
      {| nodes := pathNodes;
         edges := consecutiveEdgeIds pathNodes;
         frequency := None;
         totalDuration := None;
         averageDuration := None;
         _variantDuration :=
           match Js.at_ (Avg_Timings variant) endIdx,
                 Js.at_ (Avg_Timings variant) startIdx with
           | Some e, Some b => Some (e - b)%Q
           | _, _ => None
           end;
         _frequency := Frequency variant;
         _fullPathNodes := Some variantPath;
         _startIndex := Some startIdx;
         _endIndex := Some endIdx;
         _pathType :=
           Some (if decide (startIdx = 0 ∧ endIdx = Js.len variantPath - 1)
                 then absolute else relative);
         _variantTimings := Some (Avg_Timings variant);
         _specificEdgeDurations := None;
         _specificTotalDurations := None |}
  else None.

Definition clickCandidates (pathStartNodeId endId : string)
    (variants : list Variant) : list ExtendedPath :=
  omap (clickCandidate pathStartNodeId endId) variants.

End Store.

(* ------------------------------------------------------------------ *)
(** ** Selecting a found path ([handleSelectPath] of [app/routing/page.tsx]) *)
(* ------------------------------------------------------------------ *)

Module PathSelection.

(** [Array.from(new Set(l))]: the first occurrence of each element. *)
Fixpoint setToArray (seen : gset string) (l : list string) : list string :=
  match l with
  | [] => []
  | x :: rest =>
      if decide (x ∈ seen) then setToArray seen rest
      else x :: setToArray ({[x]} ∪ seen) rest
  end.

(** [edgeIds]: the ids of the consecutive pairs, added to a [Set]. *)
Definition pathEdgeIds (path : ExtendedPath) : list string :=
  setToArray ∅ (Store.consecutiveEdgeIds (nodes path)).

Definition activePathInfoData (path : ExtendedPath) : ActivePathInfo :=
  {| api_nodes := nodes path;
     api_edges := pathEdgeIds path;
     edgeDurations := Some (Routing.objOrEmpty (_specificEdgeDurations path));
     edgeTotalDurations :=
       Some (Routing.objOrEmpty (_specificTotalDurations path));
     api_frequency :=
       match _frequency path with
       | Some n => if (n =? 0)%N then frequency path else Some n
       | None => frequency path
       end |}.

(** The configuration that [handleSelectPath] passes to [computeLayout]. *)
Definition selectPathConfig (selectedColorPalette : string)
    (path : ExtendedPath) : LayoutConfig :=
  {| colorPaletteKey := selectedColorPalette;
     filteredNodeIds := list_to_set (nodes path);
     filteredEdgeIds := Some (list_to_set (pathEdgeIds path));
     activePathInfo := Some (activePathInfoData path);
     searchCasePathInfo := None |}.

End PathSelection.

(* ------------------------------------------------------------------ *)
(** ** Array helpers of the path lists *)
(* ------------------------------------------------------------------ *)

(** [l.filter((_, i) => i !== index)], read from the position [i] on. *)
Fixpoint dropIndexFrom {A} (l : list A) (i index : Z) : list A :=
  match l with
  | [] => []
  | x :: l' =>
      if decide (i ≠ index) then x :: dropIndexFrom l' (i + 1) index
      else dropIndexFrom l' (i + 1) index
  end.

Definition dropIndex {A} (l : list A) (index : Z) : list A :=
  dropIndexFrom l 0 index.

(** [sort((a, b) => key(a) - key(b))]: the sort is stable, [a] stays
    before [b] unless the key of [b] is strictly smaller. *)
Fixpoint insertAscending {A} (key : A → Q) (a : A) (l : list A) : list A :=
  match l with
  | [] => [a]
  | b :: l' =>
      if decide (key b < key a)%Q then b :: insertAscending key a l'
      else a :: b :: l'
  end.

Definition sortAscending {A} (key : A → Q) (l : list A) : list A :=
  foldr (insertAscending key) [] l.

(* ------------------------------------------------------------------ *)
(** ** The path selection of the application store ([hooks/useAppStore.ts]) *)
(* ------------------------------------------------------------------ *)

(** A [Set<string>] that is turned back into an array keeps its insertion
    order: it is the list of its elements, each at its first insertion
    ([new Set(l)] is [PathSelection.setToArray ∅ l]). *)
Record Selection := {
  selectedPathNodes : list string;
  selectedPathEdges : list string;
  selectedPathIndex : option Z;
}.

(** The initial selection, also set by [resetPathSelection]. *)
Definition noSelection : Selection :=
  {| selectedPathNodes := []; selectedPathEdges := [];
     selectedPathIndex := None |}.

(* ------------------------------------------------------------------ *)
(** ** The path-finding actions of the graph store ([store/useGraphStore.ts]) *)
(* ------------------------------------------------------------------ *)

Module PathFinding.

Definition setPathStartNodeId (id : option string) (s : GraphState)
    : GraphState :=
  {| allNodes := allNodes s;
     allEdges := allEdges s;
     layoutedNodes := layoutedNodes s;
     layoutedEdges := layoutedEdges s;
     isLayoutLoading := isLayoutLoading s;
     loadingMessage := loadingMessage s;
     pathStartNodeId := id;
     pathEndNodeId := pathEndNodeId s;
     foundPaths := foundPaths s;
     activePath := activePath s;
     _edgeLookupMap := _edgeLookupMap s |}.

Definition setPathEndNodeId (id : option string) (s : GraphState)
    : GraphState :=
  {| allNodes := allNodes s;
     allEdges := allEdges s;
     layoutedNodes := layoutedNodes s;
     layoutedEdges := layoutedEdges s;
     isLayoutLoading := isLayoutLoading s;
     loadingMessage := loadingMessage s;
     pathStartNodeId := pathStartNodeId s;
     pathEndNodeId := id;
     foundPaths := foundPaths s;
     activePath := activePath s;
     _edgeLookupMap := _edgeLookupMap s |}.

Definition setFoundPaths (paths : list ExtendedPath) (s : GraphState)
    : GraphState :=
  {| allNodes := allNodes s;
     allEdges := allEdges s;
     layoutedNodes := layoutedNodes s;
     layoutedEdges := layoutedEdges s;
     isLayoutLoading := isLayoutLoading s;
     loadingMessage := loadingMessage s;
     pathStartNodeId := pathStartNodeId s;
     pathEndNodeId := pathEndNodeId s;
     foundPaths := paths;
     activePath := activePath s;
     _edgeLookupMap := _edgeLookupMap s |}.

Definition setActivePath (path : option ExtendedPath) (s : GraphState)
    : GraphState :=
  {| allNodes := allNodes s;
     allEdges := allEdges s;
     layoutedNodes := layoutedNodes s;
     layoutedEdges := layoutedEdges s;
     isLayoutLoading := isLayoutLoading s;
     loadingMessage := loadingMessage s;
     pathStartNodeId := pathStartNodeId s;
     pathEndNodeId := pathEndNodeId s;
     foundPaths := foundPaths s;
     activePath := path;
     _edgeLookupMap := _edgeLookupMap s |}.

(** The truth value of a node id: [null] and the empty string are falsy. *)
Definition isSet (id : option string) : bool :=
  match id with
  | Some s => negb (bool_decide (s = ""))
  | None => false
  end.

(** [set({ pathStartNodeId: node.id, pathEndNodeId: null, foundPaths: [] })]
    and the two callbacks that follow it. *)
Definition startPathAt (nodeId : string) (st : GraphState * Selection)
    : GraphState * Selection :=
  (setFoundPaths []
     (setPathEndNodeId None (setPathStartNodeId (Some nodeId) st.1)),
   {| selectedPathNodes := PathSelection.setToArray ∅ [nodeId];
      selectedPathEdges := PathSelection.setToArray ∅ [];
      selectedPathIndex := selectedPathIndex st.2 |}).

(** [handleNodeClick] in path-finding mode: the statements after the
    branch taken when [isPathFinding] is false. The tooltip fields are not
    part of the state modelled here. *)
Definition handleNodeClickPathFinding (nodeId : string)
    (variants : list Variant) (st : GraphState * Selection)
    : GraphState * Selection :=
  let s := st.1 in
  if negb (isSet (pathStartNodeId s)) then startPathAt nodeId st
  else if negb (isSet (pathEndNodeId s))
          && bool_decide (Some nodeId ≠ pathStartNodeId s) then
    let startId := default "" (pathStartNodeId s) in
    let endId := nodeId in
    (setFoundPaths (Store.clickCandidates startId endId variants)
       (setPathEndNodeId (Some endId) s),
     {| selectedPathNodes := PathSelection.setToArray ∅ [startId; endId];
        selectedPathEdges := PathSelection.setToArray ∅ [];
        selectedPathIndex := selectedPathIndex st.2 |})
  else startPathAt nodeId st.

Definition handleSelectPath (path : ExtendedPath) (index : Z)
    (st : GraphState * Selection) : GraphState * Selection :=
  let selection :=
    {| selectedPathNodes := PathSelection.setToArray ∅ (nodes path);
       selectedPathEdges := PathSelection.setToArray ∅ (edges path);
       selectedPathIndex := Some index |} in
  match Js.at_ (foundPaths st.1) index with
  | Some found => (setActivePath (Some found) st.1, selection)
  | None => (st.1, selection)
  end.

Definition handleSelectOutlier (outlierPath : ExtendedPath)
    (st : GraphState * Selection) : GraphState * Selection :=
  (setActivePath (Some outlierPath) (setFoundPaths [outlierPath] st.1),
   {| selectedPathNodes := PathSelection.setToArray ∅ (nodes outlierPath);
      selectedPathEdges := PathSelection.setToArray ∅ (edges outlierPath);
      selectedPathIndex := Some 0 |}).

(** [selectedPathIndex] is the argument that the caller passes, not the
    index held by the selection. *)
Definition removePath (indexToRemove : Z) (selectedPathIndex : option Z)
    (st : GraphState * Selection) : GraphState * Selection :=
  let newPaths := dropIndex (foundPaths st.1) indexToRemove in
  let s := setFoundPaths newPaths st.1 in
  match selectedPathIndex with
  | Some selected =>
      if decide (selected = indexToRemove) then
        (setActivePath None s,
         {| selectedPathNodes := selectedPathNodes st.2;
            selectedPathEdges := selectedPathEdges st.2;
            selectedPathIndex := None |})
      else if decide (indexToRemove < selected) then
        (s,
         {| selectedPathNodes := selectedPathNodes st.2;
            selectedPathEdges := selectedPathEdges st.2;
            selectedPathIndex := Some (selected - 1) |})
      else (s, st.2)
  | None => (s, st.2)
  end.

End PathFinding.

(* ------------------------------------------------------------------ *)
(** ** The handlers of the routing page ([app/routing/page.tsx]) *)
(* ------------------------------------------------------------------ *)

Module RoutingPage.

(** The path lists that the page keeps beside the store: its states
    [processedPaths], [sortedPaths], [selectedPathIndex] and [isSorted]. *)
Record PageState := {
  pageProcessedPaths : list ExtendedPath;
  pageSortedPaths : list ExtendedPath;
  pageSelectedPathIndex : option Z;
  pageIsSorted : bool;
}.

Definition initialPage : PageState :=
  {| pageProcessedPaths := []; pageSortedPaths := [];
     pageSelectedPathIndex := None; pageIsSorted := false |}.

Definition clearPaths (st : GraphState * PageState) : GraphState * PageState :=
  (PathFinding.setFoundPaths [] st.1,
   {| pageProcessedPaths := [];
      pageSortedPaths := [];
      pageSelectedPathIndex := None;
      pageIsSorted := pageIsSorted st.2 |}).

(** The click handler that chooses the start and the end node. *)
Definition handleNodeClick (nodeId : string) (st : GraphState * PageState)
    : GraphState * PageState :=
  let s := st.1 in
  if negb (PathFinding.isSet (pathStartNodeId s)) then
    (PathFinding.setPathStartNodeId (Some nodeId) s, st.2)
  else if negb (PathFinding.isSet (pathEndNodeId s))
          && bool_decide (Some nodeId ≠ pathStartNodeId s) then
    (PathFinding.setPathEndNodeId (Some nodeId) s, st.2)
  else if bool_decide (Some nodeId = pathStartNodeId s) then
    clearPaths
      (PathFinding.setPathEndNodeId None
         (PathFinding.setPathStartNodeId None s), st.2)
  else if bool_decide (Some nodeId = pathEndNodeId s) then
    clearPaths (PathFinding.setPathEndNodeId None s, st.2)
  else
    clearPaths
      (PathFinding.setPathEndNodeId None
         (PathFinding.setPathStartNodeId (Some nodeId) s), st.2).

(** The effect that searches the paths once both nodes are chosen runs in
    two steps. When the effect runs it tests
    [pathStartNodeId && pathEndNodeId && variants] and, when the test
    holds, starts a timer; this is what the callback of the timer captures.
    [None]: no timer is started. *)
Definition searchEffectGuard (variants : option (list Variant)) (s : GraphState)
    : option (string * string * list Variant) :=
  match pathStartNodeId s, pathEndNodeId s, variants with
  | Some startId, Some endId, Some vs =>
      if PathFinding.isSet (Some startId) && PathFinding.isSet (Some endId)
      then Some (startId, endId, vs)
      else None
  | _, _, _ => None
  end.

(** The callback of the timer. It runs 10 ms later on the state as it is
    by then, reads the ids and the variants that were captured, and writes
    the three lists without a test of its own. *)
Definition searchTimeout (startId endId : string) (variants : list Variant)
    (st : GraphState * PageState) : GraphState * PageState :=
  let paths := Routing.findPathsBetweenNodes startId endId variants in
  (PathFinding.setFoundPaths paths st.1,
   {| pageProcessedPaths := paths;
      pageSortedPaths := paths;
      pageSelectedPathIndex := pageSelectedPathIndex st.2;
      pageIsSorted := false |}).

(** [(a, b) => (a.averageDuration ?? 0) - (b.averageDuration ?? 0)] *)
Definition averageDurationKey (path : ExtendedPath) : Q :=
  default 0%Q (averageDuration path).

Definition handleSortPaths (page : PageState) : PageState :=
  if pageIsSorted page then page
  else
    {| pageProcessedPaths := pageProcessedPaths page;
       pageSortedPaths :=
         sortAscending averageDurationKey (pageProcessedPaths page);
       pageSelectedPathIndex := pageSelectedPathIndex page;
       pageIsSorted := true |}.

End RoutingPage.

(* ------------------------------------------------------------------ *)
(** ** The outlier paths ([app/outliers/page.tsx]) *)
(* ------------------------------------------------------------------ *)

Module Outliers.

(** An entry of [edgeStats]. *)
Record EdgeStat := {
  es_sum : Q;
  es_count : N;
}.

(** One iteration of the loop over the consecutive pairs of the trace.
    The keys of [edgeStats] contain the separator and are never array
    indices, so the object keeps them in insertion order. *)
Definition statStep (variant : Variant) (edgeStats : JsMap.t EdgeStat) (i : Z)
    : JsMap.t EdgeStat :=
  let nodes := Variant_Path variant in
  let source := Js.strAt nodes i in
  let target := Js.strAt nodes (i + 1) in
  let edgeId := edgeIdOf source target in
  if decide (i + 1 < Js.len (Avg_Timings variant)) then
    let duration :=
      (default 0 (Js.at_ (Avg_Timings variant) (i + 1))
       - default 0 (Js.at_ (Avg_Timings variant) i))%Q in
    let stat :=
      default {| es_sum := 0; es_count := 0 |} (JsMap.get edgeId edgeStats) in
    JsMap.set edgeId
      {| es_sum := (es_sum stat + duration)%Q;
         es_count := (es_count stat + 1)%N |}
      edgeStats
  else edgeStats.

Definition edgeStatsOf (variant : Variant) : JsMap.t EdgeStat :=
  fold_left (statStep variant)
    (seqZ 0 (Js.len (Variant_Path variant) - 1)) JsMap.empty.

(** [Object.keys(edgeStats).forEach(id => { o[id] = f(edgeStats[id]) })] *)
Definition objectOf {V} (f : EdgeStat → V) (edgeStats : JsMap.t EdgeStat)
    : gmap string V :=
  fold_left (λ o entry, <[entry.1 := f entry.2]> o) edgeStats ∅.

Definition totalPathDuration (variant : Variant) : Q :=
  let timings := Avg_Timings variant in
  if decide (0 < Js.len timings) then
    (default 0 (Js.at_ timings (Js.len timings - 1))
     - default 0 (Js.at_ timings 0))%Q
  else 0%Q.

(** A path of the outlier list: [_specificEdgeCounts] is carried beside
    the fields of [ExtendedPath]. *)
Record OutlierPath := {
  pathData : ExtendedPath;
  _specificEdgeCounts : gmap string N;
}.

(** The callback of [outliers.map]. *)
Definition mapVariant (variant : Variant) : OutlierPath :=
  let nodes := Variant_Path variant in
  let edgeStats := edgeStatsOf variant in
  let specificEdgeDurations :=
    objectOf (λ stat, (es_sum stat / Js.numOfN (es_count stat))%Q) edgeStats in
  let specificTotalDurations := objectOf es_sum edgeStats in
  let specificEdgeCounts := objectOf es_count edgeStats in
  {| pathData :=
       {| nodes := nodes;
          edges := JsMap.keys edgeStats;
          frequency := None;
          totalDuration := Some (totalPathDuration variant);
          averageDuration := None;
          _variantDuration := None;
          _frequency := Frequency variant;
          _fullPathNodes := Some nodes;
          _startIndex := Some 0;
          _endIndex := Some (Js.len nodes - 1);
          _pathType := Some absolute;
          _variantTimings := Some (Avg_Timings variant);
          _specificEdgeDurations := Some specificEdgeDurations;
          _specificTotalDurations := Some specificTotalDurations |};
     _specificEdgeCounts := specificEdgeCounts |}.

(** [(a, b) => (a._frequency || 0) - (b._frequency || 0)] *)
Definition frequencyKey (path : OutlierPath) : Q :=
  Js.numOfN (Js.orN (_frequency (pathData path)) 0).

(** [sortedPaths] of the outliers page. *)
Definition sortedPaths (outliers : list Variant) : list OutlierPath :=
  if decide (Js.len outliers = 0) then []
  else sortAscending frequencyKey (mapVariant <$> outliers).

(** The configuration that [handleSelectPath] of the outliers page passes
    to [computeLayout]. *)
Definition selectOutlierConfig (selectedColorPalette : string)
    (extPath : ExtendedPath) : LayoutConfig :=
  {| colorPaletteKey := selectedColorPalette;
     filteredNodeIds := list_to_set (nodes extPath);
     filteredEdgeIds := Some (list_to_set (edges extPath));
     activePathInfo :=
       Some {| api_nodes := nodes extPath;
               api_edges := edges extPath;
               edgeDurations :=
                 Some (Routing.objOrEmpty (_specificEdgeDurations extPath));
               edgeTotalDurations :=
                 Some (Routing.objOrEmpty (_specificTotalDurations extPath));
               api_frequency := Some (Js.orN (_frequency extPath) 1) |};
     searchCasePathInfo := None |}.

End Outliers.

(* ------------------------------------------------------------------ *)
(** ** The layout request of the dashboard ([components/Dashboard.tsx]) *)
(* ------------------------------------------------------------------ *)

Module Dashboard.

(** The fields of the application store that the layout effect reads. *)
Record AppState := {
  sidebarActiveTab : string;
  selectedNodeIds : gset string;
  selection : Selection;
  selectedColorPalette : string;
}.

Definition showsPath (app : AppState) : Prop :=
  (sidebarActiveTab app = "SearchCaseIds" ∨ sidebarActiveTab app = "Outliers"
   ∨ sidebarActiveTab app = "Routing")
  ∧ 0 < Js.len (selectedPathNodes (selection app)).

(** [layoutFilters]: the kept node ids and the kept edge ids. *)
Definition layoutFilters (app : AppState) : gset string * option (gset string) :=
  let sel := selection app in
  if decide (showsPath app) then
    (list_to_set (selectedPathNodes sel),
     Some (list_to_set (selectedPathEdges sel)))
  else
    match selectedPathIndex sel with
    | Some _ =>
        (list_to_set (selectedPathNodes sel),
         Some (list_to_set (selectedPathEdges sel)))
    | None => (selectedNodeIds app, None)
    end.

(** The nodes and edges of [activePathInfo] and of [searchCasePathInfo]:
    the two [Set]s as arrays, the edges computed from the order of the
    nodes when no edge is selected. *)
Definition pathArrays (sel : Selection) : list string * list string :=
  let pathNodes := selectedPathNodes sel in
  let pathEdges := selectedPathEdges sel in
  if decide (Js.len pathEdges = 0 ∧ 1 < Js.len pathNodes)
  then (pathNodes, Store.consecutiveEdgeIds pathNodes)
  else (pathNodes, pathEdges).

Definition activePathInfoOf (app : AppState) : option ActivePathInfo :=
  if decide (sidebarActiveTab app ≠ "Outliers"
             ∧ sidebarActiveTab app ≠ "Routing") then None
  else if decide (Js.len (selectedPathNodes (selection app)) = 0) then None
  else
    let arrays := pathArrays (selection app) in
    Some {| api_nodes := arrays.1; api_edges := arrays.2;
            edgeDurations := None; edgeTotalDurations := None;
            api_frequency := None |}.

Definition searchCasePathInfoOf (app : AppState) : option SearchCasePathInfo :=
  if decide (sidebarActiveTab app ≠ "SearchCaseIds") then None
  else if decide (Js.len (selectedPathNodes (selection app)) = 0) then None
  else
    let arrays := pathArrays (selection app) in
    Some {| sc_nodes := arrays.1; sc_edges := arrays.2 |}.

(** The effect that calls [computeLayout]: [None] when it returns early. *)
Definition layoutRequest (app : AppState) (s : GraphState)
    : option LayoutConfig :=
  let activePathInfo := activePathInfoOf app in
  let searchCasePathInfo := searchCasePathInfoOf app in
  if decide (Js.len (allNodes s) = 0 ∧ activePathInfo = None
             ∧ searchCasePathInfo = None) then None
  else
    Some {| colorPaletteKey := selectedColorPalette app;
            filteredNodeIds := (layoutFilters app).1;
            filteredEdgeIds := (layoutFilters app).2;
            activePathInfo := activePathInfo;
            searchCasePathInfo := searchCasePathInfo |}.

End Dashboard.

(* ------------------------------------------------------------------ *)
(** ** Vocabulary of the specification *)
(* ------------------------------------------------------------------ *)

(** [i] is the index of the first (last) occurrence of [x] in [l]. *)
Definition firstOccurrence (x : string) (l : list string) (i : Z) : Prop :=
  0 ≤ i ∧ l !! Z.to_nat i = Some x ∧
  ∀ j : nat, (j < Z.to_nat i)%nat → l !! j ≠ Some x.

Definition lastOccurrence (x : string) (l : list string) (i : Z) : Prop :=
  0 ≤ i ∧ l !! Z.to_nat i = Some x ∧
  ∀ j : nat, (Z.to_nat i < j)%nat → l !! j ≠ Some x.

(** [sub] is [l[s..e]], both ends included. *)
Definition inclusiveSlice (l sub : list string) (s e : Z) : Prop :=
  Js.len sub = e - s + 1 ∧
  ∀ k : nat, (k < length sub)%nat → sub !! k = l !! (Z.to_nat s + k)%nat.

(** The rule of the specification for discarding a variant. *)
Definition discarded (startIdx endIdx : Z) : Prop :=
  startIdx = -1 ∨ endIdx = -1 ∨ endIdx ≤ startIdx.

(** The frequency with which the aggregator counts a path: [frequency],
    or 1 when it is 0 or absent. *)
Definition countedFrequency (p : ExtendedPath) : N := Js.orN (frequency p) 1.

(** The frequency of a path of the result, as the final sort reads it. *)
Definition reportedFrequency (p : ExtendedPath) : N := Js.orN (frequency p) 0.

Definition sumN (l : list N) : N := foldr N.add 0%N l.

Definition sumQ (l : list Q) : Q := foldr Qplus 0%Q l.

(** The extracted paths whose nodes join to the key [k]. *)
Definition sameKey (k : string) (paths : list ExtendedPath) : list ExtendedPath :=
  filter (λ q, Routing.pathKey q = k) paths.

(** The extracted paths with the node sequence [ns]. *)
Definition sameNodes (ns : list string) (paths : list ExtendedPath)
    : list ExtendedPath :=
  filter (λ q, nodes q = ns) paths.

(** The average (total) duration that a path records for the edge [e];
    a path without a record for [e] contributes nothing. *)
Definition edgeAverage (e : string) (q : ExtendedPath) : Q :=
  default 0%Q (lookupIn (_specificEdgeDurations q) e).

Definition edgeTotal (e : string) (q : ExtendedPath) : Q :=
  default 0%Q (lookupIn (_specificTotalDurations q) e).

Definition recordsAverage (e : string) (q : ExtendedPath) : Prop :=
  is_Some (lookupIn (_specificEdgeDurations q) e).

Definition recordsTotal (e : string) (q : ExtendedPath) : Prop :=
  is_Some (lookupIn (_specificTotalDurations q) e).

(** [Σ duration_i × frequency_i] over a group, for the edge [e]. *)
Definition weightedEdgeSum (e : string) (grp : list ExtendedPath) : Q :=
  sumQ ((λ q, edgeAverage e q * Js.numOfN (countedFrequency q))%Q <$> grp).

(** [Σ totalDuration_i] over a group, for the edge [e]. *)
Definition edgeTotalSum (e : string) (grp : list ExtendedPath) : Q :=
  sumQ (edgeTotal e <$> grp).

(** [Σ frequency_i] over a group. *)
Definition groupFrequency (grp : list ExtendedPath) : N :=
  sumN (countedFrequency <$> grp).

(** [Σ totalDuration_i × frequency_i] over a group. *)
Definition weightedPathSum (grp : list ExtendedPath) : Q :=
  sumQ ((λ q, Js.orQ (totalDuration q) 0 * Js.numOfN (countedFrequency q))%Q
          <$> grp).

(** An entry of a per-edge object: present exactly when [present] holds,
    and then equal to [v]. *)
Definition entryIs (o : option Q) (present : Prop) (v : Q) : Prop :=
  match o with
  | Some w => present ∧ (w == v)%Q
  | None => ¬ present
  end.

(** What the entry of [pathMap] for a group holds. *)
Definition groupSpec (grp : list ExtendedPath) (g : Routing.Group) : Prop :=
  head grp = Some (Routing.g_path g) ∧
  Routing.totalFrequency g = groupFrequency grp ∧
  (Routing.weightedTotalDuration g == weightedPathSum grp)%Q ∧
  (∀ e, entryIs (Routing.weightedEdgeDurations g !! e)
          (Exists (recordsAverage e) grp) (weightedEdgeSum e grp)) ∧
  (∀ e, entryIs (Routing.summedEdgeTotalDurations g !! e)
          (Exists (recordsTotal e) grp) (edgeTotalSum e grp)).

(** [pathMap] after the paths [paths] have been grouped. *)
Definition groupsOf (paths : list ExtendedPath) (m : JsMap.t Routing.Group)
    : Prop :=
  NoDup (JsMap.keys m) ∧
  ∀ k, match JsMap.get k m with
       | Some g => sameKey k paths ≠ [] ∧ groupSpec (sameKey k paths) g
       | None => sameKey k paths = []
       end.

(** A variant qualifies for a query when the extractor keeps it. *)
Definition qualifies (startId endId : string) (variant : Variant) : Prop :=
  ¬ discarded
      (Routing.resolveStartIndex startId (Variant_Path variant))
      (Routing.resolveEndIndex endId (Variant_Path variant)).

#[global] Instance discarded_dec s e : Decision (discarded s e).
Proof. unfold discarded. apply _. Defined.

#[global] Instance qualifies_dec s e v : Decision (qualifies s e v).
Proof. unfold qualifies. apply _. Defined.

(** The sub-trace that the extractor slices out of a variant. *)
Definition windowOf (startId endId : string) (variant : Variant) : list string :=
  Js.slice (Variant_Path variant)
    (Routing.resolveStartIndex startId (Variant_Path variant))
    (Routing.resolveEndIndex endId (Variant_Path variant) + 1).

(** An id without the separator of edge ids and path keys. *)
Fixpoint hasArrow (s : string) : bool :=
  match s with
  | EmptyString => false
  | String c s' =>
      match c, s' with
      | "-"%char, String ">"%char _ => true
      | _, _ => hasArrow s'
      end
  end.

Definition arrowFree (l : list string) : Prop :=
  Forall (λ s, hasArrow s = false) l.

(** The frequency recorded in a path or a variant, 0 when absent. *)
Definition recordedFrequency (p : ExtendedPath) : N := default 0%N (frequency p).

Definition variantFrequency (v : Variant) : N := default 0%N (Frequency v).

(** The frequency with which the aggregator counts a variant. *)
Definition countedVariantFrequency (v : Variant) : N :=
  match Frequency v with
  | None => 1
  | Some n => if decide (n = 0%N) then 1%N else n
  end.

(** The qualifying variants whose window joins to the key [k]. *)
Definition variantsWithKey (startId endId k : string) (variants : list Variant)
    : list Variant :=
  filter (λ v, qualifies startId endId v ∧
               Js.join "->" (windowOf startId endId v) = k) variants.

(** The qualifying variants whose window is the node sequence [ns]. *)
Definition variantsWithNodes (startId endId : string) (ns : list string)
    (variants : list Variant) : list Variant :=
  filter (λ v, qualifies startId endId v ∧ windowOf startId endId v = ns)
    variants.

(** The id of the edge that a row of [graphData] describes. *)
Definition recordEdgeId (item : GraphData) : string :=
  edgeIdOf (Source_Activity item) (Target_Activity item).

(** The first row of [graphData] with the edge id [id]. *)
Definition firstWithId (id : string) (graphData : list GraphData)
    : option GraphData :=
  List.find (λ item, bool_decide (recordEdgeId item = id)) graphData.

(** The most recent row of [graphData] with the edge id [id]. *)
Definition lastWithId (id : string) (graphData : list GraphData)
    : option GraphData :=
  firstWithId id (reverse graphData).

(** The ids of the anchor edges that [processInitialData] adds. *)
Definition anchorEdgeIds (graphData : list GraphData)
    (startActivities endActivities : list string) : list string :=
  (Store.startEdgeId
     <$> filter (λ id, id ∈ Store.collectValidNodeIds graphData)
           startActivities)
  ++ (Store.endEdgeId
        <$> filter (λ id, id ∈ Store.collectValidNodeIds graphData)
              endActivities).

(** A map whose values are stored under the key that [key] reads. *)
Definition keyedBy {V} (key : V → string) (m : JsMap.t V) : Prop :=
  NoDup (JsMap.keys m) ∧ ∀ k v, (k, v) ∈ m → key v = k.

(** The edges map after the rows [processed] of [graphData]. *)
Definition edgesAfter (processed : list GraphData) (m : JsMap.t Edge) : Prop :=
  keyedBy edge_id m ∧
  ∀ id, JsMap.get id m = Store.recordEdge <$> firstWithId id processed.

(** An occurrence of an edge whose two timestamps are in the array. *)
Definition timed (timings : list Q) (startIndex idx : Z) : Prop :=
  is_Some (Js.at_ timings (startIndex + idx)) ∧
  is_Some (Js.at_ timings (startIndex + idx + 1)).

#[global] Instance timed_dec timings startIndex idx :
  Decision (timed timings startIndex idx).
Proof. unfold timed. apply _. Defined.

(** The clamped difference of the two timestamps of an occurrence. *)
Definition clampedDelta (timings : list Q) (startIndex idx : Z) : Q :=
  Js.max0 (default 0%Q (Js.at_ timings (startIndex + idx + 1))
           - default 0%Q (Js.at_ timings (startIndex + idx))).

(** The id of the edge that a variant traverses at the step [i]. *)
Definition edgeAt (variant : Variant) (i : Z) : string :=
  edgeIdOf (Js.strAt (Variant_Path variant) i)
           (Js.strAt (Variant_Path variant) (i + 1)).

(** The cumulative timing of a variant at the index [i], read as the
    timing loops read it. *)
Definition timingAt (variant : Variant) (i : Z) : Q :=
  default 0%Q (Js.at_ (Avg_Timings variant) i).

(** The difference of the two timestamps of the step [i], not clamped. *)
Definition stepDuration (variant : Variant) (i : Z) : Q :=
  (timingAt variant (i + 1) - timingAt variant i)%Q.

(** The steps between [lo] and [hi] that traverse [e] and have both
    timestamps in the timing array, in the order of the trace. *)
Definition passesOf (variant : Variant) (lo hi : Z) (e : string) : list Z :=
  filter (λ i, i + 1 < Js.len (Avg_Timings variant) ∧ edgeAt variant i = e)
    (seqZ lo (hi - lo)).

(** [l] is ordered by [le]: of two elements, the one that comes first in
    [l] is related to the other. *)
Definition orderedBy {A} (le : A → A → Prop) (l : list A) : Prop :=
  ∀ (i j : nat) (a b : A),
    (i < j)%nat → l !! i = Some a → l !! j = Some b → le a b.

(** The ids of a list of nodes. *)
Definition nodeIdsOf (nodes : list Node) : gset string :=
  list_to_set (node_id <$> nodes).

(** A graph without dangling edges: both endpoints of every edge are
    nodes of the graph. *)
Definition closedGraph (graph : list Node * list Edge) : Prop :=
  Forall (Store.endpointsIn (nodeIdsOf graph.1)) graph.2.

#[global] Instance closedGraph_dec graph : Decision (closedGraph graph).
Proof. unfold closedGraph. apply _. Defined.

(** The entry of [edgeStats] for an edge after the passes [passes] over
    it: absent without a pass, else the durations added in the order of
    the passes, and their number. *)
Definition statOf (variant : Variant) (passes : list Z)
    : option Outliers.EdgeStat :=
  match passes with
  | [] => None
  | _ =>
      Some {| Outliers.es_sum :=
                fold_left Qplus (stepDuration variant <$> passes) 0%Q;
              Outliers.es_count := N.of_nat (length passes) |}
  end.

(** The activities that the rows of [graphData] mention. *)
Definition activitiesOf (graphData : list GraphData) : list string :=
  graphData ≫= λ item, [Source_Activity item; Target_Activity item].

(** The key under which [updateEdgeLookupMap] stores an edge. *)
Definition lookupKey (edge : Edge) : string :=
  edgeIdOf (edge_source edge) (default "undefined" (edge_target edge)).

(** The store is coherent for path finding: an end node is chosen only
    with a start node, and differs from it. *)
Definition endpointsCoherent (s : GraphState) : Prop :=
  PathFinding.isSet (pathEndNodeId s) = true →
  PathFinding.isSet (pathStartNodeId s) = true ∧
  pathStartNodeId s ≠ pathEndNodeId s.

(** The routing page shows paths only while both endpoints are chosen. *)
Definition pathsCoherent (st : GraphState * RoutingPage.PageState) : Prop :=
  endpointsCoherent st.1 ∧
  (PathFinding.isSet (pathStartNodeId st.1)
   && PathFinding.isSet (pathEndNodeId st.1) = false →
   foundPaths st.1 = [] ∧ RoutingPage.pageProcessedPaths st.2 = [] ∧
   RoutingPage.pageSortedPaths st.2 = [] ∧
   RoutingPage.pageSelectedPathIndex st.2 = None).

(** *** Inputs of the examples *)

(** A trace from A to B with the cumulative timings 0 and [t]. *)
Definition traceAB (f : option N) (t : Q) : Variant :=
  {| Variant_Path := ["A"; "B"]; Frequency := f;
     Avg_Timings := [0%Q; t]; Total_Timings := [0%Q; t]; Percentage := 0 |}.

(** A row from A to B with the given weight and case count. *)
Definition rowAB (weight : Q) (cases : N) (label : string) : GraphData :=
  {| Source_Activity := "A"; Target_Activity := "B";
     Mean_Duration_Seconds := weight; Tooltip_Total_Time := label;
     Tooltip_Mean_Time := label; Weight_Value := weight;
     Edge_Label := label; Case_Count := cases |}.

(** A row of [graphData] from [source] to [target]. *)
Definition rowOf (source target : string) (weight : Q) : GraphData :=
  {| Source_Activity := source; Target_Activity := target;
     Mean_Duration_Seconds := weight; Tooltip_Total_Time := "";
     Tooltip_Mean_Time := ""; Weight_Value := weight;
     Edge_Label := ""; Case_Count := 1 |}.

(** The store after the graph A -> B -> C has been ingested. *)
Definition storeABC : GraphState :=
  Store.processInitialData Store.initialState
    [rowOf "A" "B" 1; rowOf "B" "C" 2] ["A"] ["C"].

(** A trace that visits X twice. *)
Definition loopVariant : Variant :=
  {| Variant_Path := ["X"; "Y"; "X"; "Z"]; Frequency := Some 1%N;
     Avg_Timings := [0; 5; 9; 12]%Q; Total_Timings := [0; 5; 9; 12]%Q;
     Percentage := 0 |}.

(** A configuration of [computeLayout] without overlays. *)
Definition plainConfig (nodeIds : gset string) (edgeIds : option (gset string))
    : LayoutConfig :=
  {| colorPaletteKey := "default"; filteredNodeIds := nodeIds;
     filteredEdgeIds := edgeIds; activePathInfo := None;
     searchCasePathInfo := None |}.

(** The path that the node filter card builds for a trace from A to B
    whose timing array stops after the first timestamp. *)
Definition truncatedPath : ExtendedPath :=
  {| nodes := ["A"; "B"];
     edges := ["A->B"];
     frequency := None;
     totalDuration := None;
     averageDuration := Some 0%Q;
     _variantDuration := None;
     _frequency := Some 4%N;
     _fullPathNodes := Some ["A"; "B"];
     _startIndex := Some 0;
     _endIndex := Some 1;
     _pathType := Some absolute;
     _variantTimings := Some [0%Q];
     _specificEdgeDurations := Some ∅;
     _specificTotalDurations := None |}.

(** A layout algorithm that always fails, and a store without palettes. *)
Definition failingElk : ElkGraph → ElkOutcome := λ _, ElkRejected.

Definition noPalettes : string → option ColorScaleFn := λ _, None.

(** A trace with a frequency and without timings. *)
Definition traceOf (path : list string) (f : N) : Variant :=
  {| Variant_Path := path; Frequency := Some f; Avg_Timings := [];
     Total_Timings := []; Percentage := 0 |}.

(** A layout algorithm that places every node at (1, 2), and a palette
    table that holds the default entry only. *)
Definition placingElk : ElkGraph → ElkOutcome :=
  λ graph,
    ElkResolved
      (Some ((λ n, {| placed_id := elk_id n; placed_x := Some 1%Q;
                      placed_y := Some 2%Q |}) <$> elk_children graph)).

Definition grayScale : ColorScaleFn := λ _ _ _, "#888888".

Definition defaultPalette : string → option ColorScaleFn :=
  λ key, if decide (key = "default") then Some grayScale else None.

(** The application store on the routing tab, with a selection. *)
Definition routingApp (selection : Selection) : Dashboard.AppState :=
  {| Dashboard.sidebarActiveTab := "Routing";
     Dashboard.selectedNodeIds := ∅;
     Dashboard.selection := selection;
     Dashboard.selectedColorPalette := "default" |}.

(** A trace whose cumulative timings decrease at the second step. *)
Definition noisyVariant : Variant :=
  {| Variant_Path := ["A"; "B"; "C"]; Frequency := Some 1%N;
     Avg_Timings := [0%Q; 5%Q; 3%Q]; Total_Timings := [0%Q; 10%Q; 6%Q];
     Percentage := 0 |}.

(** The routing page after a click on A and a click on B. *)
Definition chosenAB : GraphState * RoutingPage.PageState :=
  RoutingPage.handleNodeClick "B"
    (RoutingPage.handleNodeClick "A"
       (Store.initialState, RoutingPage.initialPage)).

(* ------------------------------------------------------------------ *)
(** ** Facts about the JavaScript primitives *)
(* ------------------------------------------------------------------ *)

Lemma indexOfFrom_cases (x : string) (l : list string) (i : Z) :
  (Js.indexOfFrom x l i = -1 ∧ x ∉ l) ∨
  (∃ n : nat, Js.indexOfFrom x l i = i + Z.of_nat n ∧ l !! n = Some x ∧
     ∀ j : nat, (j < n)%nat → l !! j ≠ Some x).
Proof.
  revert i. induction l as [|y l IH]; intros i; simpl.
  - left. split; [done | apply not_elem_of_nil].
  - destruct (decide (y = x)) as [->|Hne].
    + right. exists 0%nat. split; [lia|]. split; [done|]. intros j Hj. lia.
    + destruct (IH (i + 1)) as [[Hr Hnot]|(n & Hr & Hn & Hlt)].
      * left. split; [done|]. rewrite not_elem_of_cons. auto.
      * right. exists (S n). split; [lia|]. split; [done|].
        intros [|j] Hj; simpl; [congruence | apply Hlt; lia].
Qed.

Lemma lastIndexOfFrom_cases (x : string) (l : list string) (i last : Z) :
  (Js.lastIndexOfFrom x l i last = last ∧ x ∉ l) ∨
  (∃ n : nat, Js.lastIndexOfFrom x l i last = i + Z.of_nat n ∧
     l !! n = Some x ∧ ∀ j : nat, (n < j)%nat → l !! j ≠ Some x).
Proof.
  revert i last. induction l as [|y l IH]; intros i last; simpl.
  - left. split; [done | apply not_elem_of_nil].
  - destruct (decide (y = x)) as [->|Hne].
    + destruct (IH (i + 1) i) as [[Hr Hnot]|(n & Hr & Hn & Hgt)].
      * right. exists 0%nat. split; [lia|]. split; [done|].
        intros [|j] Hj; [lia|]. simpl. intros Hj'.
        apply Hnot. eapply list_elem_of_lookup_2. exact Hj'.
      * right. exists (S n). split; [lia|]. split; [done|].
        intros [|j] Hj; [lia|]. simpl. apply Hgt. lia.
    + destruct (IH (i + 1) last) as [[Hr Hnot]|(n & Hr & Hn & Hgt)].
      * left. split; [done|]. rewrite not_elem_of_cons. auto.
      * right. exists (S n). split; [lia|]. split; [done|].
        intros [|j] Hj; [lia|]. simpl. apply Hgt. lia.
Qed.

Lemma indexOf_spec (l : list string) (x : string) :
  (Js.indexOf l x = -1 ∧ x ∉ l) ∨ firstOccurrence x l (Js.indexOf l x).
Proof.
  unfold Js.indexOf, firstOccurrence.
  destruct (indexOfFrom_cases x l 0) as [?|(n & -> & Hn & Hlt)]; [by left|].
  right. rewrite Z.add_0_l, Nat2Z.id. split; [lia|]. done.
Qed.

Lemma lastIndexOf_spec (l : list string) (x : string) :
  (Js.lastIndexOf l x = -1 ∧ x ∉ l) ∨ lastOccurrence x l (Js.lastIndexOf l x).
Proof.
  unfold Js.lastIndexOf, lastOccurrence.
  destruct (lastIndexOfFrom_cases x l 0 (-1)) as [?|(n & -> & Hn & Hgt)];
    [by left|].
  right. rewrite Z.add_0_l, Nat2Z.id. split; [lia|]. done.
Qed.

Lemma occurrence_lt_len (x : string) (l : list string) (i : Z) :
  0 ≤ i → l !! Z.to_nat i = Some x → i < Js.len l.
Proof.
  intros Hi Hl. apply lookup_lt_Some in Hl. unfold Js.len. lia.
Qed.

(** [slice] between two indices inside the array. *)
Lemma slice_inclusive (l : list string) s e :
  0 ≤ s → s < e → e < Js.len l →
  inclusiveSlice l (Js.slice l s (e + 1)) s e.
Proof.
  intros Hs Hse He. unfold inclusiveSlice, Js.slice, Js.clampIndex, Js.len in *.
  destruct (Z.ltb_spec s 0); [lia|]. destruct (Z.ltb_spec (e + 1) 0); [lia|].
  rewrite !Z.min_l by lia.
  assert (Hlen : length (take (Z.to_nat (e + 1 - s)) (drop (Z.to_nat s) l))
                 = Z.to_nat (e + 1 - s)).
  { rewrite length_take, length_drop. lia. }
  split; [rewrite Hlen; lia|].
  intros k Hk. rewrite Hlen in Hk.
  rewrite lookup_take_lt by lia. by rewrite lookup_drop.
Qed.

(* ------------------------------------------------------------------ *)
(** ** Path extraction *)
(* ------------------------------------------------------------------ *)

Lemma resolveStartIndex_spec (startId : string) (path : list string) :
  if decide (startId = START_NODE)
  then Routing.resolveStartIndex startId path = 0
  else (Routing.resolveStartIndex startId path = -1 ∧ startId ∉ path) ∨
       firstOccurrence startId path (Routing.resolveStartIndex startId path).
Proof.
  unfold Routing.resolveStartIndex. case_decide; [done | apply indexOf_spec].
Qed.

Lemma resolveEndIndex_spec (endId : string) (path : list string) :
  if decide (endId = END_NODE)
  then Routing.resolveEndIndex endId path = Js.len path - 1
  else (Routing.resolveEndIndex endId path = -1 ∧ endId ∉ path) ∨
       lastOccurrence endId path (Routing.resolveEndIndex endId path).
Proof.
  unfold Routing.resolveEndIndex. case_decide; [done | apply lastIndexOf_spec].
Qed.

(** A variant that is kept has its window inside the trace. *)
Lemma kept_window_bounds (startId endId : string) (path : list string) :
  let startIdx := Routing.resolveStartIndex startId path in
  let endIdx := Routing.resolveEndIndex endId path in
  ¬ discarded startIdx endIdx →
  0 ≤ startIdx ∧ startIdx < endIdx ∧ endIdx < Js.len path.
Proof.
  intros startIdx endIdx Hkeep. unfold discarded in Hkeep.
  assert (Hs := resolveStartIndex_spec startId path).
  assert (He := resolveEndIndex_spec endId path).
  fold startIdx in Hs. fold endIdx in He.
  assert (0 ≤ startIdx) as H0.
  { destruct (decide (startId = START_NODE)); [lia|].
    destruct Hs as [[? _]|(? & _)]; [tauto | done]. }
  split; [done|]. split; [lia|].
  destruct (decide (endId = END_NODE)); [lia|].
  destruct He as [[? _]|(? & Hl & _)]; [tauto|].
  by eapply occurrence_lt_len.
Qed.

Lemma extractVariant_cases (startId endId : string) (variant : Variant) :
  let path := Variant_Path variant in
  let startIdx := Routing.resolveStartIndex startId path in
  let endIdx := Routing.resolveEndIndex endId path in
  match Routing.extractVariant startId endId variant with
  | None => discarded startIdx endIdx
  | Some p =>
      ¬ discarded startIdx endIdx ∧
      nodes p = Js.slice path startIdx (endIdx + 1) ∧
      frequency p = Frequency variant ∧
      _startIndex p = Some startIdx ∧ _endIndex p = Some endIdx ∧
      _pathType p =
        Some (if decide (startIdx = 0 ∧ endIdx = Js.len path - 1)
              then absolute else relative)
  end.
Proof.
  intros path startIdx endIdx. unfold Routing.extractVariant.
  fold path. fold startIdx. fold endIdx. unfold discarded.
  destruct (decide (startIdx = -1)) as [|Hs]; [by left|].
  destruct (decide (endIdx = -1 ∨ endIdx ≤ startIdx)) as [|He]; [tauto|].
  assert (¬ (startIdx = -1 ∨ endIdx = -1 ∨ endIdx ≤ startIdx)) by tauto.
  destruct (decide (0 < Js.len (Avg_Timings variant))); simpl;
    repeat split; try done;
    rewrite bool_decide_decide; by destruct (decide _).
Qed.

Lemma clickCandidate_cases (startId endId : string) (variant : Variant) :
  let path := Variant_Path variant in
  let startIdx := Routing.resolveStartIndex startId path in
  let endIdx := Routing.resolveEndIndex endId path in
  match Store.clickCandidate startId endId variant with
  | None => discarded startIdx endIdx
  | Some p =>
      ¬ discarded startIdx endIdx ∧
      nodes p = Js.slice path startIdx (endIdx + 1) ∧
      _startIndex p = Some startIdx ∧ _endIndex p = Some endIdx ∧
      _pathType p =
        Some (if decide (startIdx = 0 ∧ endIdx = Js.len path - 1)
              then absolute else relative)
  end.
Proof.
  intros path startIdx endIdx.
  unfold Store.clickCandidate, discarded.
  subst startIdx endIdx path.
  unfold Routing.resolveStartIndex, Routing.resolveEndIndex.
  repeat case_decide; simpl; repeat split; try done; try lia; tauto.
Qed.

(** C3. For every variant and every query, the extractor (in
    [findPathsBetweenNodes] and in [handleNodeClick]) takes as start index
    the first occurrence of the start id (0 for the START sentinel) and as
    end index the last occurrence of the end id (length - 1 for the END
    sentinel); it discards the variant exactly when an index is missing or
    the end index is not after the start index; otherwise its nodes are the
    inclusive slice between the two indices and the path is absolute iff
    the slice is the whole trace. For the trace A, B, A, C queried from A
    to C the start index is 0 and the slice is the entire trace. *)
Theorem C3_extractor_window (startId endId : string) (variant : Variant) :
  let path := Variant_Path variant in
  let startIdx := Routing.resolveStartIndex startId path in
  let endIdx := Routing.resolveEndIndex endId path in
  (if decide (startId = START_NODE) then startIdx = 0
   else (startIdx = -1 ∧ startId ∉ path) ∨
        firstOccurrence startId path startIdx) ∧
  (if decide (endId = END_NODE) then endIdx = Js.len path - 1
   else (endIdx = -1 ∧ endId ∉ path) ∨ lastOccurrence endId path endIdx) ∧
  match Routing.extractVariant startId endId variant with
  | None => discarded startIdx endIdx
  | Some p =>
      ¬ discarded startIdx endIdx ∧
      inclusiveSlice path (nodes p) startIdx endIdx ∧
      _startIndex p = Some startIdx ∧ _endIndex p = Some endIdx ∧
      _pathType p =
        Some (if decide (startIdx = 0 ∧ endIdx = Js.len path - 1)
              then absolute else relative)
  end ∧
  match Store.clickCandidate startId endId variant with
  | None => discarded startIdx endIdx
  | Some p =>
      ¬ discarded startIdx endIdx ∧
      inclusiveSlice path (nodes p) startIdx endIdx ∧
      _startIndex p = Some startIdx ∧ _endIndex p = Some endIdx ∧
      _pathType p =
        Some (if decide (startIdx = 0 ∧ endIdx = Js.len path - 1)
              then absolute else relative)
  end ∧
  ∀ (f : option N) (avg tot : list Q) (pct : Q),
    let trace := {| Variant_Path := ["A"; "B"; "A"; "C"]; Frequency := f;
                    Avg_Timings := avg; Total_Timings := tot;
                    Percentage := pct |} in
    Routing.resolveStartIndex "A" (Variant_Path trace) = 0 ∧
    Routing.resolveEndIndex "C" (Variant_Path trace) = 3 ∧
    (nodes <$> Routing.extractVariant "A" "C" trace)
      = Some ["A"; "B"; "A"; "C"] ∧
    (_pathType <$> Routing.extractVariant "A" "C" trace)
      = Some (Some absolute).
Proof.
  intros path startIdx endIdx.
  split; [apply resolveStartIndex_spec|].
  split; [apply resolveEndIndex_spec|].
  split; [|split].
  - pose proof (extractVariant_cases startId endId variant) as H.
    simpl in H. fold path startIdx endIdx in H.
    destruct (Routing.extractVariant startId endId variant) as [p|]; [|done].
    destruct H as (Hk & Hn & _ & Hs & He & Ht).
    repeat split; try done.
    + rewrite Hn. pose proof (kept_window_bounds startId endId path Hk)
        as (? & ? & ?). apply slice_inclusive; done.
    + rewrite Hn. pose proof (kept_window_bounds startId endId path Hk)
        as (? & ? & ?). apply slice_inclusive; done.
  - pose proof (clickCandidate_cases startId endId variant) as H.
    simpl in H. fold path startIdx endIdx in H.
    destruct (Store.clickCandidate startId endId variant) as [p|]; [|done].
    destruct H as (Hk & Hn & Hs & He & Ht).
    repeat split; try done.
    + rewrite Hn. pose proof (kept_window_bounds startId endId path Hk)
        as (? & ? & ?). apply slice_inclusive; done.
    + rewrite Hn. pose proof (kept_window_bounds startId endId path Hk)
        as (? & ? & ?). apply slice_inclusive; done.
  - intros f avg tot pct trace. subst trace.
    split; [done|]. split; [done|].
    unfold Routing.extractVariant. simpl.
    destruct (decide (0 < Js.len avg)); done.
Qed.

(* ------------------------------------------------------------------ *)
(** ** Clamped edge durations *)
(* ------------------------------------------------------------------ *)

Lemma max0_nonneg (x : Q) : (0 <= Js.max0 x)%Q.
Proof. apply Q.le_max_l. Qed.

Lemma max0_of_neg (x : Q) : (x < 0)%Q → Js.max0 x = 0%Q.
Proof.
  intros Hx. unfold Js.max0, Qmax, GenericMinMax.gmax.
  destruct (0 ?= x)%Q eqn:E; try done.
  apply Qlt_alt in E. exfalso. eapply Qlt_irrefl, Qlt_trans; eauto.
Qed.

Lemma max0_of_decrease (cur next : Q) :
  (next < cur)%Q → Js.max0 (next - cur) = 0%Q.
Proof.
  intros H. apply max0_of_neg. apply (Qplus_lt_l _ _ cur). ring_simplify. done.
Qed.

Lemma occurrenceStep_total timings startIndex st idx :
  (Store.oc_totalDuration st
   <= Store.oc_totalDuration (Store.occurrenceStep timings startIndex st idx))%Q.
Proof.
  unfold Store.occurrenceStep.
  destruct (Js.at_ timings (startIndex + idx)) as [a|]; [|apply Qle_refl].
  destruct (Js.at_ timings (startIndex + idx + 1)) as [b|]; [|apply Qle_refl].
  simpl. rewrite <- (Qplus_0_r (Store.oc_totalDuration st)) at 1.
  apply Qplus_le_r, max0_nonneg.
Qed.

Lemma sumOccurrences_from_nonneg timings startIndex indices st :
  (0 <= Store.oc_totalDuration st)%Q →
  (0 <= Store.oc_totalDuration
          (fold_left (Store.occurrenceStep timings startIndex) indices st))%Q.
Proof.
  revert st. induction indices as [|idx indices IH]; intros st H; [done|].
  simpl. apply IH. eapply Qle_trans; [exact H | apply occurrenceStep_total].
Qed.

Lemma max0_of_nonneg (x : Q) : (0 <= x)%Q → (Js.max0 x == x)%Q.
Proof. intros H. unfold Js.max0. by apply Q.max_r. Qed.

Lemma max0_of_le (cur next : Q) :
  (cur <= next)%Q → (Js.max0 (next - cur) == next - cur)%Q.
Proof.
  intros H. apply max0_of_nonneg. apply -> Qle_minus_iff. exact H.
Qed.

(** *** What the timing loop records *)

Lemma filter_ext_elem {A} (P1 P2 : A → Prop)
    `{!∀ x, Decision (P1 x), !∀ x, Decision (P2 x)} (l : list A) :
  (∀ x, x ∈ l → P1 x ↔ P2 x) → filter P1 l = filter P2 l.
Proof.
  induction l as [|x l IH]; intros Hext; [done|].
  rewrite !filter_cons, IH by (intros; apply Hext; by right).
  pose proof (Hext x ltac:(left)) as Hx.
  destruct (decide (P1 x)), (decide (P2 x)); tauto || done.
Qed.

Lemma sumQ_cons (x : Q) (l : list Q) : sumQ (x :: l) = (x + sumQ l)%Q.
Proof. reflexivity. Qed.

(** The index at which the timing loop stops. *)
Lemma timingLoopFrom_stop variant remaining i :
  let stop :=
    Z.max i (Z.min (i + Z.of_nat remaining) (Js.len (Avg_Timings variant) - 1)) in
  i ≤ stop ∧
  filter (λ j, j + 1 < Js.len (Avg_Timings variant))
    (seqZ i (Z.of_nat remaining))
  = seqZ i (stop - i).
Proof.
  revert i. induction remaining as [|r IH]; intros i stop; subst stop.
  - split; [lia|]. rewrite !seqZ_nil by lia. done.
  - split; [lia|]. rewrite seqZ_cons by lia.
    rewrite filter_cons.
    replace (Z.pred (Z.of_nat (S r))) with (Z.of_nat r) by lia.
    destruct (IH (Z.succ i)) as [Hle Hf]. rewrite Hf. clear Hf.
    destruct (decide (i + 1 < Js.len (Avg_Timings variant))) as [Hlt|Hge].
    + rewrite (seqZ_cons i) by lia. f_equal. f_equal. lia.
    + rewrite !seqZ_nil by lia. done.
Qed.

Lemma last_filter_cons {A} (P : A → Prop) `{!∀ x, Decision (P x)} x (l : list A) :
  last (filter P (x :: l))
  = match last (filter P l) with
    | Some y => Some y
    | None => if decide (P x) then Some x else None
    end.
Proof.
  rewrite filter_cons. destruct (decide (P x)); [|by destruct (last _)].
  rewrite last_cons. by destruct (last _).
Qed.

Lemma timingLoopFrom_spec variant remaining i st :
  let stop :=
    Z.max i (Z.min (i + Z.of_nat remaining) (Js.len (Avg_Timings variant) - 1)) in
  let r := Routing.timingLoopFrom variant remaining i st in
  (Routing.tm_totalDuration r
   == Routing.tm_totalDuration st
      + sumQ (Routing.avgDurationAt variant <$> seqZ i (stop - i)))%Q ∧
  (∀ e, Routing.tm_edgeDurations r !! e
        = match last (filter (λ j, edgeAt variant j = e) (seqZ i (stop - i))) with
          | Some j => Some (Routing.avgDurationAt variant j)
          | None => Routing.tm_edgeDurations st !! e
          end) ∧
  (∀ e, Routing.tm_edgeTotalDurations r !! e
        = match last (filter (λ j, edgeAt variant j = e) (seqZ i (stop - i))) with
          | Some j => Some (Routing.totalTimingDurationAt variant j)
          | None => Routing.tm_edgeTotalDurations st !! e
          end).
Proof.
  revert i st. induction remaining as [|r IH]; intros i st stop res;
    subst stop res.
  - rewrite seqZ_nil by lia. simpl. split; [unfold sumQ; simpl; ring|]. done.
  - simpl. destruct (decide (i + 1 < Js.len (Avg_Timings variant))) as [Hlt|Hge].
    + destruct (IH (i + 1) (Routing.timingStep variant st i)) as (Ht & Ha & Hb).
      replace (Z.max (i + 1)
                 (Z.min (i + 1 + Z.of_nat r) (Js.len (Avg_Timings variant) - 1)))
        with (Z.max i (Z.min (i + Z.of_nat (S r))
                         (Js.len (Avg_Timings variant) - 1))) in Ht, Ha, Hb by lia.
      set (stop := Z.max i (Z.min (i + Z.of_nat (S r))
                              (Js.len (Avg_Timings variant) - 1))) in *.
      assert (seqZ i (stop - i) = i :: seqZ (i + 1) (stop - (i + 1))) as Hseq.
      { rewrite seqZ_cons by lia. f_equal. f_equal; lia. }
      rewrite Hseq. split; [|split].
      * rewrite Ht, fmap_cons, sumQ_cons.
        change (Routing.tm_totalDuration (Routing.timingStep variant st i))
          with (Routing.tm_totalDuration st + Routing.avgDurationAt variant i)%Q.
        ring.
      * intros e. rewrite Ha, last_filter_cons.
        destruct (last _); [done|]. simpl.
        unfold edgeAt.
        destruct (decide (_ = e)) as [<-|Hne].
        -- by rewrite lookup_insert_eq.
        -- by rewrite lookup_insert_ne.
      * intros e. rewrite Hb, last_filter_cons.
        destruct (last _); [done|]. simpl.
        unfold edgeAt.
        destruct (decide (_ = e)) as [<-|Hne].
        -- by rewrite lookup_insert_eq.
        -- by rewrite lookup_insert_ne.
    + rewrite seqZ_nil by lia. simpl. split; [unfold sumQ; simpl; ring|]. done.
Qed.

Lemma passesOf_stop variant lo hi e :
  lo ≤ hi →
  passesOf variant lo hi e
  = filter (λ j, edgeAt variant j = e)
      (seqZ lo (Z.max lo (Z.min hi (Js.len (Avg_Timings variant) - 1)) - lo)).
Proof.
  intros Hle. unfold passesOf.
  destruct (timingLoopFrom_stop variant (Z.to_nat (hi - lo)) lo) as [_ Hf].
  rewrite Z2Nat.id in Hf by lia.
  replace (lo + (hi - lo)) with hi in Hf by lia.
  rewrite <- Hf. rewrite list_filter_filter. apply filter_ext_elem. tauto.
Qed.

Lemma timingLoop_spec variant lo hi :
  lo ≤ hi →
  let r := Routing.timingLoop variant lo hi in
  (Routing.tm_totalDuration r
   == sumQ (Routing.avgDurationAt variant
              <$> filter (λ j : Z, (j + 1 < Js.len (Avg_Timings variant))%Z)
                    (seqZ lo (hi - lo)%Z)))%Q ∧
  (∀ e, Routing.tm_edgeDurations r !! e
        = Routing.avgDurationAt variant <$> last (passesOf variant lo hi e)) ∧
  (∀ e, Routing.tm_edgeTotalDurations r !! e
        = Routing.totalTimingDurationAt variant
            <$> last (passesOf variant lo hi e)).
Proof.
  intros Hle r. subst r. unfold Routing.timingLoop.
  destruct (timingLoopFrom_spec variant (Z.to_nat (hi - lo)) lo
              {| Routing.tm_totalDuration := 0; Routing.tm_edgeDurations := ∅;
                 Routing.tm_edgeTotalDurations := ∅ |}) as (Ht & Ha & Hb).
  destruct (timingLoopFrom_stop variant (Z.to_nat (hi - lo)) lo) as [_ Hf].
  rewrite Z2Nat.id in Ht, Ha, Hb, Hf by lia.
  replace (lo + (hi - lo)) with hi in Ht, Ha, Hb, Hf by lia.
  split; [|split].
  - rewrite Ht, Hf. simpl. ring.
  - intros e. rewrite Ha, passesOf_stop by done. simpl.
    by destruct (last _).
  - intros e. rewrite Hb, passesOf_stop by done. simpl.
    by destruct (last _).
Qed.

Lemma filter_none {A} (P : A → Prop) `{!∀ x, Decision (P x)} (l : list A) :
  Forall (λ x, ¬ P x) l → filter P l = [].
Proof.
  induction 1 as [|x l Hx Hl IH]; [done|].
  rewrite filter_cons. destruct (decide (P x)); [done | by rewrite IH].
Qed.

Lemma extractVariant_timings startId endId variant p :
  Routing.extractVariant startId endId variant = Some p →
  let lo := Routing.resolveStartIndex startId (Variant_Path variant) in
  let hi := Routing.resolveEndIndex endId (Variant_Path variant) in
  (if decide (0 < Js.len (Avg_Timings variant))
   then totalDuration p = Some (Routing.tm_totalDuration (Routing.timingLoop variant lo hi))
   else totalDuration p = Some 0%Q) ∧
  (∀ e, lookupIn (_specificEdgeDurations p) e
        = if decide (0 < Js.len (Avg_Timings variant))
          then Routing.tm_edgeDurations (Routing.timingLoop variant lo hi) !! e
          else None) ∧
  (∀ e, lookupIn (_specificTotalDurations p) e
        = if decide (0 < Js.len (Avg_Timings variant))
          then Routing.tm_edgeTotalDurations (Routing.timingLoop variant lo hi) !! e
          else None).
Proof.
  intros H lo hi. unfold Routing.extractVariant in H. fold lo hi in H.
  destruct (decide (lo = -1)); [done|].
  destruct (decide (hi = -1 ∨ hi ≤ lo)); [done|].
  destruct (decide (0 < Js.len (Avg_Timings variant)));
    injection H as <-; done.
Qed.

Lemma passesOf_elem variant lo hi e i :
  i ∈ passesOf variant lo hi e ↔
  lo ≤ i < hi ∧ i + 1 < Js.len (Avg_Timings variant) ∧ edgeAt variant i = e.
Proof.
  unfold passesOf. rewrite list_elem_of_filter, elem_of_seqZ.
  split; [intros [[? ?] ?] | intros (? & ? & ?)]; repeat split; try done; lia.
Qed.

Lemma last_elem {A} (l : list A) (x : A) : last l = Some x → x ∈ l.
Proof.
  rewrite last_lookup. apply list_elem_of_lookup_2.
Qed.

Lemma last_of_elem {A} (l : list A) (x : A) : x ∈ l → is_Some (last l).
Proof.
  intros Hx. destruct l as [|y l] using rev_ind.
  - by apply elem_of_nil in Hx.
  - rewrite last_snoc. by eexists.
Qed.

Lemma last_filter_seqZ_ge (P : Z → Prop) `{!∀ x, Decision (P x)}
    (lo : Z) (n : nat) (i j : Z) :
  last (filter P (seqZ lo (Z.of_nat n))) = Some j →
  i ∈ filter P (seqZ lo (Z.of_nat n)) → i ≤ j.
Proof.
  induction n as [|n IH].
  - rewrite seqZ_nil by lia. intros _ Hi. by apply elem_of_nil in Hi.
  - rewrite seqZ_S, filter_app, filter_cons, filter_nil.
    destruct (decide (P (lo + Z.of_nat n))).
    + rewrite last_snoc. intros [= <-].
      intros [Hi|Hi%list_elem_of_singleton]%elem_of_app; [|lia].
      apply list_elem_of_filter in Hi as [_ Hi%elem_of_seqZ]. lia.
    + rewrite app_nil_r. exact IH.
Qed.

(** *** The occurrences summed by [calculateEdgeOverride] *)

Lemma occurrenceStep_timed timings startIndex st idx :
  Store.occurrenceStep timings startIndex st idx
  = if decide (timed timings startIndex idx)
    then {| Store.oc_totalDuration :=
              (Store.oc_totalDuration st
               + clampedDelta timings startIndex idx)%Q;
            Store.oc_count := (Store.oc_count st + 1)%N |}
    else st.
Proof.
  unfold Store.occurrenceStep, clampedDelta.
  destruct (decide (timed timings startIndex idx)) as [[[a Ha] [b Hb]]|Hn].
  - by rewrite Ha, Hb.
  - destruct (Js.at_ timings (startIndex + idx)) as [a|] eqn:Ha; [|done].
    destruct (Js.at_ timings (startIndex + idx + 1)) as [b|] eqn:Hb; [|done].
    exfalso. apply Hn. unfold timed. rewrite Ha, Hb. split; by eexists.
Qed.

Lemma sumOccurrences_in_order timings startIndex indices st :
  Store.oc_totalDuration
    (fold_left (Store.occurrenceStep timings startIndex) indices st)
  = fold_left Qplus
      (clampedDelta timings startIndex
         <$> filter (timed timings startIndex) indices)
      (Store.oc_totalDuration st).
Proof.
  revert st. induction indices as [|idx indices IH]; intros st; [done|].
  simpl. rewrite IH, occurrenceStep_timed, filter_cons.
  by destruct (decide (timed timings startIndex idx)).
Qed.

(** C7. The per-edge duration derived at an index of the window is the
    difference of the cumulative timings clamped at zero: it is 0 whenever
    the next timing is smaller than the current one, it is the difference
    itself whenever the timings do not decrease, and it is never negative,
    for the average and for the total timings. An extracted path records
    under every edge id the clamped difference of the last step of the
    window that traverses this edge and has both timestamps: every such
    step of the window has its edge recorded, by itself or by a later
    step over the same edge, and every record is the clamped difference of
    a step of its own edge inside the window. The deltas summed by
    [calculateEdgeOverride] are clamped the same way: an occurrence with
    both timestamps is counted and adds 0 when the timestamps decrease and
    their difference otherwise, and the total is the sum, in the order of
    the occurrences, of these clamped differences. *)
Theorem C7_edge_duration_clamped (startId endId : string) (variant : Variant) :
  (∀ i : Z,
     let cur := default 0%Q (Js.at_ (Avg_Timings variant) i) in
     let next := default 0%Q (Js.at_ (Avg_Timings variant) (i + 1)) in
     ((next < cur)%Q → Routing.avgDurationAt variant i = 0%Q) ∧
     ((cur <= next)%Q → (Routing.avgDurationAt variant i == next - cur)%Q) ∧
     (0 <= Routing.avgDurationAt variant i)%Q) ∧
  (∀ i : Z,
     let cur := default 0%Q (Js.at_ (Total_Timings variant) i) in
     let next := default 0%Q (Js.at_ (Total_Timings variant) (i + 1)) in
     ((next < cur)%Q → Routing.totalTimingDurationAt variant i = 0%Q) ∧
     ((cur <= next)%Q →
      (Routing.totalTimingDurationAt variant i == next - cur)%Q) ∧
     (0 <= Routing.totalTimingDurationAt variant i)%Q) ∧
  (∀ p : ExtendedPath,
     Routing.extractVariant startId endId variant = Some p →
     let lo := Routing.resolveStartIndex startId (Variant_Path variant) in
     let hi := Routing.resolveEndIndex endId (Variant_Path variant) in
     (∀ e, lookupIn (_specificEdgeDurations p) e
           = Routing.avgDurationAt variant <$> last (passesOf variant lo hi e)) ∧
     (∀ e, lookupIn (_specificTotalDurations p) e
           = Routing.totalTimingDurationAt variant
               <$> last (passesOf variant lo hi e)) ∧
     (∀ i, lo ≤ i < hi → i + 1 < Js.len (Avg_Timings variant) →
        ∃ j, i ≤ j < hi ∧ edgeAt variant j = edgeAt variant i ∧
          lookupIn (_specificEdgeDurations p) (edgeAt variant i)
          = Some (Routing.avgDurationAt variant j) ∧
          lookupIn (_specificTotalDurations p) (edgeAt variant i)
          = Some (Routing.totalTimingDurationAt variant j)) ∧
     (∀ e d, lookupIn (_specificEdgeDurations p) e = Some d →
        (0 <= d)%Q ∧
        ∃ i, lo ≤ i < hi ∧ edgeAt variant i = e ∧
             d = Routing.avgDurationAt variant i) ∧
     (∀ e d, lookupIn (_specificTotalDurations p) e = Some d →
        (0 <= d)%Q ∧
        ∃ i, lo ≤ i < hi ∧ edgeAt variant i = e ∧
             d = Routing.totalTimingDurationAt variant i)) ∧
  (∀ (timings : list Q) (startIndex idx : Z) (st : Store.Occurrences)
     (a b : Q),
     Js.at_ timings (startIndex + idx) = Some a →
     Js.at_ timings (startIndex + idx + 1) = Some b →
     let st' := Store.occurrenceStep timings startIndex st idx in
     Store.oc_count st' = (Store.oc_count st + 1)%N ∧
     ((b < a)%Q →
      Store.oc_totalDuration st' = (Store.oc_totalDuration st + 0)%Q) ∧
     ((a <= b)%Q →
      (Store.oc_totalDuration st' == Store.oc_totalDuration st + (b - a))%Q)) ∧
  (∀ (timings : list Q) (startIndex : Z) (indices : list Z),
     (0 <= Store.oc_totalDuration
             (Store.sumOccurrences timings startIndex indices))%Q ∧
     Store.oc_totalDuration (Store.sumOccurrences timings startIndex indices)
     = fold_left Qplus
         (clampedDelta timings startIndex
            <$> filter (timed timings startIndex) indices) 0%Q).
Proof.
  split; [|split; [|split; [|split]]].
  - intros i cur next. split; [|split].
    + apply max0_of_decrease.
    + apply max0_of_le.
    + apply max0_nonneg.
  - intros i cur next. split; [|split].
    + apply max0_of_decrease.
    + apply max0_of_le.
    + apply max0_nonneg.
  - intros p H lo hi.
    destruct (extractVariant_timings _ _ _ _ H) as (_ & Ha & Hb).
    fold lo hi in Ha, Hb.
    pose proof (extractVariant_cases startId endId variant) as Hc.
    simpl in Hc. rewrite H in Hc. destruct Hc as (Hq & _).
    destruct (kept_window_bounds _ _ _ Hq) as (H0 & Hlt & _).
    fold lo hi in H0, Hlt.
    assert (∀ e, lookupIn (_specificEdgeDurations p) e
                 = Routing.avgDurationAt variant
                     <$> last (passesOf variant lo hi e)) as Havg.
    { intros e. rewrite Ha.
      destruct (decide (0 < Js.len (Avg_Timings variant))) as [Hlen|Hlen].
      - destruct (timingLoop_spec variant lo hi) as (_ & Hd & _); [lia|].
        apply Hd.
      - assert (passesOf variant lo hi e = []) as ->; [|done].
        apply filter_none. apply Forall_forall. intros i Hi%elem_of_seqZ. lia. }
    assert (∀ e, lookupIn (_specificTotalDurations p) e
                 = Routing.totalTimingDurationAt variant
                     <$> last (passesOf variant lo hi e)) as Htot.
    { intros e. rewrite Hb.
      destruct (decide (0 < Js.len (Avg_Timings variant))) as [Hlen|Hlen].
      - destruct (timingLoop_spec variant lo hi) as (_ & _ & Hd); [lia|].
        apply Hd.
      - assert (passesOf variant lo hi e = []) as ->; [|done].
        apply filter_none. apply Forall_forall. intros i Hi%elem_of_seqZ. lia. }
    split; [exact Havg|]. split; [exact Htot|]. split; [|split].
    + intros i Hi Htimed.
      assert (i ∈ passesOf variant lo hi (edgeAt variant i)) as Hin
        by (apply passesOf_elem; done).
      destruct (last_of_elem _ _ Hin) as [j Hj].
      pose proof (last_elem _ _ Hj) as Hjin.
      apply passesOf_elem in Hjin as (Hjw & _ & Hje).
      exists j. rewrite Havg, Htot, Hj. repeat split; try done; try lia.
      eapply (last_filter_seqZ_ge _ lo (Z.to_nat (hi - lo))).
      * rewrite Z2Nat.id by lia. exact Hj.
      * rewrite Z2Nat.id by lia. exact Hin.
    + intros e d Hl. rewrite Havg in Hl.
      destruct (last _) as [i|] eqn:Hlast; [|done].
      injection Hl as <-. split; [apply max0_nonneg|].
      apply last_elem, passesOf_elem in Hlast as (? & _ & ?). by exists i.
    + intros e d Hl. rewrite Htot in Hl.
      destruct (last _) as [i|] eqn:Hlast; [|done].
      injection Hl as <-. split; [apply max0_nonneg|].
      apply last_elem, passesOf_elem in Hlast as (? & _ & ?). by exists i.
  - intros timings startIndex idx st a b Ha Hb st'. subst st'.
    unfold Store.occurrenceStep. rewrite Ha, Hb. simpl.
    split; [done|]. split; intros Hab.
    + by rewrite max0_of_decrease.
    + by rewrite max0_of_le.
  - intros timings startIndex indices. unfold Store.sumOccurrences. split.
    + apply sumOccurrences_from_nonneg. simpl. apply Qle_refl.
    + apply sumOccurrences_in_order.
Qed.

Lemma C7_edge_duration_clamped_witness :
  ∃ p, Routing.extractVariant "A" "C" noisyVariant = Some p ∧
       lookupIn (_specificEdgeDurations p) "A->B" = Some 5%Q ∧
       lookupIn (_specificEdgeDurations p) "B->C" = Some 0%Q ∧
       lookupIn (_specificTotalDurations p) "B->C" = Some 0%Q.
Proof.
  eexists. split; [reflexivity|].
  destruct (C7_edge_duration_clamped "A" "C" noisyVariant)
    as (_ & _ & H & _).
  destruct (H _ eq_refl) as (Ha & Hb & _).
  split; [|split].
  - refine (eq_trans (Ha "A->B") _). vm_compute. reflexivity.
  - refine (eq_trans (Ha "B->C") _). vm_compute. reflexivity.
  - refine (eq_trans (Hb "B->C") _). vm_compute. reflexivity.
Defined.

(* ------------------------------------------------------------------ *)
(** ** Insertion-ordered maps and per-edge objects *)
(* ------------------------------------------------------------------ *)

Section JsMapFacts.
Context {V : Type}.
Implicit Types (m : JsMap.t V) (k : string) (v : V).

Lemma JsMap_get_set_eq k v m : JsMap.get k (JsMap.set k v m) = Some v.
Proof.
  induction m as [|[k' v'] m IH]; simpl.
  - by rewrite decide_True.
  - destruct (decide (k' = k)) as [->|Hne]; simpl.
    + by rewrite decide_True.
    + by rewrite decide_False.
Qed.

Lemma JsMap_get_set_ne k k' v m :
  k ≠ k' → JsMap.get k' (JsMap.set k v m) = JsMap.get k' m.
Proof.
  intros Hne. induction m as [|[k0 v0] m IH]; simpl.
  - by rewrite decide_False.
  - destruct (decide (k0 = k)) as [->|Hne0]; simpl.
    + by rewrite !decide_False.
    + by rewrite IH.
Qed.

Lemma JsMap_get_None k m : JsMap.get k m = None ↔ k ∉ JsMap.keys m.
Proof.
  unfold JsMap.keys. induction m as [|[k' v'] m IH]; simpl.
  - split; [intros _; apply not_elem_of_nil | done].
  - rewrite not_elem_of_cons. destruct (decide (k' = k)) as [->|Hne].
    + split; [done | tauto].
    + rewrite IH. split; [intros; split; [congruence | done] | tauto].
Qed.

Lemma JsMap_get_Some_elem k v m : JsMap.get k m = Some v → (k, v) ∈ m.
Proof.
  induction m as [|[k' v'] m IH]; simpl; [done|].
  destruct (decide (k' = k)) as [->|Hne].
  - intros [= ->]. left.
  - intros H. right. by apply IH.
Qed.

Lemma JsMap_elem_get k v m :
  NoDup (JsMap.keys m) → (k, v) ∈ m → JsMap.get k m = Some v.
Proof.
  unfold JsMap.keys. induction m as [|[k' v'] m IH]; simpl.
  - intros _ H. by apply elem_of_nil in H.
  - intros Hnd Hin. apply NoDup_cons in Hnd as [Hk' Hnd].
    apply elem_of_cons in Hin as [[= <- <-]|Hin].
    + by rewrite decide_True.
    + destruct (decide (k' = k)) as [->|Hne]; [|by apply IH].
      exfalso. apply Hk'. apply list_elem_of_fmap. by exists (k, v).
Qed.

Lemma JsMap_keys_set k v m :
  JsMap.keys (JsMap.set k v m)
  = if JsMap.has k m then JsMap.keys m else JsMap.keys m ++ [k].
Proof.
  unfold JsMap.keys, JsMap.has. induction m as [|[k' v'] m IH]; csimpl; [done|].
  destruct (decide (k' = k)) as [->|Hne]; csimpl; [done|].
  rewrite IH. by destruct (JsMap.get k m).
Qed.

Lemma JsMap_NoDup_set k v m :
  NoDup (JsMap.keys m) → NoDup (JsMap.keys (JsMap.set k v m)).
Proof.
  intros Hnd. rewrite JsMap_keys_set. unfold JsMap.has.
  destruct (JsMap.get k m) eqn:E; [done|].
  apply JsMap_get_None in E. apply NoDup_app. split; [done|].
  split; [|apply NoDup_singleton].
  intros x Hx Hx'. apply list_elem_of_singleton in Hx'. by subst.
Qed.

(** [set] on an absent key appends the value. *)
Lemma JsMap_values_set_new k v m :
  JsMap.get k m = None → JsMap.values (JsMap.set k v m) = JsMap.values m ++ [v].
Proof.
  unfold JsMap.values. induction m as [|[k' v'] m IH]; csimpl; [done|].
  destruct (decide (k' = k)); [done|]. intros H. csimpl. by rewrite IH.
Qed.

(** [set] on a present key replaces one value. *)
Lemma JsMap_values_set_old k v v0 m :
  JsMap.get k m = Some v0 →
  ∃ before after, JsMap.values m = before ++ v0 :: after ∧
                  JsMap.values (JsMap.set k v m) = before ++ v :: after.
Proof.
  unfold JsMap.values. induction m as [|[k' v'] m IH]; csimpl; [done|].
  destruct (decide (k' = k)) as [->|Hne].
  - intros [= ->]. by exists [], m.*2.
  - intros H. destruct (IH H) as (before & after & E1 & E2).
    exists (v' :: before), after. csimpl. by rewrite E1, E2.
Qed.

End JsMapFacts.

Lemma forEntries_lookup f (o acc : gmap string Q) (k : string) :
  forEntries f o acc !! k
  = match o !! k with
    | Some v => Some (f k v (acc !! k))
    | None => acc !! k
    end.
Proof.
  unfold forEntries.
  apply (map_fold_weak_ind
           (λ r (m : gmap string Q),
              r !! k = match m !! k with
                       | Some v => Some (f k v (acc !! k))
                       | None => acc !! k
                       end)).
  - by rewrite lookup_empty.
  - intros i x m r Hi IH.
    destruct (decide (i = k)) as [->|Hne].
    + rewrite !lookup_insert_eq. rewrite Hi in IH. by rewrite IH.
    + by rewrite !lookup_insert_ne.
Qed.

Lemma orQ_default (o : option Q) : (Js.orQ o 0 == default 0 o)%Q.
Proof.
  destruct o as [q|]; simpl; [|reflexivity].
  destruct (Qeq_bool q 0) eqn:E; [|reflexivity].
  apply Qeq_bool_eq in E. by symmetry.
Qed.

Lemma sumN_app (l1 l2 : list N) : sumN (l1 ++ l2) = (sumN l1 + sumN l2)%N.
Proof. induction l1 as [|x l1 IH]; simpl; [done|]. rewrite IH. lia. Qed.

Lemma sumQ_app (l1 l2 : list Q) : (sumQ (l1 ++ l2) == sumQ l1 + sumQ l2)%Q.
Proof. induction l1 as [|x l1 IH]; simpl; [ring|]. rewrite IH. ring. Qed.

Lemma sumN_Permutation (l1 l2 : list N) : l1 ≡ₚ l2 → sumN l1 = sumN l2.
Proof.
  induction 1; simpl; lia.
Qed.

(* ------------------------------------------------------------------ *)
(** ** Grouping and merging *)
(* ------------------------------------------------------------------ *)

Lemma sameKey_snoc k paths p :
  sameKey k (paths ++ [p])
  = sameKey k paths ++ (if decide (Routing.pathKey p = k) then [p] else []).
Proof.
  unfold sameKey. by rewrite filter_app.
Qed.

Lemma weightedEdgeSum_snoc e grp p :
  (weightedEdgeSum e (grp ++ [p])
   == weightedEdgeSum e grp
      + edgeAverage e p * Js.numOfN (countedFrequency p))%Q.
Proof.
  unfold weightedEdgeSum. rewrite fmap_app, sumQ_app. simpl. ring.
Qed.

Lemma edgeTotalSum_snoc e grp p :
  (edgeTotalSum e (grp ++ [p]) == edgeTotalSum e grp + edgeTotal e p)%Q.
Proof. unfold edgeTotalSum. rewrite fmap_app, sumQ_app. simpl. ring. Qed.

Lemma weightedPathSum_snoc grp p :
  (weightedPathSum (grp ++ [p])
   == weightedPathSum grp
      + Js.orQ (totalDuration p) 0 * Js.numOfN (countedFrequency p))%Q.
Proof. unfold weightedPathSum. rewrite fmap_app, sumQ_app. simpl. ring. Qed.

Lemma groupFrequency_snoc grp p :
  groupFrequency (grp ++ [p]) = (groupFrequency grp + countedFrequency p)%N.
Proof. unfold groupFrequency. rewrite fmap_app, sumN_app. simpl. lia. Qed.

(** A group in which no path records the edge sums to zero. *)
Lemma weightedEdgeSum_absent e grp :
  ¬ Exists (recordsAverage e) grp → (weightedEdgeSum e grp == 0)%Q.
Proof.
  unfold weightedEdgeSum. induction grp as [|q grp IH]; intros H; simpl.
  - reflexivity.
  - rewrite IH by (intros ?; apply H; by right).
    assert (edgeAverage e q = 0%Q) as ->.
    { unfold edgeAverage. destruct (lookupIn _ e) eqn:E; [|done].
      exfalso. apply H. left. unfold recordsAverage. by rewrite E. }
    ring.
Qed.

Lemma edgeTotalSum_absent e grp :
  ¬ Exists (recordsTotal e) grp → (edgeTotalSum e grp == 0)%Q.
Proof.
  unfold edgeTotalSum. induction grp as [|q grp IH]; intros H; simpl.
  - reflexivity.
  - rewrite IH by (intros ?; apply H; by right).
    assert (edgeTotal e q = 0%Q) as ->.
    { unfold edgeTotal. destruct (lookupIn _ e) eqn:E; [|done].
      exfalso. apply H. left. unfold recordsTotal. by rewrite E. }
    ring.
Qed.

(** The value of an entry, whether present or not. *)
Lemma entryIs_value o present v :
  entryIs o present v →
  (Js.orQ o 0 == match o with Some _ => v | None => 0 end)%Q.
Proof.
  intros H. rewrite orQ_default. destruct o; simpl in *; [tauto | reflexivity].
Qed.

Lemma entryIs_Qeq o present v v' :
  (v == v')%Q → entryIs o present v → entryIs o present v'.
Proof.
  intros Hv. destruct o; simpl; [|done]. intros [? Hw]. split; [done|].
  by rewrite Hw.
Qed.

(** Adding a path to the accumulated entry of an edge. *)
Lemma entryIs_accumulate (old : option Q) (rec : option Q)
    (P : ExtendedPath → Prop) (grp : list ExtendedPath) (p : ExtendedPath)
    (sum term : Q) (add : Q → Q) :
  entryIs old (Exists P grp) sum →
  (¬ Exists P grp → sum == 0)%Q →
  (P p ↔ is_Some rec) →
  (∀ d, rec = Some d → add d == term)%Q →
  (rec = None → term == 0)%Q →
  entryIs (match rec with
           | Some d => Some (Js.orQ old 0 + add d)%Q
           | None => old
           end)
    (Exists P (grp ++ [p])) (sum + term)%Q.
Proof.
  intros Hold Hzero HP Hadd Hnone.
  assert (Exists P (grp ++ [p]) ↔ Exists P grp ∨ P p) as Hex.
  { rewrite Exists_app, Exists_cons, Exists_nil. tauto. }
  destruct rec as [d|]; simpl.
  - split; [apply Hex; right; apply HP; by eexists|].
    rewrite (Hadd d eq_refl). apply Qplus_inj_r.
    rewrite (entryIs_value _ _ _ Hold).
    destruct old; simpl in *; [reflexivity|]. symmetry. by apply Hzero.
  - assert (¬ P p) as HnP by (rewrite HP; by intros [? ?]).
    destruct old as [w|]; simpl in *.
    + destruct Hold as [Hex' Hw]. split; [tauto|].
      rewrite (Hnone eq_refl), Qplus_0_r. exact Hw.
    + tauto.
Qed.

Lemma lookup_objOrEmpty (o : option (gmap string Q)) (e : string) :
  Routing.objOrEmpty o !! e = lookupIn o e.
Proof. destruct o; simpl; [done | apply lookup_empty]. Qed.

(** The entry created for the first path of a group. *)
Lemma groupSpec_first p :
  groupSpec [p]
    {| Routing.g_path := p;
       Routing.totalFrequency := countedFrequency p;
       Routing.weightedTotalDuration :=
         (Js.orQ (totalDuration p) 0 * Js.numOfN (countedFrequency p))%Q;
       Routing.weightedEdgeDurations :=
         forEntries
           (λ _ duration _, (duration * Js.numOfN (countedFrequency p))%Q)
           (Routing.objOrEmpty (_specificEdgeDurations p)) ∅;
       Routing.summedEdgeTotalDurations :=
         forEntries (λ _ totalDur _, totalDur)
           (Routing.objOrEmpty (_specificTotalDurations p)) ∅ |}.
Proof.
  unfold groupSpec; simpl. split; [done|].
  split; [unfold groupFrequency; simpl; lia|].
  split; [unfold weightedPathSum; simpl; ring|].
  split; intros e; rewrite forEntries_lookup, lookup_empty, lookup_objOrEmpty.
  - unfold weightedEdgeSum, edgeAverage, entryIs. simpl.
    destruct (lookupIn (_specificEdgeDurations p) e) as [d|] eqn:E; simpl.
    + split; [|ring]. apply Exists_cons. left.
      unfold recordsAverage. rewrite E. by eexists.
    + intros H. apply Exists_cons in H as [[? H]|H].
      * rewrite E in H. done.
      * by apply Exists_nil in H.
  - unfold edgeTotalSum, edgeTotal, entryIs. simpl.
    destruct (lookupIn (_specificTotalDurations p) e) as [d|] eqn:E; simpl.
    + split; [|ring]. apply Exists_cons. left.
      unfold recordsTotal. rewrite E. by eexists.
    + intros H. apply Exists_cons in H as [[? H]|H].
      * rewrite E in H. done.
      * by apply Exists_nil in H.
Qed.

(** The entry of a group after one more path has been accumulated. *)
Lemma groupSpec_accumulate grp g p :
  grp ≠ [] → groupSpec grp g →
  groupSpec (grp ++ [p])
    {| Routing.g_path := Routing.g_path g;
       Routing.totalFrequency :=
         (Routing.totalFrequency g + countedFrequency p)%N;
       Routing.weightedTotalDuration :=
         (Routing.weightedTotalDuration g
          + Js.orQ (totalDuration p) 0 * Js.numOfN (countedFrequency p))%Q;
       Routing.weightedEdgeDurations :=
         forEntries
           (λ _ duration old,
              (Js.orQ old 0 + duration * Js.numOfN (countedFrequency p))%Q)
           (Routing.objOrEmpty (_specificEdgeDurations p))
           (Routing.weightedEdgeDurations g);
       Routing.summedEdgeTotalDurations :=
         forEntries (λ _ totalDur old, (Js.orQ old 0 + totalDur)%Q)
           (Routing.objOrEmpty (_specificTotalDurations p))
           (Routing.summedEdgeTotalDurations g) |}.
Proof.
  intros Hne (Hhd & Hfreq & Hdur & Havg & Htot). unfold groupSpec; simpl.
  split; [destruct grp; done|].
  split; [rewrite groupFrequency_snoc; congruence|].
  split; [rewrite weightedPathSum_snoc, Hdur; reflexivity|].
  split; intros e; rewrite forEntries_lookup, lookup_objOrEmpty.
  - eapply entryIs_Qeq; [symmetry; apply weightedEdgeSum_snoc|].
    eapply (entryIs_accumulate _ _ (recordsAverage e) grp p
              (weightedEdgeSum e grp)
              (edgeAverage e p * Js.numOfN (countedFrequency p))%Q
              (λ d, (d * Js.numOfN (countedFrequency p))%Q)); [apply Havg|..].
    + apply weightedEdgeSum_absent.
    + done.
    + intros d Hd. unfold edgeAverage. rewrite Hd. reflexivity.
    + intros Hd. unfold edgeAverage. rewrite Hd. simpl. ring.
  - eapply entryIs_Qeq; [symmetry; apply edgeTotalSum_snoc|].
    eapply (entryIs_accumulate _ _ (recordsTotal e) grp p
              (edgeTotalSum e grp) (edgeTotal e p) (λ d, d)); [apply Htot|..].
    + apply edgeTotalSum_absent.
    + done.
    + intros d Hd. unfold edgeTotal. rewrite Hd. reflexivity.
    + intros Hd. unfold edgeTotal. rewrite Hd. reflexivity.
Qed.

Lemma groupStep_groupsOf paths m p :
  groupsOf paths m → groupsOf (paths ++ [p]) (Routing.groupStep m p).
Proof.
  intros [Hnd Hgroups]. unfold Routing.groupStep.
  fold (countedFrequency p).
  pose proof (Hgroups (Routing.pathKey p)) as Hp.
  destruct (JsMap.get (Routing.pathKey p) m) as [existing|] eqn:Hget.
  - destruct Hp as [Hne Hspec].
    split; [by apply JsMap_NoDup_set|]. intros k.
    rewrite sameKey_snoc.
    destruct (decide (Routing.pathKey p = k)) as [<-|Hk].
    + rewrite JsMap_get_set_eq. split.
      * intros H. apply app_eq_nil in H as [_ H]. done.
      * by apply groupSpec_accumulate.
    + rewrite JsMap_get_set_ne, app_nil_r by done. apply Hgroups.
  - split; [by apply JsMap_NoDup_set|]. intros k.
    rewrite sameKey_snoc.
    destruct (decide (Routing.pathKey p = k)) as [<-|Hk].
    + rewrite JsMap_get_set_eq, Hp. simpl. split; [done|].
      apply groupSpec_first.
    + rewrite JsMap_get_set_ne, app_nil_r by done. apply Hgroups.
Qed.

Lemma groupFold_groupsOf rest paths m :
  groupsOf paths m →
  groupsOf (paths ++ rest) (fold_left Routing.groupStep rest m).
Proof.
  revert paths m. induction rest as [|p rest IH]; intros paths m H; simpl.
  - by rewrite app_nil_r.
  - rewrite (assoc_L _ paths [p] rest : paths ++ p :: rest = _).
    apply IH. by apply groupStep_groupsOf.
Qed.

Lemma groupPaths_groupsOf paths : groupsOf paths (Routing.groupPaths paths).
Proof.
  unfold Routing.groupPaths. apply (groupFold_groupsOf paths []).
  split; [apply NoDup_nil_2 | done].
Qed.

(** The key of a group is the key under which it is stored. *)
Lemma groupsOf_key paths m k g :
  groupsOf paths m → (k, g) ∈ m →
  JsMap.get k m = Some g ∧ Routing.pathKey (Routing.mergeGroup g) = k ∧
  sameKey k paths ≠ [] ∧ groupSpec (sameKey k paths) g.
Proof.
  intros [Hnd Hgroups] Hin.
  pose proof (JsMap_elem_get _ _ _ Hnd Hin) as Hget.
  pose proof (Hgroups k) as Hk. rewrite Hget in Hk. destruct Hk as [Hne Hspec].
  split; [done|]. split; [|done].
  destruct Hspec as (Hhd & _). unfold Routing.pathKey at 1. simpl.
  apply head_Some_elem_of in Hhd. unfold sameKey in Hhd.
  apply list_elem_of_filter in Hhd as [Hkey _]. done.
Qed.

Lemma sortByFrequency_Permutation l : Routing.sortByFrequency l ≡ₚ l.
Proof.
  assert (∀ a l, Routing.insertByFrequency a l ≡ₚ a :: l) as Hins.
  { intros a l'. induction l' as [|b l' IH]; simpl; [done|].
    case_decide; [|done]. rewrite IH. apply Permutation_swap. }
  induction l as [|a l IH]; simpl; [done|]. by rewrite Hins, IH.
Qed.

(** The values stored under a key, read back from the array of values. *)
Lemma values_with_key {V W} (f : V → W) (key : W → string)
    (m : JsMap.t V) k :
  NoDup (JsMap.keys m) →
  (∀ k' v', (k', v') ∈ m → key (f v') = k') →
  filter (λ x, key x = k) (f <$> JsMap.values m)
  = match JsMap.get k m with
    | Some v => [f v]
    | None => []
    end.
Proof.
  unfold JsMap.keys, JsMap.values.
  induction m as [|[k' v'] m IH]; csimpl; intros Hnd Hkeys; [done|].
  apply NoDup_cons in Hnd as [Hk' Hnd].
  rewrite filter_cons, (Hkeys k' v') by left.
  rewrite IH; [|done | intros; apply Hkeys; by right].
  destruct (decide (k' = k)) as [->|Hne]; [|done].
  assert (JsMap.get k m = None) as ->; [|done].
  by apply JsMap_get_None.
Qed.

(** Every group yields exactly one merged path, and every merged path
    comes from a group. *)
Lemma aggregate_group paths p :
  p ∈ paths →
  ∃ g, groupSpec (sameKey (Routing.pathKey p) paths) g ∧
       filter (λ x, Routing.pathKey x = Routing.pathKey p)
         (Routing.aggregatePaths paths) = [Routing.mergeGroup g].
Proof.
  intros Hin. pose proof (groupPaths_groupsOf paths) as Hinv.
  destruct Hinv as [Hnd Hgroups].
  pose proof (Hgroups (Routing.pathKey p)) as Hp.
  destruct (JsMap.get (Routing.pathKey p) (Routing.groupPaths paths))
    as [g|] eqn:Hget.
  - exists g. split; [apply Hp|].
    apply Permutation_singleton_r. unfold Routing.aggregatePaths.
    rewrite sortByFrequency_Permutation, values_with_key, Hget; [done..|].
    intros k' g' Hk'. by eapply groupsOf_key.
  - exfalso. eapply (filter_nil_not_elem_of _ _ p); [exact Hp | done | done].
Qed.

Lemma aggregate_elem paths merged :
  merged ∈ Routing.aggregatePaths paths →
  ∃ g, merged = Routing.mergeGroup g ∧
       sameKey (Routing.pathKey merged) paths ≠ [] ∧
       groupSpec (sameKey (Routing.pathKey merged) paths) g.
Proof.
  unfold Routing.aggregatePaths. rewrite sortByFrequency_Permutation.
  intros Hin. apply list_elem_of_fmap in Hin as (g & -> & Hg).
  unfold JsMap.values in Hg. apply list_elem_of_fmap in Hg as ([k g'] & -> & Hg).
  simpl. pose proof (groupsOf_key _ _ _ _ (groupPaths_groupsOf paths) Hg)
    as (_ & -> & Hne & Hspec).
  by exists g'.
Qed.

(** What a merged path reports, in terms of the group's entry. *)
Lemma mergeGroup_lookup g e :
  lookupIn (_specificEdgeDurations (Routing.mergeGroup g)) e
  = (λ w, (w / Js.numOfN (Routing.totalFrequency g))%Q)
      <$> Routing.weightedEdgeDurations g !! e.
Proof.
  simpl. rewrite forEntries_lookup, lookup_empty.
  by destruct (Routing.weightedEdgeDurations g !! e).
Qed.

(* ------------------------------------------------------------------ *)
(** ** Path keys determine node sequences *)
(* ------------------------------------------------------------------ *)

Lemma append_cons c (s t : string) : String c s +:+ t = String c (s +:+ t).
Proof. reflexivity. Qed.

Lemma append_nil_l (t : string) : "" +:+ t = t.
Proof. reflexivity. Qed.

Lemma append_nil_r (s : string) : s +:+ "" = s.
Proof. induction s as [|c s IH]; [done|]. by rewrite append_cons, IH. Qed.

Lemma append_assoc (s t u : string) : (s +:+ t) +:+ u = s +:+ (t +:+ u).
Proof. induction s as [|c s IH]; [done|]. by rewrite !append_cons, IH. Qed.

(** A character that does not start the separator is added to the piece. *)
Lemma splitArrowFrom_other c s cur :
  ¬ (c = "-"%char ∧ ∃ r, s = String ">"%char r) →
  Js.splitArrowFrom (String c s) cur = Js.splitArrowFrom s (cur +:+ String c "").
Proof.
  intros H. simpl.
  destruct c as [[] [] [] [] [] [] [] []]; try reflexivity.
  destruct s as [|c' r]; [reflexivity|].
  destruct c' as [[] [] [] [] [] [] [] []]; try reflexivity.
  exfalso. apply H. eauto.
Qed.

Lemma hasArrow_cons c s :
  hasArrow (String c s) = false →
  hasArrow s = false ∧ ¬ (c = "-"%char ∧ ∃ r, s = String ">"%char r).
Proof.
  simpl. intros H. split.
  - destruct c as [[] [] [] [] [] [] [] []]; try done.
    destruct s as [|c' r]; [done|].
    destruct c' as [[] [] [] [] [] [] [] []]; done.
  - intros [-> [r ->]]. done.
Qed.

Lemma splitArrowFrom_piece s cur :
  hasArrow s = false → Js.splitArrowFrom s cur = [cur +:+ s].
Proof.
  revert cur. induction s as [|c s IH]; intros cur H.
  - simpl. by rewrite append_nil_r.
  - apply hasArrow_cons in H as [Hs Hc].
    rewrite splitArrowFrom_other, IH by done.
    by rewrite append_assoc.
Qed.

Lemma splitArrowFrom_separator s t cur :
  hasArrow s = false →
  Js.splitArrowFrom (s +:+ "->" +:+ t) cur
  = (cur +:+ s) :: Js.splitArrowFrom t "".
Proof.
  revert cur. induction s as [|c s IH]; intros cur H.
  - rewrite append_nil_l, append_nil_r. reflexivity.
  - apply hasArrow_cons in H as [Hs Hc].
    rewrite append_cons, splitArrowFrom_other, IH, append_assoc; [done..|].
    intros [-> [r Hr]]. apply Hc. split; [done|].
    destruct s as [|c' s']; [done|]. rewrite append_cons in Hr.
    injection Hr as -> _. eauto.
Qed.

(** Splitting a key gives back the node ids, when none contains "->". *)
Lemma splitArrow_join (l : list string) :
  l ≠ [] → arrowFree l → Js.splitArrow (Js.join "->" l) = l.
Proof.
  unfold Js.splitArrow, Js.join, arrowFree.
  induction l as [|x l IH]; intros Hne Hfree; [done|].
  apply Forall_cons in Hfree as [Hx Hl].
  destruct l as [|y l].
  - simpl. by rewrite splitArrowFrom_piece.
  - change (String.concat "->" (x :: y :: l))
      with (x +:+ "->" +:+ String.concat "->" (y :: l)).
    rewrite splitArrowFrom_separator by done. by rewrite IH.
Qed.

Lemma join_inj (l1 l2 : list string) :
  l1 ≠ [] → l2 ≠ [] → arrowFree l1 → arrowFree l2 →
  Js.join "->" l1 = Js.join "->" l2 → l1 = l2.
Proof.
  intros H1 H2 F1 F2 E.
  rewrite <- (splitArrow_join l1), <- (splitArrow_join l2) by done.
  by rewrite E.
Qed.

(* ------------------------------------------------------------------ *)
(** ** The weighted merge of a group *)
(* ------------------------------------------------------------------ *)

(** Where no node id contains the separator, the paths with one key are
    the paths with one node sequence. *)
Lemma sameKey_sameNodes paths p :
  p ∈ paths →
  (∀ q, q ∈ paths → nodes q ≠ [] ∧ arrowFree (nodes q)) →
  sameKey (Routing.pathKey p) paths = sameNodes (nodes p) paths.
Proof.
  intros Hp Hfree. unfold sameKey, sameNodes. apply filter_ext_elem.
  intros q Hq. unfold Routing.pathKey. split; [|by intros ->].
  destruct (Hfree p Hp), (Hfree q Hq). by apply join_inj.
Qed.

Lemma entryIs_merged (o : option Q) present (sum : Q) (n : N) :
  entryIs o present sum →
  entryIs ((λ w, (w / Js.numOfN n)%Q) <$> o) present (sum / Js.numOfN n)%Q.
Proof.
  destruct o as [w|]; simpl; [|done]. intros [? Hw]. split; [done|].
  by rewrite Hw.
Qed.

Lemma merged_of_group grp g :
  groupSpec grp g →
  (∃ first, head grp = Some first ∧
            nodes (Routing.mergeGroup g) = nodes first) ∧
  frequency (Routing.mergeGroup g) = Some (groupFrequency grp) ∧
  (∀ e, entryIs (lookupIn (_specificEdgeDurations (Routing.mergeGroup g)) e)
          (Exists (recordsAverage e) grp)
          (weightedEdgeSum e grp / Js.numOfN (groupFrequency grp))%Q) ∧
  (∀ e, entryIs (lookupIn (_specificTotalDurations (Routing.mergeGroup g)) e)
          (Exists (recordsTotal e) grp) (edgeTotalSum e grp)) ∧
  (default 0%Q (totalDuration (Routing.mergeGroup g))
   == weightedPathSum grp / Js.numOfN (groupFrequency grp))%Q.
Proof.
  intros (Hhd & Hfreq & Hdur & Havg & Htot).
  split; [by exists (Routing.g_path g)|].
  split; [simpl; by rewrite Hfreq|].
  split; [|split].
  - intros e. rewrite mergeGroup_lookup, <- Hfreq. apply entryIs_merged, Havg.
  - intros e. simpl. apply Htot.
  - simpl. by rewrite Hdur, Hfreq.
Qed.

(** C1 (amended). The paths whose nodes join to the same key form a group
    (the paths with the same node sequence, when no node id contains the
    separator); for every group the aggregator outputs exactly one merged
    path, with the nodes of the group's first path. Its frequency is the
    sum of the counted frequencies of the group (a frequency that is 0 or
    absent counts as 1); the average duration of an edge is the sum of
    duration × counted frequency over the group divided by the sum of the
    counted frequencies; the total duration of an edge is the plain sum of
    the total durations. For two variants of frequencies 1 and 3 with
    durations 10 and 30 on the same path, the average is 25 and the total
    is 40. *)
Theorem C1_weighted_merge :
  (∀ (paths : list ExtendedPath) (p : ExtendedPath),
     p ∈ paths →
     let grp := sameKey (Routing.pathKey p) paths in
     ((∀ q, q ∈ paths → nodes q ≠ [] ∧ arrowFree (nodes q)) →
      grp = sameNodes (nodes p) paths) ∧
     ∃ merged,
       filter (λ x, Routing.pathKey x = Routing.pathKey p)
         (Routing.aggregatePaths paths) = [merged] ∧
       (∃ first, head grp = Some first ∧ nodes merged = nodes first) ∧
       frequency merged = Some (groupFrequency grp) ∧
       (∀ e, entryIs (lookupIn (_specificEdgeDurations merged) e)
               (Exists (recordsAverage e) grp)
               (weightedEdgeSum e grp / Js.numOfN (groupFrequency grp))%Q) ∧
       (∀ e, entryIs (lookupIn (_specificTotalDurations merged) e)
               (Exists (recordsTotal e) grp) (edgeTotalSum e grp))) ∧
  (∃ merged avg tot,
     Routing.findPathsBetweenNodes "A" "B"
       [traceAB (Some 1%N) 10; traceAB (Some 3%N) 30] = [merged] ∧
     frequency merged = Some 4%N ∧
     lookupIn (_specificEdgeDurations merged) "A->B" = Some avg ∧
     (avg == 25)%Q ∧
     lookupIn (_specificTotalDurations merged) "A->B" = Some tot ∧
     (tot == 40)%Q).
Proof.
  split.
  - intros paths p Hp grp. split; [by apply sameKey_sameNodes|].
    destruct (aggregate_group paths p Hp) as (g & Hspec & Hfilter).
    exists (Routing.mergeGroup g). split; [done|].
    destruct (merged_of_group _ _ Hspec) as (H1 & H2 & H3 & H4 & _).
    done.
  - eexists _, _, _. split; [vm_compute; reflexivity|].
    split; [reflexivity|]. split; [vm_compute; reflexivity|].
    split; [reflexivity|]. split; [vm_compute; reflexivity|]. reflexivity.
Qed.

(** C1 does not hold with the recorded frequencies: a group whose only
    path records the frequency 0 is merged into a path of frequency 1. *)
Lemma C1_counterexample_zero_frequency :
  let paths := Routing.extractPaths "A" "B" [traceAB (Some 0%N) 10] in
  ∃ merged,
    Routing.aggregatePaths paths = [merged] ∧
    sameNodes (nodes merged) paths = paths ∧
    sumN (recordedFrequency <$> sameNodes (nodes merged) paths) = 0%N ∧
    frequency merged = Some 1%N.
Proof.
  eexists. split; [vm_compute; reflexivity|].
  split; [vm_compute; reflexivity|]. split; vm_compute; reflexivity.
Qed.

Lemma C1_weighted_merge_witness :
  let paths :=
    Routing.extractPaths "A" "B" [traceAB (Some 1%N) 10; traceAB (Some 3%N) 30] in
  ∃ p merged,
    p ∈ paths ∧
    filter (λ x, Routing.pathKey x = Routing.pathKey p)
      (Routing.aggregatePaths paths) = [merged] ∧
    frequency merged
    = Some (groupFrequency (sameKey (Routing.pathKey p) paths)).
Proof.
  intros paths.
  assert (∃ p, p ∈ paths) as [p Hp] by (eexists; vm_compute; left).
  destruct (proj1 C1_weighted_merge paths p Hp)
    as (_ & merged & Hfilter & _ & Hfreq & _).
  by exists p, merged.
Defined.

(* ------------------------------------------------------------------ *)
(** ** Frequency conservation *)
(* ------------------------------------------------------------------ *)

Lemma sumN_replace (before after : list N) (x y : N) :
  (sumN (before ++ y :: after) + x = sumN (before ++ x :: after) + y)%N.
Proof. rewrite !sumN_app. simpl. lia. Qed.

Lemma groupStep_frequency m p :
  sumN (Routing.totalFrequency <$> JsMap.values (Routing.groupStep m p))
  = (sumN (Routing.totalFrequency <$> JsMap.values m) + countedFrequency p)%N.
Proof.
  unfold Routing.groupStep. fold (countedFrequency p).
  destruct (JsMap.get (Routing.pathKey p) m) as [existing|] eqn:Hget.
  - match goal with |- context [JsMap.set _ ?g m] => set (g' := g) end.
    destruct (JsMap_values_set_old _ g' _ _ Hget)
      as (before & after & -> & ->).
    rewrite !fmap_app, !fmap_cons, !sumN_app. subst g'.
    unfold countedFrequency. simpl. lia.
  - rewrite JsMap_values_set_new by done.
    rewrite fmap_app, sumN_app. unfold countedFrequency. simpl. lia.
Qed.

Lemma groupFold_frequency paths m :
  sumN (Routing.totalFrequency
          <$> JsMap.values (fold_left Routing.groupStep paths m))
  = (sumN (Routing.totalFrequency <$> JsMap.values m)
     + sumN (countedFrequency <$> paths))%N.
Proof.
  revert m. induction paths as [|p paths IH]; intros m; csimpl.
  - rewrite N.add_0_r. done.
  - rewrite IH, groupStep_frequency. lia.
Qed.

Lemma reportedFrequency_merged g :
  reportedFrequency (Routing.mergeGroup g) = Routing.totalFrequency g.
Proof.
  unfold reportedFrequency. simpl.
  destruct (N.eqb_spec (Routing.totalFrequency g) 0); congruence.
Qed.

(** The aggregator conserves the counted frequencies. *)
Lemma aggregate_frequency paths :
  sumN (reportedFrequency <$> Routing.aggregatePaths paths)
  = sumN (countedFrequency <$> paths).
Proof.
  unfold Routing.aggregatePaths.
  rewrite (sumN_Permutation _ _
             (fmap_Permutation _ _ _ (sortByFrequency_Permutation _))).
  assert (∀ l, reportedFrequency <$> (Routing.mergeGroup <$> l)
               = Routing.totalFrequency <$> l) as ->.
  { induction l as [|g l IH]; csimpl; [done|].
    by rewrite IH, reportedFrequency_merged. }
  unfold Routing.groupPaths. by rewrite groupFold_frequency.
Qed.

Lemma countedFrequency_variant p v :
  frequency p = Frequency v → countedFrequency p = countedVariantFrequency v.
Proof.
  unfold countedFrequency, countedVariantFrequency, Js.orN. intros ->.
  destruct (Frequency v) as [n|]; [|done].
  destruct (N.eqb_spec n 0), (decide (n = 0%N)); congruence.
Qed.

(** The extractor keeps the qualifying variants, with their frequencies. *)
Lemma extractPaths_frequencies startId endId variants :
  countedFrequency <$> Routing.extractPaths startId endId variants
  = countedVariantFrequency <$> filter (qualifies startId endId) variants.
Proof.
  unfold Routing.extractPaths.
  induction variants as [|v variants IH]; [done|].
  rewrite filter_cons. csimpl.
  pose proof (extractVariant_cases startId endId v) as H. simpl in H.
  destruct (Routing.extractVariant startId endId v) as [p|].
  - destruct H as (Hq & _ & Hf & _).
    rewrite decide_True by done. csimpl.
    by rewrite IH, (countedFrequency_variant p v).
  - rewrite decide_False; [done|]. unfold qualifies. tauto.
Qed.

(** C4 (amended). For every query, the frequencies of the output paths
    sum to the sum of the counted frequencies of the qualifying variants,
    where a frequency that is 0 or absent counts as 1; the sum equals the
    sum of the recorded frequencies when every qualifying variant records a
    frequency that is not zero. *)
Theorem C4_frequency_conservation (startId endId : string)
    (variants : list Variant) :
  sumN (reportedFrequency
          <$> Routing.findPathsBetweenNodes startId endId variants)
  = sumN (countedVariantFrequency
            <$> filter (qualifies startId endId) variants) ∧
  (Forall (λ v, ∃ n, Frequency v = Some n ∧ n ≠ 0%N)
     (filter (qualifies startId endId) variants) →
   sumN (reportedFrequency
           <$> Routing.findPathsBetweenNodes startId endId variants)
   = sumN (variantFrequency
             <$> filter (qualifies startId endId) variants)).
Proof.
  assert (sumN (reportedFrequency
                  <$> Routing.findPathsBetweenNodes startId endId variants)
          = sumN (countedVariantFrequency
                    <$> filter (qualifies startId endId) variants)) as Hsum.
  { unfold Routing.findPathsBetweenNodes.
    destruct (decide (Js.len variants = 0)) as [H0|_].
    - destruct variants; [done|]. unfold Js.len in H0. simpl in H0. lia.
    - by rewrite aggregate_frequency, extractPaths_frequencies. }
  split; [done|]. intros Hpos. rewrite Hsum. f_equal.
  apply Forall_fmap_ext_1. eapply Forall_impl; [exact Hpos|].
  intros v (n & Hn & Hn0). unfold countedVariantFrequency, variantFrequency.
  rewrite Hn. simpl. by rewrite decide_False.
Qed.

(** C4 does not hold with the recorded frequencies: the output
    frequencies sum to 3 where the recorded frequencies of the two
    qualifying variants sum to 2. *)
Lemma C4_counterexample_missing_frequency :
  let variants := [traceAB None 10; traceAB (Some 2%N) 20] in
  filter (qualifies "A" "B") variants = variants ∧
  sumN (variantFrequency <$> filter (qualifies "A" "B") variants) = 2%N ∧
  sumN (reportedFrequency <$> Routing.findPathsBetweenNodes "A" "B" variants)
  = 3%N.
Proof. split; [|split]; vm_compute; reflexivity. Qed.

(* ------------------------------------------------------------------ *)
(** ** Frequencies that are zero or absent *)
(* ------------------------------------------------------------------ *)

Lemma sameKey_extractPaths startId endId k variants :
  countedFrequency <$> sameKey k (Routing.extractPaths startId endId variants)
  = countedVariantFrequency <$> variantsWithKey startId endId k variants.
Proof.
  unfold Routing.extractPaths, variantsWithKey, sameKey.
  induction variants as [|v variants IH]; [done|].
  rewrite (filter_cons _ v). csimpl.
  pose proof (extractVariant_cases startId endId v) as H. simpl in H.
  destruct (Routing.extractVariant startId endId v) as [p|].
  - destruct H as (Hq & Hn & Hf & _). rewrite filter_cons.
    assert (Routing.pathKey p = Js.join "->" (windowOf startId endId v))
      as Hkey by (unfold Routing.pathKey, windowOf; by rewrite Hn).
    destruct (decide (Routing.pathKey p = k)) as [Hk|Hk].
    + rewrite decide_True by (split; [done | congruence]). csimpl.
      by rewrite IH, (countedFrequency_variant p v).
    + rewrite decide_False; [done|]. intros [_ ?]. congruence.
  - rewrite decide_False; [done|]. unfold qualifies. tauto.
Qed.

Lemma length_filter_impl {A} (P1 P2 : A → Prop)
    `{!∀ x, Decision (P1 x), !∀ x, Decision (P2 x)} (l : list A) :
  (∀ x, P1 x → P2 x) → (length (filter P1 l) ≤ length (filter P2 l))%nat.
Proof.
  intros Himpl. induction l as [|x l IH]; [done|].
  rewrite !filter_cons.
  destruct (decide (P1 x)), (decide (P2 x)); simpl; try lia.
  exfalso. auto.
Qed.

Lemma countedVariantFrequency_pos v : (1 ≤ countedVariantFrequency v)%N.
Proof.
  unfold countedVariantFrequency. destruct (Frequency v) as [n|]; [|lia].
  destruct (decide (n = 0%N)); lia.
Qed.

Lemma length_le_counted (l : list Variant) :
  (N.of_nat (length l) ≤ sumN (countedVariantFrequency <$> l))%N.
Proof.
  induction l as [|v l IH]; csimpl; [lia|].
  pose proof (countedVariantFrequency_pos v). lia.
Qed.

Lemma merge_zero_and_absent :
  ∃ m, Routing.findPathsBetweenNodes "A" "B"
         [traceAB (Some 0%N) 10; traceAB None 30] = [m] ∧
       frequency m = Some 2%N.
Proof. eexists. split; vm_compute; reflexivity. Qed.

(** C10. A qualifying variant whose frequency is 0 or absent is counted
    with frequency 1: the frequency of a merged path is the sum, over the
    qualifying variants that were merged into it, of their frequencies
    with 0 and absent replaced by 1, and these are the weights of its
    per-edge averages and of its total duration. Hence the frequency of a merged path is at least
    the number of qualifying variants with its node sequence; two such
    variants with frequency 0 and no frequency, recorded sum 0, are merged
    into a path of frequency 2. *)
Theorem C10_default_frequency (startId endId : string)
    (variants : list Variant) (merged : ExtendedPath) :
  merged ∈ Routing.findPathsBetweenNodes startId endId variants →
  let paths := Routing.extractPaths startId endId variants in
  let grp := sameKey (Routing.pathKey merged) paths in
  let counted :=
    variantsWithKey startId endId (Routing.pathKey merged) variants in
  (∀ v, Frequency v = None ∨ Frequency v = Some 0%N →
        countedVariantFrequency v = 1%N) ∧
  frequency merged = Some (sumN (countedVariantFrequency <$> counted)) ∧
  countedFrequency <$> grp = countedVariantFrequency <$> counted ∧
  (∀ e, entryIs (lookupIn (_specificEdgeDurations merged) e)
          (Exists (recordsAverage e) grp)
          (weightedEdgeSum e grp
           / Js.numOfN (sumN (countedVariantFrequency <$> counted)))%Q) ∧
  (default 0 (totalDuration merged)
   == weightedPathSum grp
      / Js.numOfN (sumN (countedVariantFrequency <$> counted)))%Q ∧
  (N.of_nat (length (variantsWithNodes startId endId (nodes merged) variants))
   ≤ sumN (countedVariantFrequency <$> counted))%N ∧
  (∃ m, Routing.findPathsBetweenNodes "A" "B"
          [traceAB (Some 0%N) 10; traceAB None 30] = [m] ∧
        frequency m = Some 2%N).
Proof.
  intros Hin paths grp counted.
  split.
  { intros v [H|H]; unfold countedVariantFrequency; rewrite H; done. }
  unfold Routing.findPathsBetweenNodes in Hin.
  destruct (decide (Js.len variants = 0)); [by apply elem_of_nil in Hin|].
  fold paths in Hin.
  destruct (aggregate_elem paths merged Hin) as (g & -> & Hne & Hspec).
  fold grp in Hspec.
  destruct (merged_of_group _ _ Hspec) as (_ & Hfreq & Havg & _ & Hdur).
  assert (countedFrequency <$> grp = countedVariantFrequency <$> counted)
    as Hcounted by apply sameKey_extractPaths.
  assert (groupFrequency grp = sumN (countedVariantFrequency <$> counted))
    as Hsum by (unfold groupFrequency; by rewrite Hcounted).
  split; [by rewrite Hfreq, Hsum|]. split; [done|].
  split; [intros e; rewrite <- Hsum; apply Havg|].
  split; [by rewrite <- Hsum|].
  split.
  - etrans; [|apply length_le_counted]. apply N2Z.inj_le.
    rewrite !nat_N_Z. apply Nat2Z.inj_le.
    unfold variantsWithNodes, counted, variantsWithKey.
    apply length_filter_impl. intros v [Hq Hw]. split; [done|].
    unfold Routing.pathKey. by rewrite Hw.
  - exact merge_zero_and_absent.
Qed.

Lemma C10_default_frequency_witness :
  ∃ merged,
    merged ∈ Routing.findPathsBetweenNodes "A" "B"
               [traceAB (Some 0%N) 10; traceAB None 30] ∧
    frequency merged
    = Some (sumN (countedVariantFrequency
                    <$> variantsWithKey "A" "B" (Routing.pathKey merged)
                          [traceAB (Some 0%N) 10; traceAB None 30])).
Proof.
  eexists. split; [vm_compute; left|].
  refine (proj1 (proj2 (C10_default_frequency "A" "B" _ _ _))).
  vm_compute. left.
Defined.

(* ------------------------------------------------------------------ *)
(** ** Ingestion: one edge per edge id *)
(* ------------------------------------------------------------------ *)

Lemma JsMap_elem_set {V} (k k' : string) (v v' : V) (m : JsMap.t V) :
  (k, v) ∈ JsMap.set k' v' m → (k, v) = (k', v') ∨ (k, v) ∈ m.
Proof.
  induction m as [|[k0 v0] m IH]; simpl.
  - intros H. apply list_elem_of_singleton in H. by left.
  - destruct (decide (k0 = k')) as [->|Hne]; intros H;
      apply elem_of_cons in H as [H|H].
    + by left.
    + right. by right.
    + right. rewrite H. left.
    + destruct (IH H) as [?|?]; [by left | right; by right].
Qed.

Lemma keyedBy_set {V} (key : V → string) (k : string) (v : V) (m : JsMap.t V) :
  key v = k → keyedBy key m → keyedBy key (JsMap.set k v m).
Proof.
  intros Hk [Hnd Hkeys]. split; [by apply JsMap_NoDup_set|].
  intros k0 v0 H. apply JsMap_elem_set in H as [[= -> ->]|H]; [done|].
  by apply Hkeys.
Qed.

(** A loop of [set] calls keeps the entries of the other keys. *)
Lemma fold_set_get {V X} (kf : X → string) (vf : X → V) (xs : list X)
    (m : JsMap.t V) (k : string) :
  k ∉ kf <$> xs →
  JsMap.get k (fold_left (λ m x, JsMap.set (kf x) (vf x) m) xs m)
  = JsMap.get k m.
Proof.
  revert m. induction xs as [|x xs IH]; intros m Hk; [done|].
  rewrite fmap_cons, not_elem_of_cons in Hk. destruct Hk as [Hx Hxs].
  simpl. rewrite IH by done. by apply JsMap_get_set_ne.
Qed.

Lemma fold_set_keyedBy {V X} (key : V → string) (kf : X → string)
    (vf : X → V) (xs : list X) (m : JsMap.t V) :
  (∀ x, key (vf x) = kf x) → keyedBy key m →
  keyedBy key (fold_left (λ m x, JsMap.set (kf x) (vf x) m) xs m).
Proof.
  intros Hkey. revert m. induction xs as [|x xs IH]; intros m Hm; [done|].
  simpl. apply IH. by apply keyedBy_set.
Qed.

Lemma firstWithId_snoc id processed item :
  firstWithId id (processed ++ [item])
  = match firstWithId id processed with
    | Some first => Some first
    | None => if decide (recordEdgeId item = id) then Some item else None
    end.
Proof.
  unfold firstWithId. induction processed as [|r processed IH]; simpl.
  - rewrite bool_decide_decide. by destruct (decide _).
  - by destruct (bool_decide (recordEdgeId r = id)).
Qed.

(** The edges map of the second [forEach] does not depend on the nodes. *)
Lemma ingestStep_edges starts ends maps item :
  (Store.ingestStep starts ends maps item).2
  = Store.setIfAbsent (recordEdgeId item) (Store.recordEdge item) maps.2.
Proof. done. Qed.

Lemma setIfAbsent_edgesAfter processed m item :
  edgesAfter processed m →
  edgesAfter (processed ++ [item])
    (Store.setIfAbsent (recordEdgeId item) (Store.recordEdge item) m).
Proof.
  intros [Hkeyed Hget]. unfold Store.setIfAbsent, JsMap.has.
  pose proof (Hget (recordEdgeId item)) as Hitem.
  destruct (JsMap.get (recordEdgeId item) m) as [e|] eqn:E.
  - split; [done|]. intros id. rewrite firstWithId_snoc, Hget.
    destruct (firstWithId id processed) as [first|] eqn:F; [done|].
    destruct (decide (recordEdgeId item = id)) as [<-|]; [|done].
    rewrite F in Hitem. done.
  - split; [by apply keyedBy_set|]. intros id. rewrite firstWithId_snoc.
    destruct (decide (recordEdgeId item = id)) as [<-|Hne].
    + rewrite JsMap_get_set_eq.
      destruct (firstWithId (recordEdgeId item) processed); done.
    + rewrite JsMap_get_set_ne, Hget by done.
      by destruct (firstWithId id processed).
Qed.

Lemma ingestFold_edgesAfter starts ends graphData processed maps :
  edgesAfter processed maps.2 →
  edgesAfter (processed ++ graphData)
    (fold_left (Store.ingestStep starts ends) graphData maps).2.
Proof.
  revert processed maps.
  induction graphData as [|item graphData IH]; intros processed maps H; simpl.
  - by rewrite app_nil_r.
  - rewrite (assoc_L _ processed [item] graphData
               : processed ++ item :: graphData = _).
    apply IH. rewrite ingestStep_edges. by apply setIfAbsent_edgesAfter.
Qed.

(** Every row has a first row with its edge id. *)
Lemma firstWithId_elem item graphData :
  item ∈ graphData → is_Some (firstWithId (recordEdgeId item) graphData).
Proof.
  unfold firstWithId. induction graphData as [|r graphData IH]; simpl.
  - intros H. by apply elem_of_nil in H.
  - intros H. apply elem_of_cons in H as [<-|H].
    + rewrite bool_decide_true by done. by eexists.
    + destruct (bool_decide _); [by eexists | by apply IH].
Qed.

(** The edge of an id that is not an anchor id, in the final edges map. *)
Lemma ingest_edge graphData starts ends id :
  id ∉ anchorEdgeIds graphData starts ends →
  keyedBy edge_id (Store.ingest graphData starts ends).2 ∧
  JsMap.get id (Store.ingest graphData starts ends).2
  = Store.recordEdge <$> firstWithId id graphData.
Proof.
  intros Hid. unfold anchorEdgeIds in Hid.
  rewrite elem_of_app in Hid.
  unfold Store.ingest, Store.addEndEdges, Store.addStartEdges. simpl.
  destruct (ingestFold_edgesAfter starts ends graphData []
              (JsMap.empty, JsMap.empty)) as [Hkeyed Hget].
  { split; [split; [apply NoDup_nil_2 | intros ?? H; by apply elem_of_nil in H]
           | done]. }
  split.
  - apply fold_set_keyedBy; [done|]. by apply fold_set_keyedBy.
  - rewrite !fold_set_get by tauto. apply Hget.
Qed.

(** C2 (amended). When several rows of the input share one source->target
    edge id, the edge of the output graph carries the statistics (weight,
    case count, durations, label) of the first such row: for every row
    whose edge id is not the id of an anchor edge, the output has exactly
    one edge with that id, built from the first row with that id. *)
Theorem C2_first_record_wins (s : GraphState) (graphData : list GraphData)
    (startActivities endActivities : list string) (item : GraphData) :
  item ∈ graphData →
  recordEdgeId item ∉ anchorEdgeIds graphData startActivities endActivities →
  ∃ first,
    firstWithId (recordEdgeId item) graphData = Some first ∧
    filter (λ e, edge_id e = recordEdgeId item)
      (allEdges
         (Store.processInitialData s graphData startActivities endActivities))
    = [Store.recordEdge first].
Proof.
  intros Hin Hanchor.
  destruct (firstWithId_elem item graphData Hin) as [first Hfirst].
  exists first. split; [done|].
  destruct (ingest_edge graphData startActivities endActivities _ Hanchor)
    as [[Hnd Hkeys] Hget].
  change (allEdges (Store.processInitialData s graphData startActivities
                      endActivities))
    with (JsMap.values
            (Store.ingest graphData startActivities endActivities).2).
  rewrite <- (list_fmap_id (JsMap.values _)).
  rewrite (values_with_key id edge_id) by done.
  by rewrite Hget, Hfirst.
Qed.

Lemma C2_first_record_wins_witness :
  ∃ first,
    firstWithId "A->B" [rowAB 1 5 "one"; rowAB 2 7 "two"] = Some first ∧
    filter (λ e, edge_id e = "A->B")
      (allEdges
         (Store.processInitialData Store.initialState
            [rowAB 1 5 "one"; rowAB 2 7 "two"] ["A"] ["B"]))
    = [Store.recordEdge first].
Proof.
  apply (C2_first_record_wins Store.initialState
           [rowAB 1 5 "one"; rowAB 2 7 "two"] ["A"] ["B"] (rowAB 1 5 "one")).
  - left.
  - vm_compute. intros H. repeat (apply elem_of_cons in H as [H|H]; [done|]).
    by apply elem_of_nil in H.
Defined.

(** C2 does not hold with the most recent row: of two rows for the edge
    A->B, the output edge carries the weight, case count and label of the
    first, not of the most recent one. *)
Lemma C2_counterexample_last_record_ignored :
  let graphData := [rowAB 1 5 "one"; rowAB 2 7 "two"] in
  lastWithId "A->B" graphData = Some (rowAB 2 7 "two") ∧
  ∃ e,
    filter (λ e, edge_id e = "A->B")
      (allEdges
         (Store.processInitialData Store.initialState graphData ["A"] ["B"]))
    = [e] ∧
    ed_Weight_Value (edge_data e) = Some 1%Q ∧
    ed_Case_Count (edge_data e) = Some 5%N ∧
    edge_label e = Some "one" ∧
    e ≠ Store.recordEdge (rowAB 2 7 "two").
Proof.
  split; [reflexivity|]. eexists. split; [vm_compute; reflexivity|].
  repeat split; try reflexivity. intros H. discriminate H.
Qed.

(* ------------------------------------------------------------------ *)
(** ** The node and edge filters *)
(* ------------------------------------------------------------------ *)

Lemma applyNodeFilter_empty config graph :
  filteredNodeIds config = ∅ → Store.applyNodeFilter config graph = graph.
Proof.
  intros H. unfold Store.applyNodeFilter. rewrite H, size_empty.
  rewrite decide_False; [done | lia].
Qed.

(** C5 (amended). With an empty kept-node-id set the node list passes
    through unchanged, and so does the edge list when no kept-edge-id set
    is supplied or when that set is empty; a non-empty kept-edge-id set
    still restricts the edges to the edges whose id it contains. *)
Theorem C5_empty_node_filter (config : LayoutConfig)
    (nodes : list Node) (edges : list Edge) :
  filteredNodeIds config = ∅ →
  (Store.filterGraph config nodes edges).1 = nodes ∧
  (filteredEdgeIds config = None ∨ filteredEdgeIds config = Some ∅ →
   Store.filterGraph config nodes edges = (nodes, edges)) ∧
  (∀ ids, filteredEdgeIds config = Some ids → ids ≠ ∅ →
     (Store.filterGraph config nodes edges).2
     = filter (λ edge, edge_id edge ∈ ids) edges).
Proof.
  intros Hempty. unfold Store.filterGraph.
  rewrite applyNodeFilter_empty by done. unfold Store.applyEdgeFilter.
  split; [|split].
  - destruct (filteredEdgeIds config); [case_decide|]; done.
  - intros [->| ->]; [done|]. rewrite size_empty.
    rewrite decide_False; [done | lia].
  - intros ids -> Hids. simpl. case_decide as Hc; [done|].
    destruct edges as [|edge edges]; [done|]. exfalso. apply Hc.
    split; [unfold Js.len; simpl; lia|].
    assert (size ids ≠ 0%nat); [|lia].
    apply size_non_empty_iff. intros Hs. apply Hids. by apply leibniz_equiv.
Qed.

Lemma C5_empty_node_filter_witness :
  Store.filterGraph (plainConfig ∅ None) (allNodes storeABC) (allEdges storeABC)
  = (allNodes storeABC, allEdges storeABC).
Proof.
  apply (C5_empty_node_filter (plainConfig ∅ None)); [reflexivity|].
  left. reflexivity.
Defined.

(** C5 does not hold for the edges in general: with an empty kept-node-id
    set and the kept-edge-id set {A->B}, the edge B->C of the graph is
    filtered out. *)
Lemma C5_counterexample_edge_filter_applies :
  let config := plainConfig ∅ (Some {["A->B"]}) in
  filteredNodeIds config = ∅ ∧
  edge_id <$> allEdges storeABC = ["A->B"; "B->C"; "start-to-A"; "C-to-end"] ∧
  edge_id <$> (Store.filterGraph config (allNodes storeABC)
                 (allEdges storeABC)).2 = ["A->B"] ∧
  (Store.filterGraph config (allNodes storeABC) (allEdges storeABC)).2
  ≠ allEdges storeABC.
Proof.
  split; [reflexivity|]. split; [vm_compute; reflexivity|].
  split; [vm_compute; reflexivity|].
  intros H. apply (f_equal length) in H. vm_compute in H. discriminate H.
Qed.

(* ------------------------------------------------------------------ *)
(** ** Ghost overlay *)
(* ------------------------------------------------------------------ *)

(** The overlay only appends. *)
Lemma addOverlayNodes_prefix isGhost ids nodes :
  ∃ added, Store.addOverlayNodes isGhost ids nodes = nodes ++ added ∧
           Forall (λ n, node_id n ∈ ids ∧ node_id n ∉ node_id <$> nodes) added.
Proof.
  unfold Store.addOverlayNodes. case_decide.
  - eexists. split; [done|]. apply Forall_fmap, Forall_forall.
    intros id Hid. apply list_elem_of_filter in Hid as [Hnew Hid]. simpl.
    split; [done|]. by rewrite elem_of_list_to_set in Hnew.
  - exists []. by rewrite app_nil_r.
Qed.

Lemma addOverlayEdges_prefix isGhost ids edges :
  ∃ added, Store.addOverlayEdges isGhost ids edges = edges ++ added ∧
           Forall (λ e, edge_id e ∈ ids ∧ edge_id e ∉ edge_id <$> edges) added.
Proof.
  unfold Store.addOverlayEdges. case_decide.
  - eexists. split; [done|]. apply Forall_fmap, Forall_forall.
    intros id Hid. apply list_elem_of_filter in Hid as [Hnew Hid]. simpl.
    split; [done|]. by rewrite elem_of_list_to_set in Hnew.
  - exists []. by rewrite app_nil_r.
Qed.

(** Every id of the overlay is the id of a node of the result. *)
Lemma addOverlayNodes_covers isGhost ids nodes id :
  id ∈ ids → id ∈ node_id <$> Store.addOverlayNodes isGhost ids nodes.
Proof.
  intros Hid. unfold Store.addOverlayNodes. rewrite decide_True.
  - rewrite fmap_app, elem_of_app.
    destruct (decide (id ∈ node_id <$> nodes)) as [|Hnew]; [by left|].
    right. rewrite <- list_fmap_compose. apply list_elem_of_fmap.
    exists id. split; [done|]. apply list_elem_of_filter. split; [|done].
    by rewrite elem_of_list_to_set.
  - destruct ids; [by apply elem_of_nil in Hid|]. unfold Js.len. simpl. lia.
Qed.

Lemma addOverlayEdges_covers isGhost ids edges id :
  id ∈ ids → id ∈ edge_id <$> Store.addOverlayEdges isGhost ids edges.
Proof.
  intros Hid. unfold Store.addOverlayEdges. rewrite decide_True.
  - rewrite fmap_app, elem_of_app.
    destruct (decide (id ∈ edge_id <$> edges)) as [|Hnew]; [by left|].
    right. rewrite <- list_fmap_compose. apply list_elem_of_fmap.
    exists id. split; [done|]. apply list_elem_of_filter. split; [|done].
    by rewrite elem_of_list_to_set.
  - destruct ids; [by apply elem_of_nil in Hid|]. unfold Js.len. simpl. lia.
Qed.

(** The ids stay distinct when the overlay lists each id once. *)
Lemma addOverlayNodes_NoDup isGhost ids nodes :
  NoDup (node_id <$> nodes) → NoDup ids →
  NoDup (node_id <$> Store.addOverlayNodes isGhost ids nodes).
Proof.
  intros Hnodes Hids. unfold Store.addOverlayNodes. case_decide; [|done].
  rewrite fmap_app, <- list_fmap_compose.
  change (node_id ∘ Store.overlayNode isGhost) with (@id string).
  rewrite list_fmap_id. apply NoDup_app. split; [done|]. split.
  - intros x Hx Hx'. apply list_elem_of_filter in Hx' as [Hnew _].
    by rewrite elem_of_list_to_set in Hnew.
  - by apply NoDup_filter.
Qed.

Lemma setToArray_elem seen l x :
  x ∈ PathSelection.setToArray seen l ↔ x ∈ l ∧ x ∉ seen.
Proof.
  revert seen. induction l as [|y l IH]; intros seen; simpl.
  - split; [intros H; by apply elem_of_nil in H|].
    intros [H _]. by apply elem_of_nil in H.
  - destruct (decide (y ∈ seen)) as [Hy|Hy].
    + rewrite IH, elem_of_cons. split; [tauto|].
      intros [[->|?] ?]; [done | tauto].
    + rewrite !elem_of_cons, IH. split.
      * intros [->|[? Hx]]; [tauto|]. split; [tauto|].
        intros ?. apply Hx. apply elem_of_union. by right.
      * intros [[->|?] ?]; [by left|].
        destruct (decide (x = y)) as [->|]; [by left|]. right.
        split; [done|]. by rewrite not_elem_of_union, not_elem_of_singleton.
Qed.

(** The overlay of a selected path is additive and covers the path: the
    result extends the filtered graph, and holds every node id of the
    path and the id of every pair of consecutive nodes. *)
Lemma ghost_overlay_additive (path : ExtendedPath)
    (graph : list Node * list Edge) :
  let result :=
    Store.injectGhosts (Some (PathSelection.activePathInfoData path)) graph in
  (∃ ns es, result = (graph.1 ++ ns, graph.2 ++ es)) ∧
  (∀ id, id ∈ nodes path → id ∈ node_id <$> result.1) ∧
  (∀ id, id ∈ Store.consecutiveEdgeIds (nodes path) →
         id ∈ edge_id <$> result.2).
Proof.
  simpl. split; [|split].
  - destruct (addOverlayNodes_prefix true (nodes path) graph.1)
      as (ns & -> & _).
    destruct (addOverlayEdges_prefix true (PathSelection.pathEdgeIds path)
                graph.2) as (es & -> & _).
    by exists ns, es.
  - intros id Hid. by apply addOverlayNodes_covers.
  - intros id Hid. apply addOverlayEdges_covers.
    unfold PathSelection.pathEdgeIds. apply setToArray_elem.
    split; [done | apply not_elem_of_empty].
Qed.

(** C6 (not met by the code). The ghost overlay appends the
    nodes and edges of the active path that the filtered graph lacks, and
    every id of the path is in the result; but a node of the path that is
    visited twice and is not in the filtered graph is injected twice: for
    the found path X, Y, X, Z over the graph A -> B -> C the nodes to lay
    out have the ids X, Y, X, Z, with X duplicated. *)
Theorem C6_ghost_node_duplicated :
  ∃ path,
    Routing.findPathsBetweenNodes "X" "Z" [loopVariant] = [path] ∧
    let config := PathSelection.selectPathConfig "default" path in
    let result :=
      Store.graphToLayout config (allNodes storeABC) (allEdges storeABC) in
    node_id <$> result.1 = ["X"; "Y"; "X"; "Z"] ∧
    edge_id <$> result.2 = ["X->Y"; "Y->X"; "X->Z"] ∧
    ¬ NoDup (node_id <$> result.1).
Proof.
  eexists. split; [vm_compute; reflexivity|].
  split; [vm_compute; reflexivity|]. split; [vm_compute; reflexivity|].
  vm_compute. intros H. apply NoDup_cons in H as [H _]. apply H.
  right. left.
Qed.

(* ------------------------------------------------------------------ *)
(** ** Failure of the layout algorithm *)
(* ------------------------------------------------------------------ *)

Lemma layoutResult_rejected colorPalettes config graph :
  Store.layoutResult colorPalettes config graph ElkRejected = None.
Proof. done. Qed.

(** C9. When the layout algorithm rejects or throws, [computeLayout]
    returns normally and leaves the layouted node and edge lists as they
    were, with the loading flag reset; the handler of a failure (of the
    algorithm, or of the statements that process its answer) changes the
    loading flag and nothing else, whatever the store holds when the
    failure arrives. *)
Theorem C9_layout_failure_keeps_layout
    (colorPalettes : string → option ColorScaleFn)
    (elk : ElkGraph → ElkOutcome) (config : LayoutConfig) (s : GraphState) :
  let graph := Store.graphToLayout config (allNodes s) (allEdges s) in
  graph.1 ≠ [] →
  elk (Store.elkRequest graph) = ElkRejected →
  let s' := Store.computeLayout colorPalettes elk config s in
  layoutedNodes s' = layoutedNodes s ∧
  layoutedEdges s' = layoutedEdges s ∧
  isLayoutLoading s' = false ∧
  allNodes s' = allNodes s ∧ allEdges s' = allEdges s ∧
  foundPaths s' = foundPaths s ∧ activePath s' = activePath s ∧
  _edgeLookupMap s' = _edgeLookupMap s ∧
  ∀ (outcome : ElkOutcome) (later : GraphState),
    Store.layoutResult colorPalettes config graph outcome = None →
    Store.computeLayoutSettle colorPalettes config graph outcome later
    = Store.setIsLayoutLoading false later.
Proof.
  intros graph Hnodes Hfail s'. subst s'.
  unfold Store.computeLayout, Store.computeLayoutStart. fold graph.
  rewrite decide_False.
  - rewrite Hfail. unfold Store.computeLayoutSettle.
    rewrite layoutResult_rejected. repeat (split; [done|]).
    intros outcome later ->. done.
  - destruct graph.1; [done|]. unfold Js.len. simpl. lia.
Qed.

Lemma C9_layout_failure_keeps_layout_witness :
  layoutedNodes
    (Store.computeLayout noPalettes failingElk (plainConfig ∅ None) storeABC)
  = layoutedNodes storeABC.
Proof.
  apply (C9_layout_failure_keeps_layout noPalettes failingElk
           (plainConfig ∅ None) storeABC).
  - vm_compute. discriminate.
  - reflexivity.
Defined.

(* ------------------------------------------------------------------ *)
(** ** The override of an edge under an active path *)
(* ------------------------------------------------------------------ *)

Lemma edgeIndicesFrom_elem pathEdges id from idx :
  idx ∈ Store.edgeIndicesFrom pathEdges id from ↔
  from ≤ idx ∧ pathEdges !! Z.to_nat (idx - from) = Some id.
Proof.
  revert from. induction pathEdges as [|e rest IH]; intros from; simpl.
  - split; [intros H; by apply elem_of_nil in H | intros [_ H]; done].
  - assert (idx ∈ Store.edgeIndicesFrom rest id (from + 1) ↔
            from < idx ∧ rest !! Z.to_nat (idx - from - 1) = Some id) as Hrest.
    { rewrite IH. replace (idx - (from + 1)) with (idx - from - 1) by lia.
      split; intros [? ?]; (split; [lia | done]). }
    destruct (decide (e = id)) as [->|Hne].
    + rewrite elem_of_cons, Hrest. split.
      * intros [->|[Hlt Hl]].
        -- split; [lia|]. by rewrite Z.sub_diag.
        -- split; [lia|].
           replace (Z.to_nat (idx - from))
             with (S (Z.to_nat (idx - from - 1))) by lia. done.
      * intros [Hle Hl]. destruct (decide (idx = from)) as [->|]; [by left|].
        right. split; [lia|].
        replace (Z.to_nat (idx - from))
          with (S (Z.to_nat (idx - from - 1))) in Hl by lia. done.
    + rewrite Hrest. split.
      * intros [Hlt Hl]. split; [lia|].
        replace (Z.to_nat (idx - from))
          with (S (Z.to_nat (idx - from - 1))) by lia. done.
      * intros [Hle Hl]. destruct (decide (idx = from)) as [->|].
        -- rewrite Z.sub_diag in Hl. simpl in Hl. congruence.
        -- split; [lia|].
           replace (Z.to_nat (idx - from))
             with (S (Z.to_nat (idx - from - 1))) in Hl by lia. done.
Qed.

(** One index per occurrence of the edge id in the list. *)
Lemma edgeIndicesFrom_length pathEdges id from :
  length (Store.edgeIndicesFrom pathEdges id from)
  = length (filter (λ e, e = id) pathEdges).
Proof.
  revert from. induction pathEdges as [|e rest IH]; intros from; [done|].
  simpl. rewrite filter_cons.
  destruct (decide (e = id)); simpl; by rewrite IH.
Qed.

(** The loop over the occurrences counts the timed ones and sums their
    clamped differences. *)
Lemma sumOccurrences_fold timings startIndex indices st :
  let r := fold_left (Store.occurrenceStep timings startIndex) indices st in
  let counted := filter (timed timings startIndex) indices in
  Store.oc_count r = (Store.oc_count st + N.of_nat (length counted))%N ∧
  (Store.oc_totalDuration r
   == Store.oc_totalDuration st
      + sumQ (clampedDelta timings startIndex <$> counted))%Q.
Proof.
  revert st. induction indices as [|idx indices IH]; intros st; simpl.
  - split; [lia | ring].
  - destruct (IH (Store.occurrenceStep timings startIndex st idx))
      as [Hc Ht].
    rewrite Hc, Ht, occurrenceStep_timed, filter_cons.
    destruct (decide (timed timings startIndex idx)); csimpl.
    + split; [lia | ring].
    + done.
Qed.

Lemma sumOccurrences_spec timings startIndex indices :
  let counted := filter (timed timings startIndex) indices in
  Store.oc_count (Store.sumOccurrences timings startIndex indices)
  = N.of_nat (length counted) ∧
  (Store.oc_totalDuration (Store.sumOccurrences timings startIndex indices)
   == sumQ (clampedDelta timings startIndex <$> counted))%Q.
Proof.
  unfold Store.sumOccurrences.
  destruct (sumOccurrences_fold timings startIndex indices
              {| Store.oc_totalDuration := 0; Store.oc_count := 0 |})
    as [Hc Ht].
  split; [rewrite Hc; simpl; lia | rewrite Ht; simpl; ring].
Qed.

(** C8 (amended). The resolver applies this priority: (a) when the active
    path carries an average duration for the edge id, the override is
    built from that entry; (b) otherwise, when the edge occurs in the
    edge list of the path and the path carries a non-empty timing array
    together with its start index, the override sums the clamped
    differences of the occurrences whose two timestamps are both in the
    array, one term per such occurrence, provided there is at least one;
    (c) otherwise (no occurrence, no timing array, no start index, or no
    occurrence with both timestamps) the resolver returns null. *)
Theorem C8_override_priority (edge : Edge) (path : ExtendedPath) :
  let id := edge_id edge in
  let occurrences := Store.edgeIndices (edges path) id in
  (∀ idx, idx ∈ occurrences ↔
          0 ≤ idx ∧ edges path !! Z.to_nat idx = Some id) ∧
  length occurrences = length (filter (λ e, e = id) (edges path)) ∧
  (∀ avgDuration,
     lookupIn (_specificEdgeDurations path) id = Some avgDuration →
     Store.calculateEdgeOverride edge (Some path)
     = Some (Store.specificOverride path id avgDuration)) ∧
  (lookupIn (_specificEdgeDurations path) id = None →
   ∀ timings startIndex,
     _variantTimings path = Some timings →
     _startIndex path = Some startIndex →
     occurrences ≠ [] → timings ≠ [] →
     let counted := filter (timed timings startIndex) occurrences in
     let oc := Store.sumOccurrences timings startIndex occurrences in
     Store.oc_count oc = N.of_nat (length counted) ∧
     (Store.oc_totalDuration oc
      == sumQ (clampedDelta timings startIndex <$> counted))%Q ∧
     Store.calculateEdgeOverride edge (Some path)
     = if decide (counted = []) then None
       else Some (Store.variantOverride path oc)) ∧
  (lookupIn (_specificEdgeDurations path) id = None →
   occurrences = [] ∨ _variantTimings path = None ∨
   _variantTimings path = Some [] ∨ _startIndex path = None →
   Store.calculateEdgeOverride edge (Some path) = None) ∧
  Store.calculateEdgeOverride edge None = None.
Proof.
  intros id occurrences.
  split.
  { intros idx. unfold occurrences, Store.edgeIndices.
    rewrite edgeIndicesFrom_elem. by rewrite Z.sub_0_r. }
  split; [apply edgeIndicesFrom_length|].
  split; [|split; [|split; [|done]]].
  - intros avgDuration H. unfold Store.calculateEdgeOverride.
    fold id. by rewrite H.
  - intros Hnone timings startIndex Ht Hs Hocc Htim counted oc.
    destruct (sumOccurrences_spec timings startIndex occurrences)
      as [Hc Hsum].
    fold counted oc in Hc, Hsum. split; [done|]. split; [done|].
    unfold Store.calculateEdgeOverride. fold id. rewrite Hnone, Ht, Hs.
    fold occurrences. fold oc.
    rewrite decide_True.
    + rewrite Hc. destruct (decide (counted = [])) as [->|Hne].
      * rewrite decide_False; [done | simpl; lia].
      * rewrite decide_True; [done|].
        destruct counted; [done | simpl; lia].
    + unfold Js.len. destruct occurrences, timings; simpl; try done.
  - intros Hnone Hcases. unfold Store.calculateEdgeOverride. fold id.
    rewrite Hnone. fold occurrences.
    destruct (_variantTimings path) as [timings|]; [|done].
    destruct (_startIndex path) as [startIndex|]; [|done].
    rewrite decide_False; [done|]. unfold Js.len.
    intros [Ho Ht]. destruct Hcases as [H|[H|[H|H]]]; try done.
    + rewrite H in Ho. simpl in Ho. lia.
    + injection H as ->. simpl in Ht. lia.
Qed.

Lemma C8_override_priority_witness :
  let path := truncatedPath in
  let edge := Store.overlayEdge true "A->B" in
  Store.calculateEdgeOverride edge (Some path) = None.
Proof.
  intros path edge.
  destruct (C8_override_priority edge path) as (_ & _ & _ & Hb & _).
  apply (Hb eq_refl [0%Q] 0 eq_refl eq_refl); vm_compute; discriminate.
Defined.

(** C8 does not hold without the timestamps: the edge A->B occurs in the
    edge list of the path, the path carries a timing array and no average
    for the edge, and yet the resolver returns null instead of a sum of
    deltas. *)
Lemma C8_counterexample_untimed_occurrence :
  let path := truncatedPath in
  let edge := Store.overlayEdge true "A->B" in
  lookupIn (_specificEdgeDurations path) (edge_id edge) = None ∧
  Store.edgeIndices (edges path) (edge_id edge) = [0] ∧
  _variantTimings path = Some [0%Q] ∧
  Store.calculateEdgeOverride edge (Some path) = None.
Proof. repeat split; vm_compute; reflexivity. Qed.

(* ------------------------------------------------------------------ *)
(** ** The shape of the paths that are found *)
(* ------------------------------------------------------------------ *)

Lemma orderedBy_nil {A} (le : A → A → Prop) : orderedBy le [].
Proof. intros i j a b _ Hi. by rewrite lookup_nil in Hi. Qed.

Lemma orderedBy_cons {A} (le : A → A → Prop) (x : A) (l : list A) :
  orderedBy le (x :: l) ↔ Forall (le x) l ∧ orderedBy le l.
Proof.
  split.
  - intros H. split.
    + apply Forall_lookup. intros j b Hb. by apply (H 0%nat (S j) x b); [lia| |].
    + intros i j a b Hij Ha Hb. by apply (H (S i) (S j) a b); [lia| |].
  - intros [Hx Hl] [|i] [|j] a b Hij Ha Hb; simpl in *; try lia.
    + injection Ha as <-. eapply Forall_lookup_1 in Hx; eauto.
    + apply (Hl i j a b); [lia|done..].
Qed.

Lemma window_shape (startId endId : string) (variant : Variant) :
  qualifies startId endId variant →
  let path := Variant_Path variant in
  let s := Routing.resolveStartIndex startId path in
  let e := Routing.resolveEndIndex endId path in
  let w := windowOf startId endId variant in
  0 ≤ s ∧ s < e ∧ e < Js.len path ∧
  Js.len w = e - s + 1 ∧
  head w = path !! Z.to_nat s ∧ last w = path !! Z.to_nat e.
Proof.
  intros Hq path s e w.
  destruct (kept_window_bounds startId endId path Hq) as (H0 & Hse & He).
  fold s e in H0, Hse, He.
  destruct (slice_inclusive path s e H0 Hse He) as [Hlen Hk].
  change (Js.slice path s (e + 1)) with w in Hlen, Hk.
  repeat split; try done.
  - rewrite head_lookup, Hk; [by rewrite Nat.add_0_r|]. unfold Js.len in Hlen. lia.
  - rewrite last_lookup, Hk.
    + f_equal. unfold Js.len in Hlen. lia.
    + unfold Js.len in Hlen. lia.
Qed.

(** The end points of a window: the chosen ids, or the ends of the trace
    for the sentinels. *)
Lemma window_endpoints (startId endId : string) (variant : Variant) :
  qualifies startId endId variant →
  let w := windowOf startId endId variant in
  2 ≤ Js.len w ∧
  head w = (if decide (startId = START_NODE) then head (Variant_Path variant)
            else Some startId) ∧
  last w = (if decide (endId = END_NODE) then last (Variant_Path variant)
            else Some endId).
Proof.
  intros Hq w.
  destruct (window_shape startId endId variant Hq)
    as (H0 & Hse & He & Hlen & Hhead & Hlast).
  fold w in Hlen, Hhead, Hlast.
  split; [lia|]. split.
  - rewrite Hhead.
    pose proof (resolveStartIndex_spec startId (Variant_Path variant)) as Hs.
    destruct (decide (startId = START_NODE)).
    + rewrite Hs. by rewrite head_lookup.
    + destruct Hs as [[Hs _]|(_ & Hs & _)]; [lia | done].
  - rewrite Hlast.
    pose proof (resolveEndIndex_spec endId (Variant_Path variant)) as Hs.
    destruct (decide (endId = END_NODE)).
    + rewrite Hs, last_lookup. f_equal. unfold Js.len. lia.
    + destruct Hs as [[Hs _]|(_ & Hs & _)]; [lia | done].
Qed.

Lemma extractVariant_edges startId endId variant p :
  Routing.extractVariant startId endId variant = Some p → edges p = [].
Proof.
  unfold Routing.extractVariant. intros H.
  repeat case_decide; try done; by injection H as <-.
Qed.

Lemma extractVariant_window startId endId variant p :
  Routing.extractVariant startId endId variant = Some p →
  qualifies startId endId variant ∧ nodes p = windowOf startId endId variant.
Proof.
  intros H. pose proof (extractVariant_cases startId endId variant) as Hc.
  simpl in Hc. rewrite H in Hc. destruct Hc as (Hk & Hn & _). done.
Qed.

(** Where a path of the result comes from: the first extracted path of
    its group. *)
Lemma found_path_origin startId endId variants merged :
  merged ∈ Routing.findPathsBetweenNodes startId endId variants →
  ∃ v first g,
    v ∈ variants ∧ Routing.extractVariant startId endId v = Some first ∧
    merged = Routing.mergeGroup g ∧ Routing.g_path g = first.
Proof.
  unfold Routing.findPathsBetweenNodes. case_decide; [by intros ?%elem_of_nil|].
  intros (g & -> & Hne & Hspec)%aggregate_elem.
  destruct Hspec as (Hhead & _).
  assert (Routing.g_path g ∈ Routing.extractPaths startId endId variants)
    as Hin.
  { apply head_Some_elem_of in Hhead.
    unfold sameKey in Hhead. apply list_elem_of_filter in Hhead. tauto. }
  apply list_elem_of_omap in Hin as (v & Hv & Hex).
  by exists v, (Routing.g_path g), g.
Qed.

Lemma insertByFrequency_elem a x l :
  x ∈ Routing.insertByFrequency a l ↔ x = a ∨ x ∈ l.
Proof.
  induction l as [|b l IH]; simpl.
  - rewrite list_elem_of_singleton, elem_of_nil. tauto.
  - case_decide; rewrite !elem_of_cons; [rewrite IH|]; tauto.
Qed.

Lemma insertByFrequency_ordered a l :
  orderedBy (λ p q, (reportedFrequency q ≤ reportedFrequency p)%N) l →
  orderedBy (λ p q, (reportedFrequency q ≤ reportedFrequency p)%N)
    (Routing.insertByFrequency a l).
Proof.
  induction l as [|b l IH]; simpl; intros Hl.
  - apply orderedBy_cons. split; [constructor | apply orderedBy_nil].
  - apply orderedBy_cons in Hl as [Hb Hl]. unfold reportedFrequency in *.
    case_decide as Hlt; apply orderedBy_cons.
    + split; [|by apply IH]. apply Forall_forall. intros x Hx.
      apply insertByFrequency_elem in Hx as [->|Hx]; [lia|].
      by eapply Forall_forall in Hb.
    + split; [|by apply orderedBy_cons]. constructor; [lia|].
      eapply Forall_impl; [exact Hb|]. simpl. intros x Hx. lia.
Qed.

Lemma sortByFrequency_ordered l :
  orderedBy (λ p q, (reportedFrequency q ≤ reportedFrequency p)%N)
    (Routing.sortByFrequency l).
Proof.
  induction l as [|a l IH]; simpl; [apply orderedBy_nil|].
  by apply insertByFrequency_ordered.
Qed.

Lemma merged_keys paths :
  Routing.pathKey <$> (Routing.mergeGroup <$> JsMap.values (Routing.groupPaths paths))
  = JsMap.keys (Routing.groupPaths paths).
Proof.
  pose proof (groupPaths_groupsOf paths) as Hg.
  assert (∀ k g, (k, g) ∈ Routing.groupPaths paths →
                 Routing.pathKey (Routing.mergeGroup g) = k) as Hk.
  { intros k g Hin. by destruct (groupsOf_key _ _ _ _ Hg Hin) as (_ & ? & _). }
  revert Hk. generalize (Routing.groupPaths paths). intros m.
  induction m as [|[k g] m IH]; intros Hk; [done|].
  unfold JsMap.values, JsMap.keys in *. csimpl. f_equal.
  - apply Hk. left.
  - apply IH. intros k' g' Hin. apply Hk. by right.
Qed.

Lemma aggregate_keys paths :
  Routing.pathKey <$> Routing.aggregatePaths paths
  ≡ₚ JsMap.keys (Routing.groupPaths paths).
Proof.
  unfold Routing.aggregatePaths.
  rewrite sortByFrequency_Permutation. by rewrite merged_keys.
Qed.

Lemma groupPaths_key paths k :
  k ∈ JsMap.keys (Routing.groupPaths paths) ↔ ∃ p, p ∈ paths ∧ Routing.pathKey p = k.
Proof.
  destruct (groupPaths_groupsOf paths) as [_ Hg]. specialize (Hg k).
  destruct (JsMap.get k (Routing.groupPaths paths)) as [g|] eqn:E.
  - assert (k ∈ JsMap.keys (Routing.groupPaths paths)) as Hin.
    { destruct (decide (k ∈ JsMap.keys (Routing.groupPaths paths))); [done|].
      apply JsMap_get_None in n. congruence. }
    split; [intros _|done]. destruct Hg as [Hne _].
    destruct (sameKey k paths) as [|p grp] eqn:Es; [done|].
    assert (p ∈ sameKey k paths) as Hp by (rewrite Es; left).
    apply list_elem_of_filter in Hp. exists p. tauto.
  - apply JsMap_get_None in E. split; [done|]. intros (p & Hp & Hk).
    assert (p ∈ sameKey k paths) as Hp'.
    { apply list_elem_of_filter. done. }
    rewrite Hg in Hp'. by apply elem_of_nil in Hp'.
Qed.

Lemma extractPaths_key startId endId variants k :
  (∃ p, p ∈ Routing.extractPaths startId endId variants ∧ Routing.pathKey p = k)
  ↔ ∃ v, v ∈ variants ∧ qualifies startId endId v ∧
         Js.join "->" (windowOf startId endId v) = k.
Proof.
  split.
  - intros (p & (v & Hv & Hex)%list_elem_of_omap & Hk).
    apply extractVariant_window in Hex as [Hq Hn].
    exists v. unfold Routing.pathKey in Hk. by rewrite Hn in Hk.
  - intros (v & Hv & Hq & Hk).
    pose proof (extractVariant_cases startId endId v) as Hc. simpl in Hc.
    destruct (Routing.extractVariant startId endId v) as [p|] eqn:E; [|done].
    exists p. split; [apply list_elem_of_omap; eauto|].
    destruct Hc as (_ & Hn & _). unfold Routing.pathKey. by rewrite Hn.
Qed.

Lemma findPaths_aggregate startId endId variants :
  Routing.findPathsBetweenNodes startId endId variants
  = Routing.aggregatePaths (Routing.extractPaths startId endId variants).
Proof.
  unfold Routing.findPathsBetweenNodes. case_decide as H; [|done].
  destruct variants; [done|]. unfold Js.len in H. simpl in H. lia.
Qed.

(** X1. Every path that [findPathsBetweenNodes] returns is the window of a
    qualifying variant of the input: it has at least two nodes, starts at
    the start id and ends at the end id (at the first, respectively last,
    node of that variant for the sentinels [START_NODE] and [END_NODE]),
    and carries no edge list. *)
Theorem found_paths_run_between (startId endId : string)
    (variants : list Variant) (p : ExtendedPath) :
  p ∈ Routing.findPathsBetweenNodes startId endId variants →
  ∃ v, v ∈ variants ∧ qualifies startId endId v ∧
       nodes p = windowOf startId endId v ∧
       2 ≤ Js.len (nodes p) ∧
       head (nodes p)
       = (if decide (startId = START_NODE) then head (Variant_Path v)
          else Some startId) ∧
       last (nodes p)
       = (if decide (endId = END_NODE) then last (Variant_Path v)
          else Some endId) ∧
       edges p = [].
Proof.
  intros (v & first & g & Hv & Hex & -> & Hg)%found_path_origin.
  exists v. pose proof (extractVariant_edges _ _ _ _ Hex) as He.
  apply extractVariant_window in Hex as [Hq Hn].
  change (nodes (Routing.mergeGroup g)) with (nodes (Routing.g_path g)).
  change (edges (Routing.mergeGroup g)) with (edges (Routing.g_path g)).
  rewrite Hg, Hn.
  destruct (window_endpoints startId endId v Hq) as (? & ? & ?).
  done.
Qed.

Lemma loopVariant_found :
  ∃ p, Routing.findPathsBetweenNodes "X" "Z" [loopVariant] = [p].
Proof. eexists. vm_compute. reflexivity. Qed.

Lemma found_paths_run_between_witness :
  ∃ p, p ∈ Routing.findPathsBetweenNodes "X" "Z" [loopVariant] ∧
       head (nodes p) = Some "X" ∧ last (nodes p) = Some "Z".
Proof.
  destruct loopVariant_found as [p Hp].
  assert (p ∈ Routing.findPathsBetweenNodes "X" "Z" [loopVariant]) as Hin
    by (rewrite Hp; left).
  exists p. split; [done|].
  destruct (found_paths_run_between "X" "Z" [loopVariant] p Hin)
    as (v & _ & _ & _ & _ & Hh & Hl & _).
  done.
Defined.

(** X2. The paths that [findPathsBetweenNodes] returns are in the order of
    their frequencies, the most frequent first. *)
Theorem found_paths_most_frequent_first (startId endId : string)
    (variants : list Variant) :
  orderedBy (λ p q, (reportedFrequency q ≤ reportedFrequency p)%N)
    (Routing.findPathsBetweenNodes startId endId variants).
Proof.
  rewrite findPaths_aggregate. apply sortByFrequency_ordered.
Qed.

Lemma found_paths_most_frequent_first_witness :
  ∃ p q,
    Routing.findPathsBetweenNodes "A" "C"
      [traceOf ["A"; "B"; "C"] 1; traceOf ["A"; "C"] 5] !! 0%nat = Some p ∧
    Routing.findPathsBetweenNodes "A" "C"
      [traceOf ["A"; "B"; "C"] 1; traceOf ["A"; "C"] 5] !! 1%nat = Some q ∧
    nodes p = ["A"; "C"] ∧ nodes q = ["A"; "B"; "C"] ∧
    (reportedFrequency q ≤ reportedFrequency p)%N.
Proof.
  eexists. eexists.
  split; [vm_compute; reflexivity|]. split; [vm_compute; reflexivity|].
  split; [reflexivity|]. split; [reflexivity|].
  refine (found_paths_most_frequent_first "A" "C"
            [traceOf ["A"; "B"; "C"] 1; traceOf ["A"; "C"] 5]
            0%nat 1%nat _ _ _ _ _).
  - lia.
  - vm_compute. reflexivity.
  - vm_compute. reflexivity.
Defined.

(** X3. [findPathsBetweenNodes] returns one path per distinct window: no two
    paths of the result have the same key or the same node sequence, a
    key occurs in the result exactly when it is the joined window of a
    qualifying variant, and the result is empty exactly when no variant
    qualifies. *)
Theorem found_paths_one_per_window (startId endId : string)
    (variants : list Variant) :
  let found := Routing.findPathsBetweenNodes startId endId variants in
  NoDup (Routing.pathKey <$> found) ∧
  NoDup (nodes <$> found) ∧
  (∀ k, k ∈ Routing.pathKey <$> found ↔
        ∃ v, v ∈ variants ∧ qualifies startId endId v ∧
             Js.join "->" (windowOf startId endId v) = k) ∧
  (found = [] ↔ Forall (λ v, ¬ qualifies startId endId v) variants).
Proof.
  intros found. subst found. rewrite findPaths_aggregate.
  set (paths := Routing.extractPaths startId endId variants).
  pose proof (aggregate_keys paths) as Hperm.
  assert (NoDup (Routing.pathKey <$> Routing.aggregatePaths paths)) as Hnd.
  { rewrite Hperm. by destruct (groupPaths_groupsOf paths). }
  assert (∀ k, k ∈ Routing.pathKey <$> Routing.aggregatePaths paths ↔
               ∃ v, v ∈ variants ∧ qualifies startId endId v ∧
                    Js.join "->" (windowOf startId endId v) = k) as Hkeys.
  { intros k. rewrite Hperm, groupPaths_key. apply extractPaths_key. }
  split; [done|]. split.
  - apply (NoDup_fmap_1 (Js.join "->")). by rewrite <- list_fmap_compose.
  - split; [done|]. split.
    + intros Hnil. apply Forall_forall. intros v Hv Hq.
      assert (Js.join "->" (windowOf startId endId v)
              ∈ Routing.pathKey <$> Routing.aggregatePaths paths) as Hin.
      { apply Hkeys. eauto. }
      rewrite Hnil in Hin. by apply elem_of_nil in Hin.
    + intros Hall.
      destruct (Routing.aggregatePaths paths) as [|p rest] eqn:E; [done|].
      assert (Routing.pathKey p ∈ Routing.pathKey <$> p :: rest) as Hin
        by (csimpl; left).
      apply Hkeys in Hin as (v & Hv & Hq & _).
      by eapply Forall_forall in Hall.
Qed.

(** X4. A variant qualifies for a query exactly when its trace holds the
    start id at a position before a position that holds the end id; for
    the sentinels the position is the first, respectively the last, of the
    trace. *)
Theorem qualifies_iff_start_before_end (startId endId : string)
    (variant : Variant) :
  let path := Variant_Path variant in
  qualifies startId endId variant ↔
  ∃ i j : nat,
    (i < j < length path)%nat ∧
    (if decide (startId = START_NODE) then i = 0%nat
     else path !! i = Some startId) ∧
    (if decide (endId = END_NODE) then j = (length path - 1)%nat
     else path !! j = Some endId).
Proof.
  intros path. split.
  - intros Hq.
    destruct (kept_window_bounds startId endId path Hq) as (H0 & Hse & He).
    pose proof (resolveStartIndex_spec startId path) as Hs.
    pose proof (resolveEndIndex_spec endId path) as Hl.
    exists (Z.to_nat (Routing.resolveStartIndex startId path)),
           (Z.to_nat (Routing.resolveEndIndex endId path)).
    unfold Js.len in He. split; [lia|]. split.
    + destruct (decide (startId = START_NODE)); [lia|].
      destruct Hs as [[Hs _]|(_ & Hs & _)]; [lia | done].
    + destruct (decide (endId = END_NODE)); [unfold Js.len in Hl; lia|].
      destruct Hl as [[Hl _]|(_ & Hl & _)]; [lia | done].
  - intros (i & j & Hij & Hi & Hj).
    pose proof (resolveStartIndex_spec startId path) as Hs.
    pose proof (resolveEndIndex_spec endId path) as Hl.
    unfold qualifies, discarded. fold path.
    assert (0 ≤ Routing.resolveStartIndex startId path ≤ Z.of_nat i) as Hsi.
    { destruct (decide (startId = START_NODE)); [lia|].
      destruct Hs as [[_ Hs]|(Hs0 & _ & Hs)].
      - exfalso. apply Hs. by eapply list_elem_of_lookup_2.
      - split; [done|].
        destruct (decide (Routing.resolveStartIndex startId path ≤ Z.of_nat i));
          [done|].
        exfalso. apply (Hs i); [lia | done]. }
    assert (Z.of_nat j ≤ Routing.resolveEndIndex endId path) as Hje.
    { destruct (decide (endId = END_NODE)); [unfold Js.len in Hl; lia|].
      destruct Hl as [[_ Hl]|(Hl0 & _ & Hl)].
      - exfalso. apply Hl. by eapply list_elem_of_lookup_2.
      - destruct (decide (Z.of_nat j ≤ Routing.resolveEndIndex endId path));
          [done|].
        exfalso. apply (Hl j); [lia | done]. }
    lia.
Qed.

(* ------------------------------------------------------------------ *)
(** ** The timing loop of the extractor *)
(* ------------------------------------------------------------------ *)

Lemma filter_all {A} (P : A → Prop) `{!∀ x, Decision (P x)} (l : list A) :
  Forall P l → filter P l = l.
Proof.
  induction 1 as [|x l Hx Hl IH]; [done|].
  rewrite filter_cons. destruct (decide (P x)); [by rewrite IH | done].
Qed.

Lemma fold_left_Qplus_nonneg (l : list Q) (acc : Q) :
  (0 <= acc)%Q → Forall (λ d, (0 <= d)%Q) l →
  (acc <= fold_left Qplus l acc)%Q ∧
  Forall (λ d, (d <= fold_left Qplus l acc)%Q) l.
Proof.
  intros Hacc Hl. revert acc Hacc.
  induction Hl as [|d l Hd Hl IH]; intros acc Hacc; simpl.
  - split; [apply Qle_refl | constructor].
  - assert (0 <= acc + d)%Q as Hsum.
    { replace 0%Q with (0 + 0)%Q by done. by apply Qplus_le_compat. }
    destruct (IH _ Hsum) as [Hle Hall]. split; [|constructor; [|done]].
    + eapply Qle_trans; [|exact Hle].
      rewrite <- (Qplus_0_r acc) at 1. by apply Qplus_le_r.
    + eapply Qle_trans; [|exact Hle].
      rewrite <- (Qplus_0_l d) at 1. by apply Qplus_le_l.
Qed.

Lemma timingLoopFrom_total variant remaining i st :
  Routing.tm_totalDuration (Routing.timingLoopFrom variant remaining i st)
  = fold_left Qplus
      (Routing.avgDurationAt variant
         <$> filter (λ j : Z, j + 1 < Js.len (Avg_Timings variant))
               (seqZ i (Z.of_nat remaining)))
      (Routing.tm_totalDuration st).
Proof.
  revert i st. induction remaining as [|r IH]; intros i st.
  - by rewrite seqZ_nil by lia.
  - simpl Routing.timingLoopFrom.
    destruct (timingLoopFrom_stop variant (S r) i) as [_ Hf]. 
    destruct (decide (i + 1 < Js.len (Avg_Timings variant))) as [Hlt|Hge].
    + rewrite IH. rewrite (seqZ_cons i) by lia.
      rewrite filter_cons, decide_True by done.
      replace (Z.pred (Z.of_nat (S r))) with (Z.of_nat r) by lia.
      replace (Z.succ i) with (i + 1) by lia. done.
    + rewrite Hf. rewrite seqZ_nil by lia. done.
Qed.

Lemma timingLoop_total variant lo hi :
  lo ≤ hi →
  Routing.tm_totalDuration (Routing.timingLoop variant lo hi)
  = fold_left Qplus
      (Routing.avgDurationAt variant
         <$> filter (λ j : Z, j + 1 < Js.len (Avg_Timings variant))
               (seqZ lo (hi - lo)))
      0%Q.
Proof.
  intros Hle. unfold Routing.timingLoop. rewrite timingLoopFrom_total.
  by rewrite Z2Nat.id by lia.
Qed.

(** X5. The duration that an extracted path records for an edge is the
    clamped difference at the last step of the window that traverses the
    edge and has both timestamps: a later pass overwrites an earlier one,
    the passes are neither added nor averaged. An edge without such a
    step has no record. *)
Theorem extracted_edge_duration_is_last_pass (startId endId : string)
    (variant : Variant) (p : ExtendedPath) (e : string) :
  Routing.extractVariant startId endId variant = Some p →
  let lo := Routing.resolveStartIndex startId (Variant_Path variant) in
  let hi := Routing.resolveEndIndex endId (Variant_Path variant) in
  lookupIn (_specificEdgeDurations p) e
  = Routing.avgDurationAt variant <$> last (passesOf variant lo hi e) ∧
  lookupIn (_specificTotalDurations p) e
  = Routing.totalTimingDurationAt variant <$> last (passesOf variant lo hi e).
Proof.
  intros H lo hi.
  destruct (extractVariant_timings _ _ _ _ H) as (_ & Ha & Hb).
  fold lo hi in Ha, Hb. rewrite Ha, Hb.
  apply extractVariant_window in H as [Hq _].
  destruct (kept_window_bounds _ _ _ Hq) as (H0 & Hlt & _). fold lo hi in H0, Hlt.
  destruct (decide (0 < Js.len (Avg_Timings variant))) as [Hlen|Hlen].
  - destruct (timingLoop_spec variant lo hi) as (_ & Hc & Hd); [lia|].
    by rewrite Hc, Hd.
  - assert (passesOf variant lo hi e = []) as ->; [|done].
    apply filter_none. apply Forall_forall. intros i Hi%elem_of_seqZ. lia.
Qed.

Lemma extracted_edge_duration_is_last_pass_witness :
  ∃ p, Routing.extractVariant "X" "Z" loopVariant = Some p ∧
       lookupIn (_specificEdgeDurations p) "X->Y" = Some 5%Q.
Proof.
  eexists. split; [reflexivity|].
  refine (eq_trans
            (proj1 (extracted_edge_duration_is_last_pass "X" "Z" loopVariant
                      _ "X->Y" eq_refl)) _).
  vm_compute. reflexivity.
Defined.

(** X6. The total duration of an extracted path is the sum, taken from 0
    in the order of the trace, of the clamped durations of the steps of
    the window that have both timestamps. It is not negative and no
    duration recorded for an edge of the path exceeds it. When the variant
    has timings, the same total is the [_variantDuration] of the path and
    the average duration is the total divided by the number of edges of
    the window; without timings the total and the average are 0. *)
Theorem extracted_total_sums_clamped_steps (startId endId : string)
    (variant : Variant) (p : ExtendedPath) :
  Routing.extractVariant startId endId variant = Some p →
  let lo := Routing.resolveStartIndex startId (Variant_Path variant) in
  let hi := Routing.resolveEndIndex endId (Variant_Path variant) in
  let steps :=
    filter (λ j : Z, j + 1 < Js.len (Avg_Timings variant)) (seqZ lo (hi - lo)) in
  let total := fold_left Qplus (Routing.avgDurationAt variant <$> steps) 0%Q in
  totalDuration p = Some total ∧
  (0 <= total)%Q ∧
  (∀ e d, lookupIn (_specificEdgeDurations p) e = Some d → (d <= total)%Q) ∧
  (0 < Js.len (Avg_Timings variant) →
   _variantDuration p = Some total ∧
   averageDuration p = Some (total / inject_Z (hi - lo))%Q) ∧
  (Js.len (Avg_Timings variant) = 0 →
   _variantDuration p = None ∧ averageDuration p = Some 0%Q).
Proof.
  intros H lo hi steps total.
  pose proof (extractVariant_window _ _ _ _ H) as [Hq Hn].
  destruct (window_shape _ _ _ Hq) as (H0 & Hlt & _ & Hlen & _).
  fold lo hi in H0, Hlt, Hlen.
  assert (Forall (λ d, (0 <= d)%Q) (Routing.avgDurationAt variant <$> steps))
    as Hpos.
  { apply Forall_fmap, Forall_forall. intros i _. apply max0_nonneg. }
  destruct (fold_left_Qplus_nonneg _ 0%Q (Qle_refl 0) Hpos) as [Hge Hall].
  fold total in Hge, Hall.
  assert (∀ e d, Routing.tm_edgeDurations (Routing.timingLoop variant lo hi) !! e
                 = Some d → (d <= total)%Q) as Hedge.
  { intros e d He.
    destruct (timingLoop_spec variant lo hi) as (_ & Hd & _); [lia|].
    rewrite Hd in He.
    destruct (last _) as [i|] eqn:Hlast; [|done]. injection He as <-.
    apply last_elem, passesOf_elem in Hlast as (Hi & Ht & _).
    rewrite Forall_forall in Hall. apply Hall.
    apply list_elem_of_fmap. exists i. split; [done|].
    apply list_elem_of_filter. split; [done|]. apply elem_of_seqZ. lia. }
  unfold Routing.extractVariant in H. fold lo hi in H.
  destruct (decide (lo = -1)); [done|].
  destruct (decide (hi = -1 ∨ hi ≤ lo)); [done|].
  destruct (decide (0 < Js.len (Avg_Timings variant))) as [Hlen0|Hlen0];
    injection H as <-; simpl.
  - rewrite timingLoop_total by lia. fold steps total.
    split; [done|]. split; [done|]. split; [exact Hedge|].
    split; [|intros ?; unfold Js.len in *; lia]. intros _. split; [done|].
    unfold Routing.averagePerEdge.
    change (Js.slice (Variant_Path variant) lo (hi + 1))
      with (windowOf startId endId variant).
    rewrite Hlen. rewrite decide_True by lia.
    by replace (hi - lo + 1 - 1) with (hi - lo) by lia.
  - assert (steps = []) as Hsteps.
    { apply filter_none, Forall_forall. intros i Hi%elem_of_seqZ. lia. }
    subst total. rewrite Hsteps. simpl.
    split; [done|]. split; [done|]. split; [done|].
    split; [intros ?; unfold Js.len in *; lia|]. intros _. done.
Qed.

Lemma extracted_total_sums_clamped_steps_witness :
  ∃ p, Routing.extractVariant "A" "C" noisyVariant = Some p ∧
       totalDuration p = Some 5%Q ∧ averageDuration p = Some (5 / 2)%Q.
Proof.
  eexists. split; [reflexivity|].
  destruct (extracted_total_sums_clamped_steps "A" "C" noisyVariant _ eq_refl)
    as (Ht & _ & _ & Ha & _).
  destruct (Ha ltac:(vm_compute; reflexivity)) as [_ Hav].
  split.
  - refine (eq_trans Ht _). vm_compute. reflexivity.
  - refine (eq_trans Hav _). vm_compute. reflexivity.
Defined.

(* ------------------------------------------------------------------ *)
(** ** Ingestion: the nodes and the anchor edges *)
(* ------------------------------------------------------------------ *)

Lemma keyedBy_values {V} (key : V → string) (m : JsMap.t V) :
  keyedBy key m → key <$> JsMap.values m = JsMap.keys m.
Proof.
  intros [_ Hk]. unfold JsMap.values, JsMap.keys.
  induction m as [|[k v] m IH]; [done|]. csimpl. f_equal.
  - apply Hk. left.
  - apply IH. intros k' v' Hin. apply Hk. by right.
Qed.

Lemma keyedBy_elem {V} (key : V → string) (m : JsMap.t V) (v : V) :
  keyedBy key m → v ∈ JsMap.values m ↔ JsMap.get (key v) m = Some v.
Proof.
  intros [Hnd Hk]. unfold JsMap.values. split.
  - intros ([k v'] & -> & Hin)%list_elem_of_fmap. simpl.
    rewrite (Hk _ _ Hin). by apply JsMap_elem_get.
  - intros Hin%JsMap_get_Some_elem. apply list_elem_of_fmap.
    by exists (key v, v).
Qed.

Lemma keyedBy_key_elem {V} (key : V → string) (m : JsMap.t V) (k : string) :
  keyedBy key m → k ∈ key <$> JsMap.values m ↔ is_Some (JsMap.get k m).
Proof.
  intros Hm. rewrite (keyedBy_values key m Hm).
  destruct (JsMap.get k m) as [v|] eqn:E.
  - split; [by eauto|intros _].
    destruct (decide (k ∈ JsMap.keys m)) as [|Hn]; [done|].
    apply JsMap_get_None in Hn. congruence.
  - apply JsMap_get_None in E. split; [done|]. by intros [? ?].
Qed.

Lemma setIfAbsent_get {V} (k k' : string) (v : V) (m : JsMap.t V) :
  JsMap.get k' (Store.setIfAbsent k v m)
  = match JsMap.get k' m with
    | Some x => Some x
    | None => if decide (k = k') then Some v else None
    end.
Proof.
  unfold Store.setIfAbsent, JsMap.has.
  destruct (JsMap.get k m) as [x|] eqn:E.
  - destruct (JsMap.get k' m) eqn:E'; [done|].
    destruct (decide (k = k')) as [->|]; [congruence | done].
  - destruct (decide (k = k')) as [->|Hne].
    + by rewrite JsMap_get_set_eq, E.
    + rewrite JsMap_get_set_ne by done. by destruct (JsMap.get k' m).
Qed.

Lemma setIfAbsent_keyedBy {V} (key : V → string) (k : string) (v : V)
    (m : JsMap.t V) :
  key v = k → keyedBy key m → keyedBy key (Store.setIfAbsent k v m).
Proof.
  intros Hk Hm. unfold Store.setIfAbsent.
  destruct (JsMap.has k m); [done | by apply keyedBy_set].
Qed.

Lemma activitiesOf_snoc processed item :
  activitiesOf (processed ++ [item])
  = activitiesOf processed ++ [Source_Activity item; Target_Activity item].
Proof. unfold activitiesOf. rewrite bind_app. csimpl. done. Qed.

Lemma collectValidNodeIds_elem graphData id :
  id ∈ Store.collectValidNodeIds graphData ↔ id ∈ activitiesOf graphData.
Proof.
  unfold Store.collectValidNodeIds.
  assert (∀ acc : gset string,
            id ∈ fold_left
                   (λ ids item,
                      {[Target_Activity item]} ∪ ({[Source_Activity item]} ∪ ids))
                   graphData acc
            ↔ id ∈ acc ∨ id ∈ activitiesOf graphData) as H.
  { induction graphData as [|item rest IH]; intros acc; simpl.
    - unfold activitiesOf. csimpl. rewrite elem_of_nil. tauto.
    - rewrite IH. unfold activitiesOf. csimpl.
      rewrite !elem_of_union, !elem_of_singleton, !elem_of_cons. tauto. }
  rewrite H. rewrite elem_of_empty. tauto.
Qed.

(** The nodes map after the rows [processed] of [graphData]. *)
Lemma ingestFold_nodes starts ends graphData processed maps :
  (keyedBy node_id maps.1 ∧
   ∀ id, JsMap.get id maps.1
         = if decide (id ∈ activitiesOf processed)
           then Some (Store.activityNode id starts ends) else None) →
  let result := fold_left (Store.ingestStep starts ends) graphData maps in
  keyedBy node_id result.1 ∧
  ∀ id, JsMap.get id result.1
        = if decide (id ∈ activitiesOf (processed ++ graphData))
          then Some (Store.activityNode id starts ends) else None.
Proof.
  revert processed maps. induction graphData as [|item rest IH];
    intros processed maps [Hk Hget]; simpl.
  - by rewrite app_nil_r.
  - replace (processed ++ item :: rest) with ((processed ++ [item]) ++ rest)
      by (by rewrite <- app_assoc).
    apply IH. simpl. split.
    + by repeat apply setIfAbsent_keyedBy.
    + intros id. rewrite !setIfAbsent_get, Hget, activitiesOf_snoc.
      destruct (decide (id ∈ activitiesOf processed)) as [Hin|Hout].
      * rewrite decide_True; [done|]. apply elem_of_app. by left.
      * destruct (decide (Source_Activity item = id)) as [<-|Hs].
        { rewrite decide_True; [done|]. apply elem_of_app. right. left. }
        destruct (decide (Target_Activity item = id)) as [<-|Ht].
        { rewrite decide_True; [done|]. apply elem_of_app. right. right. left. }
        rewrite decide_False; [done|].
        rewrite elem_of_app, !elem_of_cons, elem_of_nil.
        intros [?|[?|[?|[]]]]; congruence.
Qed.

Lemma ingest_nodes graphData starts ends :
  keyedBy node_id (Store.ingest graphData starts ends).1 ∧
  ∀ id, JsMap.get id (Store.ingest graphData starts ends).1
        = if decide (id = END_NODE) then Some Store.endNode
          else if decide (id = START_NODE) then Some Store.startNode
          else if decide (id ∈ activitiesOf graphData)
          then Some (Store.activityNode id starts ends) else None.
Proof.
  unfold Store.ingest. simpl.
  destruct (ingestFold_nodes starts ends graphData []
              (JsMap.empty, JsMap.empty)) as [Hk Hget].
  { split; [split; [constructor | by intros ? ? ?%elem_of_nil]|].
    intros id. destruct (decide _) as [Hin|]; [|done].
    unfold activitiesOf in Hin. by apply elem_of_nil in Hin. }
  simpl in Hk, Hget. split.
  - by repeat apply keyedBy_set.
  - intros id. destruct (decide (id = END_NODE)) as [->|He].
    + by rewrite JsMap_get_set_eq.
    + rewrite JsMap_get_set_ne by done.
      destruct (decide (id = START_NODE)) as [->|Hs].
      * by rewrite JsMap_get_set_eq.
      * rewrite JsMap_get_set_ne by done. apply Hget.
Qed.

(** X7. After [processInitialData] the node ids are pairwise distinct; they
    are the two anchors and the activities that the rows mention as a
    source or as a target; every activity node carries the start and end
    flags of its id. *)
Theorem ingested_nodes (s : GraphState) (graphData : list GraphData)
    (startActivities endActivities : list string) :
  let s' := Store.processInitialData s graphData startActivities endActivities in
  NoDup (node_id <$> allNodes s') ∧
  (∀ id, id ∈ node_id <$> allNodes s' ↔
         id = START_NODE ∨ id = END_NODE ∨ id ∈ activitiesOf graphData) ∧
  (∀ n, n ∈ allNodes s' →
        n = if decide (node_id n = END_NODE) then Store.endNode
            else if decide (node_id n = START_NODE) then Store.startNode
            else Store.activityNode (node_id n) startActivities endActivities).
Proof.
  intros s'. subst s'.
  change (allNodes (Store.processInitialData s graphData startActivities
                      endActivities))
    with (JsMap.values (Store.ingest graphData startActivities endActivities).1).
  destruct (ingest_nodes graphData startActivities endActivities) as [Hk Hget].
  split; [|split].
  - rewrite (keyedBy_values _ _ Hk). by destruct Hk.
  - intros id. rewrite (keyedBy_key_elem _ _ _ Hk), Hget.
    repeat case_decide; split; try (by eauto); try tauto;
      try (by intros [? ?]).
  - intros n Hn. apply (keyedBy_elem _ _ _ Hk) in Hn. rewrite Hget in Hn.
    repeat case_decide; congruence.
Qed.

Lemma fold_set_elem {V X} (kf : X → string) (vf : X → V) (xs : list X)
    (m : JsMap.t V) (k : string) (v : V) :
  (k, v) ∈ fold_left (λ m x, JsMap.set (kf x) (vf x) m) xs m →
  (k, v) ∈ m ∨ ∃ x, x ∈ xs ∧ k = kf x ∧ v = vf x.
Proof.
  revert m. induction xs as [|x xs IH]; intros m; simpl; [by left|].
  intros [Hin|(y & Hy & Hk & Hv)]%IH.
  - apply JsMap_elem_set in Hin as [Heq|Hin]; [|by left].
    injection Heq as -> ->. right. exists x. split; [left | done].
  - right. exists y. split; [by right | done].
Qed.

(** A key that is set several times holds the value that was set last;
    when all the values set for it agree, it holds that value. *)
Lemma fold_set_get_in {V X} (kf : X → string) (vf : X → V) (xs : list X)
    (m : JsMap.t V) (x : X) :
  x ∈ xs → (∀ y, y ∈ xs → kf y = kf x → vf y = vf x) →
  JsMap.get (kf x) (fold_left (λ m x, JsMap.set (kf x) (vf x) m) xs m)
  = Some (vf x).
Proof.
  revert m x. induction xs as [|y xs IH]; intros m x Hx Hsame; simpl.
  - by apply elem_of_nil in Hx.
  - destruct (decide (kf x ∈ kf <$> xs)) as [Hin|Hout].
    + apply list_elem_of_fmap in Hin as (z & Hkz & Hz).
      rewrite Hkz, (IH _ z Hz).
      * f_equal. apply Hsame; [by right | done].
      * intros w Hw Hkw. rewrite (Hsame w), (Hsame z); try done;
          try (by right); congruence.
    + rewrite fold_set_get by done.
      apply elem_of_cons in Hx as [->|Hx].
      * apply JsMap_get_set_eq.
      * exfalso. apply Hout. apply list_elem_of_fmap. eauto.
Qed.

Lemma firstWithId_Some id graphData row :
  firstWithId id graphData = Some row → row ∈ graphData ∧ recordEdgeId row = id.
Proof.
  unfold firstWithId. intros H. apply find_some in H as [Hin Hid].
  split; [by apply list_elem_of_In|]. by apply bool_decide_eq_true in Hid.
Qed.

(** The edges map before the anchor edges are added. *)
Lemma ingest_record_edges graphData starts ends :
  edgesAfter graphData
    (fold_left (Store.ingestStep starts ends) graphData
       (JsMap.empty, JsMap.empty)).2.
Proof.
  apply (ingestFold_edgesAfter starts ends graphData [] (JsMap.empty, JsMap.empty)).
  split; [split; [apply NoDup_nil_2 | intros ?? H; by apply elem_of_nil in H]
         | done].
Qed.

Lemma ingest_edges_keyedBy graphData starts ends :
  keyedBy edge_id (Store.ingest graphData starts ends).2.
Proof.
  unfold Store.ingest, Store.addEndEdges, Store.addStartEdges. simpl.
  apply fold_set_keyedBy; [done|]. apply fold_set_keyedBy; [done|].
  by destruct (ingest_record_edges graphData starts ends).
Qed.

(** Where an edge of the final edges map comes from. *)
Lemma ingest_edge_origin graphData starts ends e :
  e ∈ JsMap.values (Store.ingest graphData starts ends).2 →
  (∃ row, row ∈ graphData ∧ e = Store.recordEdge row) ∨
  (∃ x, x ∈ starts ∧ x ∈ activitiesOf graphData ∧
        e = Store.anchorEdge (Store.startEdgeId x) START_NODE x) ∨
  (∃ x, x ∈ ends ∧ x ∈ activitiesOf graphData ∧
        e = Store.anchorEdge (Store.endEdgeId x) x END_NODE).
Proof.
  unfold JsMap.values. intros ([k e'] & -> & Hin)%list_elem_of_fmap. simpl.
  unfold Store.ingest, Store.addEndEdges, Store.addStartEdges in Hin.
  simpl in Hin.
  apply fold_set_elem in Hin as [Hin|(x & Hx & _ & ->)].
  - apply fold_set_elem in Hin as [Hin|(x & Hx & _ & ->)].
    + left. destruct (ingest_record_edges graphData starts ends) as [[Hnd _] Hget].
      apply (JsMap_elem_get _ _ _ Hnd) in Hin. rewrite Hget in Hin.
      destruct (firstWithId k graphData) as [row|] eqn:E; [|done].
      injection Hin as <-. apply firstWithId_Some in E as [Hrow _]. eauto.
    + right. left. apply list_elem_of_filter in Hx as [Hv Hx].
      apply collectValidNodeIds_elem in Hv. eauto.
  - right. right. apply list_elem_of_filter in Hx as [Hv Hx].
    apply collectValidNodeIds_elem in Hv. eauto.
Qed.

Lemma fold_set_has {V X} (kf : X → string) (vf : X → V) (xs : list X)
    (m : JsMap.t V) (k : string) :
  k ∈ kf <$> xs ∨ is_Some (JsMap.get k m) →
  is_Some (JsMap.get k (fold_left (λ m x, JsMap.set (kf x) (vf x) m) xs m)).
Proof.
  revert m. induction xs as [|x xs IH]; intros m; simpl.
  - intros [H|H]; [by apply elem_of_nil in H | done].
  - intros H. apply IH. csimpl in H. rewrite elem_of_cons in H.
    destruct (decide (kf x = k)) as [<-|Hne].
    + right. rewrite JsMap_get_set_eq. by eexists.
    + rewrite JsMap_get_set_ne by done. destruct H as [[?|?]|?]; auto. congruence.
Qed.

(** X8. After [processInitialData] the edge ids are pairwise distinct; they
    are the ids of the rows and the ids of the anchor edges, one anchor
    edge for every start (end) activity that the rows mention. *)
Theorem ingested_edge_ids (s : GraphState) (graphData : list GraphData)
    (startActivities endActivities : list string) :
  let s' := Store.processInitialData s graphData startActivities endActivities in
  NoDup (edge_id <$> allEdges s') ∧
  (∀ id, id ∈ edge_id <$> allEdges s' ↔
         (∃ row, row ∈ graphData ∧ recordEdgeId row = id) ∨
         (∃ x, x ∈ startActivities ∧ x ∈ activitiesOf graphData ∧
               id = Store.startEdgeId x) ∨
         (∃ x, x ∈ endActivities ∧ x ∈ activitiesOf graphData ∧
               id = Store.endEdgeId x)).
Proof.
  intros s'. subst s'.
  change (allEdges (Store.processInitialData s graphData startActivities
                      endActivities))
    with (JsMap.values (Store.ingest graphData startActivities endActivities).2).
  pose proof (ingest_edges_keyedBy graphData startActivities endActivities) as Hk.
  split.
  - rewrite (keyedBy_values _ _ Hk). by destruct Hk.
  - intros id. split.
    + intros (e & -> & He)%list_elem_of_fmap.
      apply ingest_edge_origin in He
        as [(row & Hrow & ->)|[(x & Hx & Hv & ->)|(x & Hx & Hv & ->)]];
        [left|right; left|right; right]; eauto.
    + rewrite (keyedBy_key_elem _ _ _ Hk).
      unfold Store.ingest, Store.addEndEdges, Store.addStartEdges. simpl.
      intros [(row & Hrow & <-)|[(x & Hx & Hv & ->)|(x & Hx & Hv & ->)]].
      * apply fold_set_has. right. apply fold_set_has. right.
        destruct (ingest_record_edges graphData startActivities endActivities)
          as [_ Hget].
        rewrite Hget. destruct (firstWithId_elem row graphData Hrow) as [r ->].
        by eexists.
      * apply fold_set_has. right. apply fold_set_has. left.
        apply list_elem_of_fmap. exists x. split; [done|].
        apply list_elem_of_filter. by rewrite collectValidNodeIds_elem.
      * apply fold_set_has. left.
        apply list_elem_of_fmap. exists x. split; [done|].
        apply list_elem_of_filter. by rewrite collectValidNodeIds_elem.
Qed.

Lemma nodeIdsOf_elem (nodes : list Node) (id : string) :
  id ∈ nodeIdsOf nodes ↔ id ∈ node_id <$> nodes.
Proof. unfold nodeIdsOf. apply elem_of_list_to_set. Qed.

Lemma ingest_closed graphData starts ends :
  closedGraph (JsMap.values (Store.ingest graphData starts ends).1,
               JsMap.values (Store.ingest graphData starts ends).2).
Proof.
  unfold closedGraph. simpl. apply Forall_forall. intros e He.
  destruct (ingest_nodes graphData starts ends) as [Hk Hget].
  assert (∀ id, id = START_NODE ∨ id = END_NODE ∨ id ∈ activitiesOf graphData →
                id ∈ nodeIdsOf (JsMap.values (Store.ingest graphData starts ends).1))
    as Hnode.
  { intros id Hid. apply nodeIdsOf_elem, (keyedBy_key_elem _ _ _ Hk).
    rewrite Hget. repeat case_decide; try (by eexists). tauto. }
  assert (∀ row, row ∈ graphData →
                 Source_Activity row ∈ activitiesOf graphData ∧
                 Target_Activity row ∈ activitiesOf graphData) as Hrow.
  { intros row Hr. unfold activitiesOf.
    split; apply list_elem_of_bind; exists row; (split; [|done]).
    - left.
    - right. left. }
  apply ingest_edge_origin in He
    as [(row & Hr & ->)|[(x & Hx & Hv & ->)|(x & Hx & Hv & ->)]];
    (split; simpl; apply Hnode); auto.
  - right. right. by apply Hrow.
  - right. right. by apply Hrow.
Qed.

(** X9. After [processInitialData] the graph has no dangling edge: the source
    and the target of every edge, the anchor edges included, are ids of
    nodes of the graph. *)
Theorem ingested_graph_closed (s : GraphState) (graphData : list GraphData)
    (startActivities endActivities : list string) :
  let s' := Store.processInitialData s graphData startActivities endActivities in
  closedGraph (allNodes s', allEdges s') ∧
  ∀ e, e ∈ allEdges s' →
       ∃ target, edge_target e = Some target ∧
                 edge_source e ∈ node_id <$> allNodes s' ∧
                 target ∈ node_id <$> allNodes s'.
Proof.
  intros s'. subst s'.
  pose proof (ingest_closed graphData startActivities endActivities) as Hc.
  split; [exact Hc|].
  intros e He. unfold closedGraph in Hc.
  eapply Forall_forall in Hc; [|exact He].
  destruct Hc as [Hs Ht]. destruct (edge_target e) as [target|]; [|done].
  exists target. split; [done|]. by rewrite <- !nodeIdsOf_elem.
Qed.

Lemma length_append (s t : string) :
  String.length (s +:+ t) = (String.length s + String.length t)%nat.
Proof.
  induction s as [|c s IH]; [by rewrite append_nil_l|].
  rewrite append_cons. simpl. by rewrite IH.
Qed.

Lemma append_inj_r (s x y : string) : x +:+ s = y +:+ s → x = y.
Proof.
  revert y. induction x as [|c x IH]; intros [|d y] H.
  - done.
  - exfalso. rewrite append_nil_l in H.
    assert (String.length s = String.length (String d y +:+ s)) as Hl
      by (by rewrite <- H).
    rewrite length_append in Hl. simpl in Hl. lia.
  - exfalso. rewrite append_nil_l in H.
    assert (String.length (String c x +:+ s) = String.length s) as Hl
      by (by rewrite H).
    rewrite length_append in Hl. simpl in Hl. lia.
  - rewrite !append_cons in H. injection H as -> H. f_equal. by apply IH.
Qed.

(** X10. The anchor edges are written after the edges of the rows and replace
    an edge of a row that has the same id: for an end activity that the
    rows mention, the edge with its [-to-end] id is the dashed anchor edge
    to [END_NODE]; for a start activity, the edge with its [start-to-] id
    is the dashed anchor edge from [START_NODE], unless an end anchor has
    the same id. *)
Theorem ingested_anchor_edges (s : GraphState) (graphData : list GraphData)
    (startActivities endActivities : list string) (x : string) :
  let s' := Store.processInitialData s graphData startActivities endActivities in
  x ∈ activitiesOf graphData →
  (x ∈ endActivities →
   filter (λ e, edge_id e = Store.endEdgeId x) (allEdges s')
   = [Store.anchorEdge (Store.endEdgeId x) x END_NODE]) ∧
  (x ∈ startActivities →
   (∀ y, y ∈ endActivities → Store.endEdgeId y ≠ Store.startEdgeId x) →
   filter (λ e, edge_id e = Store.startEdgeId x) (allEdges s')
   = [Store.anchorEdge (Store.startEdgeId x) START_NODE x]).
Proof.
  intros s' Hx. subst s'.
  change (allEdges (Store.processInitialData s graphData startActivities
                      endActivities))
    with (JsMap.values (Store.ingest graphData startActivities endActivities).2).
  pose proof (ingest_edges_keyedBy graphData startActivities endActivities)
    as [Hnd Hk].
  assert (∀ k, filter (λ e, edge_id e = k)
                 (JsMap.values (Store.ingest graphData startActivities
                                  endActivities).2)
               = match JsMap.get k (Store.ingest graphData startActivities
                                      endActivities).2 with
                 | Some v => [v]
                 | None => []
                 end) as Hfilter.
  { intros k.
    pose proof (values_with_key id edge_id _ k Hnd Hk) as H.
    rewrite list_fmap_id in H. exact H. }
  rewrite !Hfilter.
  unfold Store.ingest, Store.addEndEdges, Store.addStartEdges. simpl.
  split.
  - intros Hend.
    rewrite (fold_set_get_in Store.endEdgeId
               (λ y, Store.anchorEdge (Store.endEdgeId y) y END_NODE)); [done| |].
    + apply list_elem_of_filter. by rewrite collectValidNodeIds_elem.
    + intros y _ Hy. apply append_inj_r in Hy. by subst.
  - intros Hstart Hfree.
    rewrite fold_set_get.
    + rewrite (fold_set_get_in Store.startEdgeId
                 (λ y, Store.anchorEdge (Store.startEdgeId y) START_NODE y));
        [done| |].
      * apply list_elem_of_filter. by rewrite collectValidNodeIds_elem.
      * intros y _ Hy. unfold Store.startEdgeId in Hy.
        apply (inj (String.app "start-to-")) in Hy. by subst.
    + intros (y & Hy & Hin)%list_elem_of_fmap.
      apply list_elem_of_filter in Hin as [_ Hin].
      by apply (Hfree y).
Qed.

Lemma ingested_anchor_edges_witness :
  filter (λ e, edge_id e = "C-to-end") (allEdges storeABC)
  = [Store.anchorEdge "C-to-end" "C" END_NODE].
Proof.
  apply (ingested_anchor_edges Store.initialState
           [rowOf "A" "B" 1; rowOf "B" "C" 2] ["A"] ["C"] "C").
  - vm_compute. do 3 right. left.
  - left.
Defined.

(* ------------------------------------------------------------------ *)
(** ** The graph that is laid out *)
(* ------------------------------------------------------------------ *)

Lemma closedGraph_filter (ids : gset string) (nodes : list Node)
    (edges : list Edge) :
  closedGraph (nodes, edges) →
  closedGraph (filter (λ node, node_id node ∈ ids) nodes,
               filter (Store.endpointsIn ids) edges).
Proof.
  unfold closedGraph. simpl. intros Hc. apply Forall_forall.
  intros e [Hin He]%list_elem_of_filter.
  eapply Forall_forall in Hc; [|exact He].
  assert (∀ id, id ∈ ids → id ∈ nodeIdsOf nodes →
                id ∈ nodeIdsOf (filter (λ node, node_id node ∈ ids) nodes))
    as Hkeep.
  { intros id Hid (n & -> & Hn)%nodeIdsOf_elem%list_elem_of_fmap.
    apply nodeIdsOf_elem, list_elem_of_fmap. exists n. split; [done|].
    by apply list_elem_of_filter. }
  destruct Hin as [Hs Ht], Hc as [Hs' Ht']. split; [by apply Hkeep|].
  destruct (edge_target e); [by apply Hkeep | done].
Qed.

Lemma closedGraph_fewer_edges (P : Edge → Prop) `{!∀ e, Decision (P e)}
    (nodes : list Node) (edges : list Edge) :
  closedGraph (nodes, edges) → closedGraph (nodes, filter P edges).
Proof.
  unfold closedGraph. simpl. intros Hc. apply Forall_forall.
  intros e [_ He]%list_elem_of_filter. by eapply Forall_forall in Hc.
Qed.

Lemma filterGraph_closed config nodes edges :
  closedGraph (nodes, edges) →
  closedGraph (Store.filterGraph config nodes edges).
Proof.
  intros Hc. unfold Store.filterGraph.
  assert (closedGraph (Store.applyNodeFilter config (nodes, edges))) as Hn.
  { unfold Store.applyNodeFilter. case_decide; [|done]. simpl.
    by apply closedGraph_filter. }
  destruct (Store.applyNodeFilter config (nodes, edges)) as [ns es].
  unfold Store.applyEdgeFilter. destruct (filteredEdgeIds config); [|done].
  case_decide; [|done]. simpl. by apply closedGraph_fewer_edges.
Qed.

(** X11. The node and edge filters of [computeLayout] never leave an edge
    dangling: when both endpoints of every edge of the store are nodes of
    the store, both endpoints of every kept edge are kept nodes. The kept
    nodes and edges are sublists of the nodes and edges of the store. *)
Theorem filtered_graph_closed (config : LayoutConfig) (nodes : list Node)
    (edges : list Edge) :
  closedGraph (nodes, edges) →
  closedGraph (Store.filterGraph config nodes edges) ∧
  sublist (Store.filterGraph config nodes edges).1 nodes ∧
  sublist (Store.filterGraph config nodes edges).2 edges.
Proof.
  intros Hc. split; [by apply filterGraph_closed|].
  unfold Store.filterGraph, Store.applyNodeFilter, Store.applyEdgeFilter.
  destruct (filteredEdgeIds config); repeat case_decide; simpl;
    split; try done; try apply sublist_filter;
    (etrans; [apply sublist_filter|apply sublist_filter]).
Qed.

Lemma filtered_graph_closed_witness :
  closedGraph
    (Store.filterGraph (plainConfig {["A"; "B"]} None)
       (allNodes storeABC) (allEdges storeABC)).
Proof.
  apply (filtered_graph_closed (plainConfig {["A"; "B"]} None)
           (allNodes storeABC) (allEdges storeABC)).
  apply (bool_decide_eq_true_1 _). vm_compute. reflexivity.
Defined.

(** The running minimum and maximum after some edges. *)
Lemma rangeFold_spec (edges processed : list Edge) (range : option Q * option Q) :
  match range with
  | (None, None) => Forall (λ e, Store.isGhostEdge e = true) processed
  | (Some lo, Some hi) =>
      (lo <= hi)%Q ∧
      Forall (λ e, Store.isGhostEdge e = false →
                   (lo <= Store.weightOf e)%Q ∧ (Store.weightOf e <= hi)%Q)
        processed
  | _ => False
  end →
  match fold_left Store.rangeStep edges range with
  | (None, None) => Forall (λ e, Store.isGhostEdge e = true) (processed ++ edges)
  | (Some lo, Some hi) =>
      (lo <= hi)%Q ∧
      Forall (λ e, Store.isGhostEdge e = false →
                   (lo <= Store.weightOf e)%Q ∧ (Store.weightOf e <= hi)%Q)
        (processed ++ edges)
  | _ => False
  end.
Proof.
  revert processed range. induction edges as [|e edges IH];
    intros processed range Hinv; simpl.
  - by rewrite app_nil_r.
  - replace (processed ++ e :: edges) with ((processed ++ [e]) ++ edges)
      by (by rewrite <- app_assoc).
    apply IH. unfold Store.rangeStep.
    destruct (Store.isGhostEdge e) eqn:Hg.
    + destruct range as [[lo|] [hi|]]; try done.
      * destruct Hinv as [Hle Hall]. split; [done|].
        apply Forall_app. split; [done|]. constructor; [|done]. congruence.
      * apply Forall_app. split; [done|]. by constructor.
    + destruct range as [[lo|] [hi|]]; try done; simpl.
      * destruct Hinv as [Hle Hall].
        set (w := Store.weightOf e) in *.
        assert (∀ a b : Q, ¬ (a < b)%Q → (b <= a)%Q) as Hnlt
          by (intros a b; apply Qnot_lt_le).
        destruct (decide (w < lo)%Q) as [Hlo|Hlo];
          destruct (decide (hi < w)%Q) as [Hhi|Hhi].
        -- exfalso. apply (Qlt_irrefl w).
           eapply Qlt_le_trans; [exact Hlo|].
           eapply Qle_trans; [exact Hle|]. by apply Qlt_le_weak.
        -- split; [by eapply Qle_trans; [apply Qlt_le_weak|]|].
           apply Forall_app. split.
           ++ eapply Forall_impl; [exact Hall|]. simpl. intros x Hx Hgx.
              destruct (Hx Hgx). split; [|done].
              eapply Qle_trans; [apply Qlt_le_weak; exact Hlo | done].
           ++ constructor; [|done]. intros _. fold w.
              split; [apply Qle_refl | by apply Hnlt].
        -- split; [by eapply Qle_trans; [|apply Qlt_le_weak]|].
           apply Forall_app. split.
           ++ eapply Forall_impl; [exact Hall|]. simpl. intros x Hx Hgx.
              destruct (Hx Hgx). split; [done|].
              eapply Qle_trans; [|apply Qlt_le_weak; exact Hhi]. done.
           ++ constructor; [|done]. intros _. fold w.
              split; [by apply Hnlt | apply Qle_refl].
        -- split; [done|]. apply Forall_app. split; [done|].
           constructor; [|done]. intros _. fold w. split; by apply Hnlt.
      * split; [apply Qle_refl|]. apply Forall_app. split.
        -- eapply Forall_impl; [exact Hinv|]. simpl. intros x Hx Hgx. congruence.
        -- constructor; [|done]. intros _. split; apply Qle_refl.
Qed.

Lemma rangeFold_ghosts (edges : list Edge) (range : option Q * option Q) :
  Forall (λ e, Store.isGhostEdge e = true) edges →
  fold_left Store.rangeStep edges range = range.
Proof.
  revert range. induction edges as [|e edges IH]; intros range Hes; [done|].
  apply Forall_cons in Hes as [He Hes]. simpl.
  unfold Store.rangeStep at 2. rewrite He. by apply IH.
Qed.

(** X12. The weight range that colours the edges is never degenerate: its
    lower end is strictly below its upper end. The weight of every edge
    that is not a ghost lies in the range, ghost edges do not take part,
    and without any other edge the range is from 0 to 1. *)
Theorem weight_range_covers (edgesToLayout : list Edge) :
  let range := Store.weightRange edgesToLayout in
  (range.1 < range.2)%Q ∧
  (∀ e, e ∈ edgesToLayout → Store.isGhostEdge e = false →
        (range.1 <= Store.weightOf e)%Q ∧ (Store.weightOf e <= range.2)%Q) ∧
  (Forall (λ e, Store.isGhostEdge e = true) edgesToLayout →
   range = (0, 1)%Q) ∧
  Store.weightRange edgesToLayout
  = Store.weightRange (filter (λ e, Store.isGhostEdge e = false) edgesToLayout).
Proof.
  intros range. subst range. split; [|split; [|split]].
  - unfold Store.weightRange.
    pose proof (rangeFold_spec edgesToLayout [] (None, None) (Forall_nil_2 _))
      as H.
    destruct (fold_left Store.rangeStep edgesToLayout (None, None))
      as [[lo|] [hi|]]; try done; simpl.
    destruct H as [Hle _].
    destruct (decide (lo == hi)%Q) as [Heq|Hne]; simpl.
    + rewrite <- (Qplus_0_r lo) at 1. by apply Qplus_lt_r.
    + apply Qle_lteq in Hle as [?|?]; done.
  - unfold Store.weightRange.
    pose proof (rangeFold_spec edgesToLayout [] (None, None) (Forall_nil_2 _))
      as H.
    destruct (fold_left Store.rangeStep edgesToLayout (None, None))
      as [[lo|] [hi|]]; try done; simpl; simpl in H.
    + destruct H as [Hle Hall]. intros e He Hg.
      eapply Forall_forall in Hall; [|exact He].
      destruct (Hall Hg) as [H1 H2].
      destruct (decide (lo == hi)%Q) as [Heq|Hne]; simpl; [|done].
      split; [done|]. eapply Qle_trans; [exact H2|]. rewrite <- Heq.
      rewrite <- (Qplus_0_r lo) at 1. by apply Qplus_le_r.
    + intros e He Hg. eapply Forall_forall in H; [|exact He]. congruence.
  - intros Hghost. unfold Store.weightRange.
    by rewrite rangeFold_ghosts.
  - unfold Store.weightRange. f_equal. f_equal.
    generalize (@None Q, @None Q).
    induction edgesToLayout as [|e es IH]; intros r; [done|].
    rewrite filter_cons. simpl.
    destruct (decide (Store.isGhostEdge e = false)) as [Hg|Hg]; simpl.
    + apply IH.
    + rewrite <- IH. f_equal. unfold Store.rangeStep.
      by destruct (Store.isGhostEdge e).
Qed.

(* ------------------------------------------------------------------ *)
(** ** A layout that succeeds *)
(* ------------------------------------------------------------------ *)

Lemma colorEdge_frame scale info range edge :
  ∃ colored,
    Store.colorEdge (Some scale) info range edge = Some colored ∧
    edge_id colored = edge_id edge ∧
    edge_source colored = edge_source edge ∧
    edge_target colored = edge_target edge ∧
    Store.isGhostEdge colored = Store.isGhostEdge edge ∧
    (Store.isGhostEdge edge = true → edge_style colored = edge_style edge) ∧
    (Store.isGhostEdge edge = false →
     (edge_style colored ≫= es_stroke)
     = Some (scale (Store.weightOf edge) range.1 range.2)).
Proof.
  unfold Store.colorEdge. destruct (Store.isGhostEdge edge) eqn:Hg.
  - destruct (Store.pathDurationOf info (edge_id edge)); eexists;
      (split; [reflexivity|]); simpl; repeat split; try done.
  - eexists. split; [reflexivity|]. simpl. repeat split; try done.
    unfold Store.isGhostEdge in *. simpl.
    by destruct (Store.pathDurationOf info (edge_id edge)).
Qed.

Lemma colorEdges_frame scale info range edges :
  ∃ colored,
    mapM (Store.colorEdge (Some scale) info range) edges = Some colored ∧
    Forall2 (λ edge c,
               edge_id c = edge_id edge ∧
               edge_source c = edge_source edge ∧
               edge_target c = edge_target edge ∧
               Store.isGhostEdge c = Store.isGhostEdge edge ∧
               (Store.isGhostEdge edge = true → edge_style c = edge_style edge) ∧
               (Store.isGhostEdge edge = false →
                (edge_style c ≫= es_stroke)
                = Some (scale (Store.weightOf edge) range.1 range.2)))
      edges colored.
Proof.
  induction edges as [|e edges (colored & Hm & Hall)].
  - exists []. split; [done | constructor].
  - destruct (colorEdge_frame scale info range e) as (c & Hc & Hframe).
    exists (c :: colored). split; [|by constructor].
    apply mapM_Some. apply mapM_Some in Hm. by constructor.
Qed.

Lemma placeNode_position children node :
  node_position (Store.placeNode children node)
  = match List.find (λ n, bool_decide (placed_id n = node_id node)) children with
    | Some placed => (Js.orQ (placed_x placed) 0, Js.orQ (placed_y placed) 0)
    | None => (0, 0)%Q
    end.
Proof. unfold Store.placeNode. simpl. by destruct (List.find _ _). Qed.

(** X13. When the layout algorithm answers and the palette table has its
    default entry, [computeLayout] stores the graph it assembled, in the
    same order, with the same node ids, data and styles and the same edge
    ids and endpoints: only the positions of the nodes and the colours and
    path durations of the edges change. A node takes the position of the
    first placed node with its id, and the origin when the answer has
    none; a ghost edge keeps its style, any other edge is stroked with the
    colour of its weight in the weight range. The loading flag is cleared
    and the lookup map is rebuilt from the edges of the store. *)
Theorem layout_success_keeps_graph
    (colorPalettes : string → option ColorScaleFn)
    (elk : ElkGraph → ElkOutcome) (config : LayoutConfig) (s : GraphState)
    (scale : ColorScaleFn) (children : list ElkPlaced) :
  let graph := Store.graphToLayout config (allNodes s) (allEdges s) in
  graph.1 ≠ [] →
  elk (Store.elkRequest graph) = ElkResolved (Some children) →
  colorPalettes "default" = Some scale →
  let s' := Store.computeLayout colorPalettes elk config s in
  let color := default scale (colorPalettes (colorPaletteKey config)) in
  let range := Store.weightRange graph.2 in
  isLayoutLoading s' = false ∧
  allNodes s' = allNodes s ∧ allEdges s' = allEdges s ∧
  _edgeLookupMap s' = Store.edgeLookupMapOf (allEdges s) ∧
  Forall2 (λ node placed,
             node_id placed = node_id node ∧
             node_data placed = node_data node ∧
             node_style placed = node_style node ∧
             node_position placed
             = match List.find (λ n, bool_decide (placed_id n = node_id node))
                       children with
               | Some p => (Js.orQ (placed_x p) 0, Js.orQ (placed_y p) 0)
               | None => (0, 0)%Q
               end)
    graph.1 (layoutedNodes s') ∧
  Forall2 (λ edge colored,
             edge_id colored = edge_id edge ∧
             edge_source colored = edge_source edge ∧
             edge_target colored = edge_target edge ∧
             Store.isGhostEdge colored = Store.isGhostEdge edge ∧
             (Store.isGhostEdge edge = true →
              edge_style colored = edge_style edge) ∧
             (Store.isGhostEdge edge = false →
              (edge_style colored ≫= es_stroke)
              = Some (color (Store.weightOf edge) range.1 range.2)))
    graph.2 (layoutedEdges s').
Proof.
  intros graph Hne Helk Hdefault s' color range. subst s'.
  unfold Store.computeLayout, Store.computeLayoutStart. fold graph.
  destruct (decide (Js.len graph.1 = 0)) as [Hlen|_].
  { destruct graph.1; [done|]. unfold Js.len in Hlen. simpl in Hlen. lia. }
  rewrite Helk. unfold Store.computeLayoutSettle, Store.layoutResult.
  assert (match colorPalettes (colorPaletteKey config) with
          | Some scale => Some scale
          | None => colorPalettes "default"
          end = Some color) as ->.
  { subst color. destruct (colorPalettes (colorPaletteKey config)); done. }
  destruct (colorEdges_frame color (activePathInfo config) range graph.2)
    as (colored & Hm & Hall).
  fold range. rewrite Hm. simpl.
  repeat split; try done.
  apply Forall2_fmap_r, Forall_Forall2_diag, Forall_forall.
  intros node _. repeat split; try done. apply placeNode_position.
Qed.

Lemma layout_success_keeps_graph_witness :
  isLayoutLoading
    (Store.computeLayout defaultPalette placingElk (plainConfig ∅ None) storeABC)
  = false.
Proof.
  refine (proj1 (layout_success_keeps_graph defaultPalette placingElk
                   (plainConfig ∅ None) storeABC grayScale _ _ _ _)).
  - vm_compute. discriminate.
  - reflexivity.
  - reflexivity.
Defined.

(** X14. [updateEdgeLookupMap] keeps, for every [source->target] key, the last
    edge of the store with that source and target: a later edge between
    the same two nodes replaces an earlier one, and a key that no edge has
    is absent. *)
Theorem edge_lookup_last_wins (s : GraphState) (k : string) :
  JsMap.get k (_edgeLookupMap (Store.updateEdgeLookupMap s))
  = last (filter (λ e, lookupKey e = k) (allEdges s)) ∧
  NoDup (JsMap.keys (_edgeLookupMap (Store.updateEdgeLookupMap s))) ∧
  allEdges (Store.updateEdgeLookupMap s) = allEdges s.
Proof.
  simpl. unfold Store.edgeLookupMapOf. split; [|split; [|done]].
  - assert (∀ (es : list Edge) (m : JsMap.t Edge),
              JsMap.get k
                (fold_left
                   (λ map edge,
                      JsMap.set
                        (edgeIdOf (edge_source edge)
                           (default "undefined" (edge_target edge))) edge map)
                   es m)
              = match last (filter (λ e, lookupKey e = k) es) with
                | Some e => Some e
                | None => JsMap.get k m
                end) as H.
    { induction es as [|e es IH]; intros m; [done|]. simpl.
      rewrite IH, last_filter_cons. destruct (last _); [done|].
      unfold lookupKey. destruct (decide (_ = k)) as [<-|Hne].
      - by rewrite JsMap_get_set_eq.
      - by rewrite JsMap_get_set_ne. }
    rewrite H. by destruct (last _).
  - assert (∀ (es : list Edge) (m : JsMap.t Edge),
              NoDup (JsMap.keys m) →
              NoDup (JsMap.keys
                (fold_left
                   (λ map edge,
                      JsMap.set
                        (edgeIdOf (edge_source edge)
                           (default "undefined" (edge_target edge))) edge map)
                   es m))) as H.
    { induction es as [|e es IH]; intros m Hm; [done|]. simpl.
      apply IH. by apply JsMap_NoDup_set. }
    apply H. constructor.
Qed.

Lemma overlayEdge_split isGhost source target :
  hasArrow source = false → hasArrow target = false →
  edge_source (Store.overlayEdge isGhost (edgeIdOf source target)) = source ∧
  edge_target (Store.overlayEdge isGhost (edgeIdOf source target)) = Some target.
Proof.
  intros Hs Ht. unfold Store.overlayEdge. simpl.
  assert (Js.splitArrow (edgeIdOf source target) = [source; target]) as ->.
  { apply (splitArrow_join [source; target]); [done|].
    by repeat constructor. }
  done.
Qed.

(** X15. A ghost or search-case edge takes its endpoints from its id: for the
    id of an edge between two node ids without the separator, the source
    and the target are these two ids; an id without the separator gives an
    edge without a target. *)
Theorem overlay_edge_endpoints (isGhost : bool) :
  (∀ source target,
     hasArrow source = false → hasArrow target = false →
     edge_source (Store.overlayEdge isGhost (edgeIdOf source target)) = source ∧
     edge_target (Store.overlayEdge isGhost (edgeIdOf source target))
     = Some target) ∧
  (∀ id, hasArrow id = false →
         edge_source (Store.overlayEdge isGhost id) = id ∧
         edge_target (Store.overlayEdge isGhost id) = None).
Proof.
  split.
  - intros source target. apply overlayEdge_split.
  - intros id Hid. unfold Store.overlayEdge. simpl.
    unfold Js.splitArrow. rewrite splitArrowFrom_piece by done.
    by rewrite append_nil_l.
Qed.

(* ------------------------------------------------------------------ *)
(** ** Laying out a selected path *)
(* ------------------------------------------------------------------ *)

Lemma consecutiveEdgeIds_elem (pathNodes : list string) (id : string) :
  id ∈ Store.consecutiveEdgeIds pathNodes →
  ∃ source target,
    id = edgeIdOf source target ∧ source ∈ pathNodes ∧ target ∈ pathNodes.
Proof.
  induction pathNodes as [|source [|target rest] IH]; simpl.
  - by intros ?%elem_of_nil.
  - by intros ?%elem_of_nil.
  - intros [->|Hin]%elem_of_cons.
    + exists source, target. split; [done|]. split; [left | right; left].
    + destruct (IH Hin) as (s' & t' & -> & Hs & Ht).
      exists s', t'. split; [done|]. split; by right.
Qed.

Lemma consecutiveEdgeIds_length (pathNodes : list string) :
  length (Store.consecutiveEdgeIds pathNodes) = (length pathNodes - 1)%nat.
Proof.
  induction pathNodes as [|source [|target rest] IH]; simpl; try done.
  simpl in IH. rewrite IH. lia.
Qed.

Lemma addOverlayNodes_elem isGhost ids nodes id :
  id ∈ node_id <$> Store.addOverlayNodes isGhost ids nodes ↔
  id ∈ node_id <$> nodes ∨ id ∈ ids.
Proof.
  split.
  - destruct (addOverlayNodes_prefix isGhost ids nodes) as (added & -> & Hall).
    rewrite fmap_app, elem_of_app.
    intros [?|(n & -> & Hn)%list_elem_of_fmap]; [by left|].
    eapply Forall_forall in Hall; [|exact Hn]. right. tauto.
  - intros [Hin|Hin]; [|by apply addOverlayNodes_covers].
    destruct (addOverlayNodes_prefix isGhost ids nodes) as (added & -> & _).
    rewrite fmap_app, elem_of_app. by left.
Qed.

Lemma addOverlayEdges_elem isGhost ids edges e :
  e ∈ Store.addOverlayEdges isGhost ids edges →
  e ∈ edges ∨ ∃ id, id ∈ ids ∧ e = Store.overlayEdge isGhost id.
Proof.
  unfold Store.addOverlayEdges. case_decide; [|by left].
  rewrite elem_of_app.
  intros [?|(id & -> & [_ Hid]%list_elem_of_filter)%list_elem_of_fmap];
    [by left|]. right. eauto.
Qed.

Lemma addOverlayEdges_ids isGhost ids edges id :
  id ∈ edge_id <$> Store.addOverlayEdges isGhost ids edges ↔
  id ∈ edge_id <$> edges ∨ id ∈ ids.
Proof.
  split.
  - destruct (addOverlayEdges_prefix isGhost ids edges) as (added & -> & Hall).
    rewrite fmap_app, elem_of_app.
    intros [?|(n & -> & Hn)%list_elem_of_fmap]; [by left|].
    eapply Forall_forall in Hall; [|exact Hn]. right. tauto.
  - intros [Hin|Hin]; [|by apply addOverlayEdges_covers].
    destruct (addOverlayEdges_prefix isGhost ids edges) as (added & -> & _).
    rewrite fmap_app, elem_of_app. by left.
Qed.

Lemma size_list_to_set_pos (l : list string) :
  l ≠ [] → (0 < size (list_to_set l : gset string))%nat.
Proof.
  destruct l as [|x l]; [done|]. intros _.
  assert (size (list_to_set (x :: l) : gset string) ≠ 0%nat); [|lia].
  intros Hs. apply size_empty_iff in Hs.
  assert (x ∈ (list_to_set (x :: l) : gset string)) as Hx
    by (apply elem_of_list_to_set; left).
  rewrite Hs in Hx. by apply elem_of_empty in Hx.
Qed.

(** The graph that is sent to the layout when the node and edge filters
    are the nodes and edges of the path that is shown. *)
Lemma path_layout_graph (config : LayoutConfig) (info : ActivePathInfo)
    (allNodes : list Node) (allEdges : list Edge) :
  activePathInfo config = Some info →
  searchCasePathInfo config = None →
  filteredNodeIds config = list_to_set (api_nodes info) →
  filteredEdgeIds config = Some (list_to_set (api_edges info)) →
  allNodes ≠ [] → api_nodes info ≠ [] → api_edges info ≠ [] →
  let graph := Store.graphToLayout config allNodes allEdges in
  (∀ id, id ∈ node_id <$> graph.1 ↔ id ∈ api_nodes info) ∧
  (∀ id, id ∈ edge_id <$> graph.2 ↔ id ∈ api_edges info) ∧
  (∀ e, e ∈ graph.2 →
        (e ∈ allEdges ∧ Store.endpointsIn (list_to_set (api_nodes info)) e) ∨
        ∃ id, id ∈ api_edges info ∧ e = Store.overlayEdge true id).
Proof.
  intros Hinfo Hsc Hnodes Hedges Hall Hpn Hpe graph. subst graph.
  unfold Store.graphToLayout. rewrite Hinfo, Hsc. simpl.
  unfold Store.filterGraph, Store.applyNodeFilter, Store.extendNodeIds.
  rewrite Hinfo, Hnodes. simpl.
  rewrite decide_True.
  2:{ split; [|by apply size_list_to_set_pos].
      destruct allNodes; [done|]. unfold Js.len. simpl. lia. }
  unfold Store.applyEdgeFilter. rewrite Hedges. simpl.
  set (nodes1 :=
         filter (λ node, node_id node
                         ∈ (list_to_set (api_nodes info) : gset string))
           allNodes).
  set (edges1 := filter (Store.endpointsIn (list_to_set (api_nodes info))) allEdges).
  assert (∃ edges2,
            (if decide (0 < Js.len edges1
                        ∧ (0 < size (list_to_set (api_edges info) : gset string))%nat)
             then (nodes1, filter (λ edge, edge_id edge
                                     ∈ (list_to_set (api_edges info) : gset string)) edges1)
             else (nodes1, edges1)) = (nodes1, edges2) ∧
            edges2 = filter (λ edge, edge_id edge
                               ∈ (list_to_set (api_edges info) : gset string)) edges1)
    as (edges2 & -> & Hedges2).
  { case_decide as Hd; [by eexists|]. exists edges1. split; [done|].
    destruct edges1 as [|e es]; [done|]. exfalso. apply Hd.
    split; [unfold Js.len; simpl; lia | by apply size_list_to_set_pos]. }
  simpl. split; [|split].
  - intros id. rewrite addOverlayNodes_elem. split; [|by right].
    intros [(n & -> & Hn)%list_elem_of_fmap|?]; [|done].
    apply list_elem_of_filter in Hn as [Hn _].
    by apply elem_of_list_to_set in Hn.
  - intros id. rewrite addOverlayEdges_ids. split; [|by right].
    intros [(e & -> & He)%list_elem_of_fmap|?]; [|done].
    rewrite Hedges2 in He. apply list_elem_of_filter in He as [He _].
    by apply elem_of_list_to_set in He.
  - intros e [He|He]%addOverlayEdges_elem; [left | by right].
    rewrite Hedges2 in He. apply list_elem_of_filter in He as [_ He].
    apply list_elem_of_filter in He as [? ?]. done.
Qed.

Lemma pathEdgeIds_elem path id :
  id ∈ PathSelection.pathEdgeIds path ↔
  id ∈ Store.consecutiveEdgeIds (nodes path).
Proof.
  unfold PathSelection.pathEdgeIds. rewrite setToArray_elem.
  split; [tauto|]. intros H. split; [done | apply not_elem_of_empty].
Qed.

(** X16. Selecting a found path on the routing page lays out exactly the path:
    the node ids of the graph sent to the layout are the nodes of the
    path (the anchors are left out), its edge ids are the ids of the
    consecutive pairs of the path, whatever the store holds; and when no
    node id of the path contains the separator, the graph has no dangling
    edge. *)
Theorem selected_path_is_laid_out (selectedColorPalette : string)
    (path : ExtendedPath) (allNodes : list Node) (allEdges : list Edge) :
  allNodes ≠ [] → 2 ≤ Js.len (nodes path) →
  let graph :=
    Store.graphToLayout
      (PathSelection.selectPathConfig selectedColorPalette path)
      allNodes allEdges in
  (∀ id, id ∈ node_id <$> graph.1 ↔ id ∈ nodes path) ∧
  (∀ id, id ∈ edge_id <$> graph.2 ↔
         id ∈ Store.consecutiveEdgeIds (nodes path)) ∧
  (arrowFree (nodes path) → closedGraph graph).
Proof.
  intros Hall Hlen graph.
  assert (nodes path ≠ []) as Hpn.
  { intros E. rewrite E in Hlen. unfold Js.len in Hlen. simpl in Hlen. lia. }
  assert (PathSelection.pathEdgeIds path ≠ []) as Hpe.
  { destruct (Store.consecutiveEdgeIds (nodes path)) as [|id ids] eqn:E.
    - pose proof (consecutiveEdgeIds_length (nodes path)) as Hl.
      rewrite E in Hl. unfold Js.len in Hlen. simpl in Hl. lia.
    - intros Hnil. assert (id ∈ PathSelection.pathEdgeIds path) as Hin.
      { apply pathEdgeIds_elem. rewrite E. left. }
      rewrite Hnil in Hin. by apply elem_of_nil in Hin. }
  destruct (path_layout_graph
              (PathSelection.selectPathConfig selectedColorPalette path)
              (PathSelection.activePathInfoData path)
              allNodes allEdges) as (Hn & He & Horigin); try done.
  fold graph in Hn, He, Horigin.
  change (api_nodes (PathSelection.activePathInfoData path))
    with (nodes path) in Hn, Horigin.
  change (api_edges (PathSelection.activePathInfoData path))
    with (PathSelection.pathEdgeIds path) in He, Horigin.
  split; [done|]. split.
  - intros id. etrans; [apply He|]. apply pathEdgeIds_elem.
  - intros Harrow. unfold closedGraph. apply Forall_forall. intros e Hin.
    assert (∀ id, id ∈ nodes path → id ∈ nodeIdsOf graph.1) as Hnode.
    { intros id Hid. apply nodeIdsOf_elem. by apply Hn. }
    destruct (Horigin e Hin) as [[_ [Hs Ht]]|(id & Hid & ->)].
    + split.
      * apply Hnode. by apply elem_of_list_to_set in Hs.
      * destruct (edge_target e); [|done].
        apply Hnode. by apply elem_of_list_to_set in Ht.
    + apply pathEdgeIds_elem, consecutiveEdgeIds_elem in Hid
        as (source & target & -> & Hs & Ht).
      unfold arrowFree in Harrow.
      destruct (overlayEdge_split true source target) as [Hes Het].
      { by eapply Forall_forall in Harrow. }
      { by eapply Forall_forall in Harrow. }
      split; [rewrite Hes; by apply Hnode|].
      rewrite Het. by apply Hnode.
Qed.

Lemma selected_path_is_laid_out_witness :
  ∃ p, Routing.findPathsBetweenNodes "X" "Z" [loopVariant] = [p] ∧
       ∀ id, id ∈ node_id <$> (Store.graphToLayout
                                 (PathSelection.selectPathConfig "default" p)
                                 (allNodes storeABC) (allEdges storeABC)).1
             ↔ id ∈ nodes p.
Proof.
  eexists. split; [vm_compute; reflexivity|].
  refine (proj1 (selected_path_is_laid_out "default" _ (allNodes storeABC)
                   (allEdges storeABC) _ _)).
  - vm_compute. discriminate.
  - vm_compute. discriminate.
Defined.

(* ------------------------------------------------------------------ *)
(** ** The path-finding actions of the store *)
(* ------------------------------------------------------------------ *)

Lemma clickCandidate_shape startId endId variant p :
  Store.clickCandidate startId endId variant = Some p →
  qualifies startId endId variant ∧
  nodes p = windowOf startId endId variant ∧
  edges p = Store.consecutiveEdgeIds (nodes p) ∧
  _frequency p = Frequency variant ∧
  _variantTimings p = Some (Avg_Timings variant) ∧
  _startIndex p
  = Some (Routing.resolveStartIndex startId (Variant_Path variant)) ∧
  _specificEdgeDurations p = None.
Proof.
  intros H. pose proof (clickCandidate_cases startId endId variant) as Hc.
  simpl in Hc. rewrite H in Hc. destruct Hc as (Hk & Hn & Hs & _).
  split; [exact Hk|]. split; [exact Hn|].
  split; [|split; [|split; [|split; [exact Hs|]]]];
    unfold Store.clickCandidate in H; (case_decide; [|done]);
    by injection H as <-.
Qed.

(** X17. A click in path-finding mode leaves the store coherent (an end
    node only with a different start node). It either makes the clicked
    node the start node, with no end node and no found path, or, when a
    start node is chosen, no end node is, and another node is clicked,
    makes the clicked node the end node. The paths found then are, in the order of the
    variants, the windows of the qualifying variants: each has at least
    two nodes, runs from the start node to the end node (from the first
    node of its trace for [START_NODE], to the last for [END_NODE]) and
    lists one edge per consecutive pair of its nodes. *)
Theorem pathfinding_click_finds_windows (nodeId : string)
    (variants : list Variant) (st : GraphState * Selection) :
  let s' := (PathFinding.handleNodeClickPathFinding nodeId variants st).1 in
  endpointsCoherent s' ∧
  ((pathStartNodeId s' = Some nodeId ∧ pathEndNodeId s' = None ∧
    foundPaths s' = []) ∨
  (∃ startId,
     pathStartNodeId st.1 = Some startId ∧ startId ≠ "" ∧ startId ≠ nodeId ∧
     PathFinding.isSet (pathEndNodeId st.1) = false ∧
     pathStartNodeId s' = Some startId ∧ pathEndNodeId s' = Some nodeId ∧
     foundPaths s' = Store.clickCandidates startId nodeId variants ∧
     length (foundPaths s')
     = length (filter (qualifies startId nodeId) variants) ∧
     ∀ p, p ∈ foundPaths s' →
          ∃ v, v ∈ variants ∧ qualifies startId nodeId v ∧
               nodes p = windowOf startId nodeId v ∧
               2 ≤ Js.len (nodes p) ∧
               head (nodes p)
               = (if decide (startId = START_NODE) then head (Variant_Path v)
                  else Some startId) ∧
               last (nodes p)
               = (if decide (nodeId = END_NODE) then last (Variant_Path v)
                  else Some nodeId) ∧
               edges p = Store.consecutiveEdgeIds (nodes p) ∧
               _frequency p = Frequency v)).
Proof.
  intros s'. subst s'. unfold PathFinding.handleNodeClickPathFinding.
  destruct (PathFinding.isSet (pathStartNodeId st.1)) eqn:Hstart; simpl;
    [|by split; [intros ? | left]].
  destruct (PathFinding.isSet (pathEndNodeId st.1)) eqn:Hend; simpl;
    [by split; [intros ? | left]|].
  destruct (pathStartNodeId st.1) as [startId|] eqn:Es; [|done].
  case_bool_decide as Hne; simpl; [|by split; [intros ? | left]].
  split.
  { intros _. simpl. rewrite Es. split; [exact Hstart | congruence]. }
  right. exists startId. simpl in Hstart.
  split; [done|]. split.
  { intros ->. by rewrite bool_decide_true in Hstart. }
  split; [congruence|]. split; [done|]. split; [done|]. split; [done|].
  split; [done|]. split.
  - unfold Store.clickCandidates.
    induction variants as [|v variants IH]; [done|]. csimpl.
    rewrite filter_cons.
    pose proof (clickCandidate_cases startId nodeId v) as Hc. simpl in Hc.
    destruct (Store.clickCandidate startId nodeId v) as [p|].
    + destruct Hc as [Hq _]. rewrite decide_True by done. simpl. by rewrite IH.
    + rewrite decide_False; [done|]. unfold qualifies. tauto.
  - intros p (v & Hv & Hc)%list_elem_of_omap.
    apply clickCandidate_shape in Hc as (Hq & Hn & He & Hf & _).
    exists v. rewrite Hn at 1 2 3 4.
    destruct (window_endpoints startId nodeId v Hq) as (? & ? & ?).
    done.
Qed.

Lemma dropIndexFrom_past {A} (l : list A) (i index : Z) :
  index < i → dropIndexFrom l i index = l.
Proof.
  revert i. induction l as [|x l IH]; intros i Hi; simpl; [done|].
  rewrite decide_True by lia. f_equal. apply IH. lia.
Qed.

Lemma dropIndexFrom_delete {A} (l : list A) (i index : Z) :
  i ≤ index → dropIndexFrom l i index = delete (Z.to_nat (index - i)) l.
Proof.
  revert i. induction l as [|x l IH]; intros i Hi; simpl; [done|].
  destruct (decide (i ≠ index)) as [Hne|Heq].
  - rewrite IH by lia.
    replace (Z.to_nat (index - i)) with (S (Z.to_nat (index - (i + 1)))) by lia.
    done.
  - assert (i = index) as -> by lia. rewrite Z.sub_diag. simpl.
    apply dropIndexFrom_past. lia.
Qed.

Lemma dropIndex_delete {A} (l : list A) (index : Z) :
  0 ≤ index → dropIndex l index = delete (Z.to_nat index) l.
Proof.
  intros H. unfold dropIndex. rewrite dropIndexFrom_delete by done.
  by rewrite Z.sub_0_r.
Qed.

Lemma at_dropIndex {A} (l : list A) (index i : Z) :
  0 ≤ index → i ≠ index →
  Js.at_ (dropIndex l index) (if decide (index < i) then i - 1 else i)
  = Js.at_ l i.
Proof.
  intros Hk Hne. rewrite dropIndex_delete by done. unfold Js.at_.
  destruct (decide (index < i)) as [Hlt|Hge].
  - destruct (Z.ltb_spec (i - 1) 0); [lia|]. destruct (Z.ltb_spec i 0); [lia|].
    rewrite list_lookup_delete_ge by lia. f_equal. lia.
  - destruct (Z.ltb_spec i 0); [done|].
    rewrite list_lookup_delete_lt by lia. done.
Qed.

(** X18. Removing a found path keeps the selection on the same path: when the
    caller passes the index of the selection and removes another index
    (which is not negative), the selected index afterwards designates the
    path it designated before, and the active path is untouched; the other
    paths keep their order. Removing the selected path clears the
    selection and the active path. *)
Theorem remove_path_keeps_selection (indexToRemove selected : Z)
    (st : GraphState * Selection) :
  0 ≤ indexToRemove →
  selectedPathIndex st.2 = Some selected →
  let st' := PathFinding.removePath indexToRemove (Some selected) st in
  foundPaths st'.1 = delete (Z.to_nat indexToRemove) (foundPaths st.1) ∧
  if decide (selected = indexToRemove)
  then selectedPathIndex st'.2 = None ∧ activePath st'.1 = None
  else ∃ selected',
         selectedPathIndex st'.2 = Some selected' ∧
         Js.at_ (foundPaths st'.1) selected' = Js.at_ (foundPaths st.1) selected ∧
         activePath st'.1 = activePath st.1.
Proof.
  intros Hk Hsel st'. subst st'. unfold PathFinding.removePath.
  destruct (decide (selected = indexToRemove)) as [->|Hne]; simpl.
  - split; [by apply dropIndex_delete | done].
  - pose proof (at_dropIndex (foundPaths st.1) indexToRemove selected Hk Hne)
      as Hat.
    destruct (decide (indexToRemove < selected)); simpl.
    + split; [by apply dropIndex_delete|]. by exists (selected - 1).
    + split; [by apply dropIndex_delete|]. by exists selected.
Qed.

Lemma remove_path_keeps_selection_witness :
  let st :=
    (PathFinding.setFoundPaths
       (Store.clickCandidates "A" "B" [traceAB (Some 1%N) 10; traceAB None 30])
       Store.initialState,
     {| selectedPathNodes := []; selectedPathEdges := [];
        selectedPathIndex := Some 1 |}) in
  selectedPathIndex (PathFinding.removePath 0 (Some 1) st).2 = Some 0 ∧
  Js.at_ (foundPaths (PathFinding.removePath 0 (Some 1) st).1) 0
  = Js.at_ (foundPaths st.1) 1.
Proof.
  intros st.
  destruct (remove_path_keeps_selection 0 1 st) as [_ H]; [lia | done |].
  destruct H as (selected' & Hs & Hat & _).
  assert (selected' = 0) as -> by (vm_compute in Hs; congruence).
  done.
Defined.

(* ------------------------------------------------------------------ *)
(** ** The handlers of the routing page *)
(* ------------------------------------------------------------------ *)

(** X19. The click handler of the routing page keeps the page coherent:
    after it, an end node is chosen only with a different start node, and
    the page holds found, processed or sorted paths or a selected index
    only while both nodes are chosen. The search effect starts its timer
    exactly when both ids are non-empty and the variants are loaded, and
    captures them. The callback of the timer writes the paths found for
    the captured ids to the three lists and resets the sort flag, on
    whatever state it finds, and touches neither the chosen nodes nor the
    selected index. Run on the state that the effect saw, it leaves the
    page coherent; run after a click on the start node has cleared the
    search, it brings the found paths back although no node is chosen. *)
Theorem routing_page_click_and_search (nodeId : string)
    (st : GraphState * RoutingPage.PageState) :
  pathsCoherent st →
  pathsCoherent (RoutingPage.handleNodeClick nodeId st) ∧
  (∀ variants startId endId vs,
     RoutingPage.searchEffectGuard variants st.1 = Some (startId, endId, vs) ↔
     pathStartNodeId st.1 = Some startId ∧ pathEndNodeId st.1 = Some endId ∧
     variants = Some vs ∧ startId ≠ "" ∧ endId ≠ "") ∧
  (∀ startId endId vs (st' : GraphState * RoutingPage.PageState),
     let paths := Routing.findPathsBetweenNodes startId endId vs in
     let r := RoutingPage.searchTimeout startId endId vs st' in
     foundPaths r.1 = paths ∧
     RoutingPage.pageProcessedPaths r.2 = paths ∧
     RoutingPage.pageSortedPaths r.2 = paths ∧
     RoutingPage.pageIsSorted r.2 = false ∧
     pathStartNodeId r.1 = pathStartNodeId st'.1 ∧
     pathEndNodeId r.1 = pathEndNodeId st'.1 ∧
     RoutingPage.pageSelectedPathIndex r.2
     = RoutingPage.pageSelectedPathIndex st'.2) ∧
  (∀ variants startId endId vs,
     RoutingPage.searchEffectGuard variants st.1 = Some (startId, endId, vs) →
     pathsCoherent (RoutingPage.searchTimeout startId endId vs st) ∧
     (Routing.findPathsBetweenNodes startId endId vs ≠ [] →
      ¬ pathsCoherent
          (RoutingPage.searchTimeout startId endId vs
             (RoutingPage.handleNodeClick startId st)))).
Proof.
  intros [Hends Hpaths]. split; [|split; [|split]].
  - unfold RoutingPage.handleNodeClick.
    destruct (PathFinding.isSet (pathStartNodeId st.1)) eqn:Hstart; simpl.
    + destruct (PathFinding.isSet (pathEndNodeId st.1)) eqn:Hend; simpl.
      * repeat case_bool_decide; (split; [by intros ?|done]).
      * specialize (Hpaths eq_refl).
        case_bool_decide as Hne; simpl.
        -- split.
           ++ intros Hset. simpl in *. split; [done|]. congruence.
           ++ simpl. intros _. done.
        -- repeat case_bool_decide; (split; [by intros ?|done]).
    + assert (PathFinding.isSet (pathEndNodeId st.1) = false) as Hend.
      { destruct (PathFinding.isSet (pathEndNodeId st.1)) eqn:E; [|done].
        destruct (Hends E) as [? _]. congruence. }
      specialize (Hpaths eq_refl).
      split.
      * intros Hset. simpl in Hset. congruence.
      * simpl. intros _. done.
  - intros variants startId endId vs. unfold RoutingPage.searchEffectGuard.
    destruct (pathStartNodeId st.1) as [a|], (pathEndNodeId st.1) as [b|],
      variants as [vs'|]; simpl; try (split; [done | intros (? & ? & ? & _); done]).
    repeat case_bool_decide; simpl; split;
      try (intros [= <- <- <-]; done); intros ([= <-] & [= <-] & [= <-] & ? & ?);
      done.
  - intros startId endId vs st' paths r. done.
  - intros variants startId endId vs Hg.
    unfold RoutingPage.searchEffectGuard in Hg.
    destruct (pathStartNodeId st.1) as [a|] eqn:Ha; [|done].
    destruct (pathEndNodeId st.1) as [b|] eqn:Hb; [|done].
    destruct variants as [vs'|]; [|done].
    destruct (PathFinding.isSet (Some a)) eqn:Hsa; [|done].
    destruct (PathFinding.isSet (Some b)) eqn:Hsb; [|done].
    injection Hg as <- <- <-. split.
    + split; [exact Hends|]. simpl. rewrite Ha, Hb, Hsa, Hsb. done.
    + intros Hne [_ Hc]. apply Hne.
      unfold RoutingPage.handleNodeClick in Hc.
      rewrite Ha, Hb, Hsa, Hsb in Hc. simpl in Hc.
      rewrite bool_decide_eq_true_2 in Hc by done.
      simpl in Hc. by destruct (Hc eq_refl) as [? _].
Qed.

Lemma routing_page_click_and_search_witness :
  pathsCoherent (RoutingPage.handleNodeClick "C" chosenAB) ∧
  RoutingPage.searchEffectGuard (Some [traceAB (Some 1%N) 10]) chosenAB.1
  = Some ("A", "B", [traceAB (Some 1%N) 10]) ∧
  pathsCoherent
    (RoutingPage.searchTimeout "A" "B" [traceAB (Some 1%N) 10] chosenAB) ∧
  ¬ pathsCoherent
      (RoutingPage.searchTimeout "A" "B" [traceAB (Some 1%N) 10]
         (RoutingPage.handleNodeClick "A" chosenAB)).
Proof.
  assert (pathsCoherent chosenAB) as H.
  { split; [intros _; split; [reflexivity | discriminate]
           | intros E; discriminate E]. }
  destruct (routing_page_click_and_search "C" chosenAB H)
    as (Hc & Hg & _ & Hrun).
  assert (RoutingPage.searchEffectGuard (Some [traceAB (Some 1%N) 10]) chosenAB.1
          = Some ("A", "B", [traceAB (Some 1%N) 10])) as Hguard.
  { apply Hg. repeat split; discriminate. }
  destruct (Hrun _ _ _ _ Hguard) as [Hok Hstale].
  split; [exact Hc|]. split; [exact Hguard|]. split; [exact Hok|].
  apply Hstale. vm_compute. discriminate.
Defined.

Section StableSort.
Context {A : Type} (key : A → Q).

Lemma insertAscending_elem a x l :
  x ∈ insertAscending key a l ↔ x = a ∨ x ∈ l.
Proof.
  induction l as [|b l IH]; simpl.
  - rewrite list_elem_of_singleton, elem_of_nil. tauto.
  - case_decide; rewrite !elem_of_cons; [rewrite IH|]; tauto.
Qed.

Lemma insertAscending_Permutation a l : insertAscending key a l ≡ₚ a :: l.
Proof.
  induction l as [|b l IH]; simpl; [done|].
  case_decide; [|done]. rewrite IH. apply Permutation_swap.
Qed.

Lemma sortAscending_Permutation l : sortAscending key l ≡ₚ l.
Proof.
  induction l as [|a l IH]; simpl; [done|].
  by rewrite insertAscending_Permutation, IH.
Qed.

Lemma insertAscending_ordered a l :
  orderedBy (λ x y, (key x <= key y)%Q) l →
  orderedBy (λ x y, (key x <= key y)%Q) (insertAscending key a l).
Proof.
  induction l as [|b l IH]; simpl; intros Hl.
  - apply orderedBy_cons. split; [constructor | apply orderedBy_nil].
  - apply orderedBy_cons in Hl as [Hb Hl].
    case_decide as Hlt; apply orderedBy_cons.
    + split; [|by apply IH]. apply Forall_forall. intros x Hx.
      apply insertAscending_elem in Hx as [->|Hx]; [by apply Qlt_le_weak|].
      by eapply Forall_forall in Hb.
    + apply Qnot_lt_le in Hlt.
      split; [|by apply orderedBy_cons]. constructor; [done|].
      eapply Forall_impl; [exact Hb|]. simpl. intros x Hx.
      by eapply Qle_trans.
Qed.

Lemma sortAscending_ordered l :
  orderedBy (λ x y, (key x <= key y)%Q) (sortAscending key l).
Proof.
  induction l as [|a l IH]; simpl; [apply orderedBy_nil|].
  by apply insertAscending_ordered.
Qed.

(** The sort is stable: the elements with the same key keep their order. *)
Lemma insertAscending_stable (k : Q) a l :
  filter (λ x, (key x == k)%Q) (insertAscending key a l)
  = filter (λ x, (key x == k)%Q) (a :: l).
Proof.
  induction l as [|b l IH]; simpl; [done|].
  case_decide as Hlt; [|done].
  rewrite filter_cons, IH, !filter_cons.
  destruct (decide (key b == k)%Q) as [Hb|Hb];
    destruct (decide (key a == k)%Q) as [Ha|Ha]; try done.
  exfalso. rewrite Hb, Ha in Hlt. by apply Qlt_irrefl in Hlt.
Qed.

Lemma sortAscending_stable (k : Q) l :
  filter (λ x, (key x == k)%Q) (sortAscending key l)
  = filter (λ x, (key x == k)%Q) l.
Proof.
  induction l as [|a l IH]; simpl; [done|].
  by rewrite insertAscending_stable, !filter_cons, IH.
Qed.

End StableSort.

(** X20. Sorting the paths of the routing page orders the shown list by
    average duration, the shortest first (a path without an average
    counts as 0); the list is a rearrangement of the processed paths in
    which paths of equal average keep their order; the processed paths
    are untouched, and sorting again changes nothing. *)
Theorem sort_paths_by_average_duration (page : RoutingPage.PageState) :
  RoutingPage.pageIsSorted page = false →
  let page' := RoutingPage.handleSortPaths page in
  orderedBy (λ p q, (RoutingPage.averageDurationKey p
                     <= RoutingPage.averageDurationKey q)%Q)
    (RoutingPage.pageSortedPaths page') ∧
  RoutingPage.pageSortedPaths page' ≡ₚ RoutingPage.pageProcessedPaths page ∧
  (∀ d, filter (λ p, (RoutingPage.averageDurationKey p == d)%Q)
          (RoutingPage.pageSortedPaths page')
        = filter (λ p, (RoutingPage.averageDurationKey p == d)%Q)
            (RoutingPage.pageProcessedPaths page)) ∧
  RoutingPage.pageProcessedPaths page' = RoutingPage.pageProcessedPaths page ∧
  RoutingPage.handleSortPaths page' = page'.
Proof.
  intros Hs page'. subst page'. unfold RoutingPage.handleSortPaths at 1 2 3 4.
  rewrite Hs. simpl. split; [apply sortAscending_ordered|].
  split; [apply sortAscending_Permutation|].
  split; [intros d; apply sortAscending_stable|]. split; [done|].
  unfold RoutingPage.handleSortPaths. rewrite Hs. done.
Qed.

Lemma sort_paths_by_average_duration_witness :
  RoutingPage.pageSortedPaths
    (RoutingPage.handleSortPaths
       {| RoutingPage.pageProcessedPaths :=
            Routing.findPathsBetweenNodes "X" "Z" [loopVariant];
          RoutingPage.pageSortedPaths :=
            Routing.findPathsBetweenNodes "X" "Z" [loopVariant];
          RoutingPage.pageSelectedPathIndex := None;
          RoutingPage.pageIsSorted := false |})
  ≡ₚ Routing.findPathsBetweenNodes "X" "Z" [loopVariant].
Proof.
  refine (proj1 (proj2 (sort_paths_by_average_duration
                          {| RoutingPage.pageProcessedPaths :=
                               Routing.findPathsBetweenNodes "X" "Z" [loopVariant];
                             RoutingPage.pageSortedPaths :=
                               Routing.findPathsBetweenNodes "X" "Z" [loopVariant];
                             RoutingPage.pageSelectedPathIndex := None;
                             RoutingPage.pageIsSorted := false |} _))).
  reflexivity.
Defined.

(* ------------------------------------------------------------------ *)
(** ** The outlier paths *)
(* ------------------------------------------------------------------ *)

Lemma fold_left_Qplus (l : list Q) (x : Q) :
  (fold_left Qplus l x == x + sumQ l)%Q.
Proof.
  revert x. induction l as [|y l IH]; intros x.
  - unfold sumQ. simpl. ring.
  - change (fold_left Qplus (y :: l) x) with (fold_left Qplus l (x + y)%Q).
    rewrite IH, sumQ_cons. ring.
Qed.

Lemma statStep_get variant (m : JsMap.t Outliers.EdgeStat) (i : Z) (e : string)
    (passes : list Z) :
  JsMap.get e m = statOf variant passes →
  JsMap.get e (Outliers.statStep variant m i)
  = statOf variant
      (passes ++ if decide (i + 1 < Js.len (Avg_Timings variant)
                            ∧ edgeAt variant i = e) then [i] else []).
Proof.
  intros Hget. unfold Outliers.statStep.
  destruct (decide (i + 1 < Js.len (Avg_Timings variant))) as [Ht|Ht].
  - fold (edgeAt variant i).
    destruct (decide (edgeAt variant i = e)) as [He|He].
    + rewrite decide_True by done. rewrite He, JsMap_get_set_eq, Hget.
      unfold statOf. destruct passes as [|j passes]; simpl; [done|].
      f_equal. f_equal.
      * by rewrite fmap_app, fold_left_app.
      * rewrite length_app. simpl. lia.
    + rewrite decide_False by tauto. rewrite app_nil_r.
      by rewrite JsMap_get_set_ne.
  - rewrite decide_False by tauto. by rewrite app_nil_r.
Qed.

Lemma statFold_spec variant (steps : list Z) (e : string) :
  let m := fold_left (Outliers.statStep variant) steps JsMap.empty in
  NoDup (JsMap.keys m) ∧
  JsMap.get e m
  = statOf variant
      (filter (λ i, i + 1 < Js.len (Avg_Timings variant) ∧ edgeAt variant i = e)
         steps).
Proof.
  induction steps as [|i steps [IHnd IHget]] using rev_ind; simpl.
  - split; [constructor | done].
  - rewrite fold_left_app. simpl. split.
    + unfold Outliers.statStep. case_decide; [|done]. by apply JsMap_NoDup_set.
    + rewrite filter_app, filter_cons, filter_nil. by apply statStep_get.
Qed.

Lemma objectOf_lookup {V} (f : Outliers.EdgeStat → V)
    (m : JsMap.t Outliers.EdgeStat) (e : string) :
  NoDup (JsMap.keys m) →
  Outliers.objectOf f m !! e = f <$> JsMap.get e m.
Proof.
  unfold Outliers.objectOf.
  assert (∀ (o : gmap string V),
            NoDup (JsMap.keys m) →
            fold_left (λ o entry, <[entry.1 := f entry.2]> o) m o !! e
            = match JsMap.get e m with
              | Some s => Some (f s)
              | None => o !! e
              end) as H.
  { induction m as [|[k s] m IH]; intros o Hnd; [done|]. simpl.
    apply NoDup_cons in Hnd as [Hk Hnd]. rewrite IH by done.
    destruct (decide (k = e)) as [->|Hne].
    - apply JsMap_get_None in Hk. simpl in Hk. rewrite Hk.
      by rewrite lookup_insert_eq.
    - destruct (JsMap.get e m); [done|]. by rewrite lookup_insert_ne. }
  intros Hnd. rewrite H by done. by destruct (JsMap.get e m).
Qed.

Lemma passesOf_outlier variant e :
  passesOf variant 0 (Js.len (Variant_Path variant) - 1) e
  = filter (λ i, i + 1 < Js.len (Avg_Timings variant) ∧ edgeAt variant i = e)
      (seqZ 0 (Js.len (Variant_Path variant) - 1)).
Proof. unfold passesOf. by rewrite Z.sub_0_r. Qed.

(** X21. The statistics that an outlier path records for an edge are those of
    all the passes of its trace over the edge that have both timestamps:
    the count is their number, the total is the sum of their durations
    and the average is the total divided by the count; the durations are
    differences of timestamps that are not clamped. The edges of the path
    are distinct and are the edges with at least one such pass. *)
Theorem outlier_edge_statistics (variant : Variant) (e : string) :
  let p := Outliers.mapVariant variant in
  let passes := passesOf variant 0 (Js.len (Variant_Path variant) - 1) e in
  NoDup (edges (Outliers.pathData p)) ∧
  (e ∈ edges (Outliers.pathData p) ↔ passes ≠ []) ∧
  Outliers._specificEdgeCounts p !! e
  = (if decide (passes = []) then None else Some (N.of_nat (length passes))) ∧
  entryIs (lookupIn (_specificTotalDurations (Outliers.pathData p)) e)
    (passes ≠ []) (sumQ (stepDuration variant <$> passes)) ∧
  entryIs (lookupIn (_specificEdgeDurations (Outliers.pathData p)) e)
    (passes ≠ [])
    (sumQ (stepDuration variant <$> passes)
     / Js.numOfN (N.of_nat (length passes)))%Q.
Proof.
  intros p passes. subst p passes. rewrite passesOf_outlier.
  destruct (statFold_spec variant
              (seqZ 0 (Js.len (Variant_Path variant) - 1)) e) as [Hnd Hget].
  simpl. fold (Outliers.edgeStatsOf variant) in Hnd, Hget.
  rewrite !objectOf_lookup by done. rewrite Hget.
  set (passes := filter _ _) in *.
  split; [done|]. split; [|split; [|split]].
  - destruct (decide (e ∈ JsMap.keys (Outliers.edgeStatsOf variant)))
      as [Hin|Hout].
    + split; [intros _|done]. intros Hp.
      assert (JsMap.get e (Outliers.edgeStatsOf variant) = None) as Hn
        by (by rewrite Hget, Hp).
      by apply JsMap_get_None in Hn.
    + split; [done|]. intros Hp. exfalso. apply JsMap_get_None in Hout.
      rewrite Hget in Hout. by destruct passes.
  - by destruct passes.
  - destruct passes as [|i passes']; [simpl; by intros ?|].
    split; [done|]. cbn [statOf Outliers.es_sum].
    rewrite fold_left_Qplus. ring.
  - destruct passes as [|i passes']; [simpl; by intros ?|].
    split; [done|]. cbn [statOf Outliers.es_sum Outliers.es_count].
    rewrite fold_left_Qplus. apply Qmult_comp; [ring | done].
Qed.

Lemma numOfN_le (a b : N) : (Js.numOfN a <= Js.numOfN b)%Q ↔ (a ≤ b)%N.
Proof. unfold Js.numOfN. rewrite <- Zle_Qle. lia. Qed.

Lemma numOfN_eq (a b : N) : (Js.numOfN a == Js.numOfN b)%Q ↔ a = b.
Proof. unfold Js.numOfN. rewrite inject_Z_injective. lia. Qed.

(** X23. The outliers page lists one path per variant, the least frequent
    first (a variant without a frequency counts as 0); variants of equal
    frequency keep the order of the input. *)
Theorem outliers_least_frequent_first (outliers : list Variant) :
  let result := Outliers.sortedPaths outliers in
  let frequencyOf := λ p, Js.orN (_frequency (Outliers.pathData p)) 0 in
  orderedBy (λ p q, (frequencyOf p ≤ frequencyOf q)%N) result ∧
  result ≡ₚ Outliers.mapVariant <$> outliers ∧
  ∀ f, filter (λ p, frequencyOf p = f) result
       = Outliers.mapVariant
           <$> filter (λ v, Js.orN (Frequency v) 0 = f) outliers.
Proof.
  intros result frequencyOf. subst result.
  assert (Outliers.sortedPaths outliers
          = sortAscending Outliers.frequencyKey (Outliers.mapVariant <$> outliers))
    as ->.
  { unfold Outliers.sortedPaths. case_decide as H; [|done].
    destruct outliers; [done|]. unfold Js.len in H. simpl in H. lia. }
  split; [|split].
  - pose proof (sortAscending_ordered Outliers.frequencyKey
                  (Outliers.mapVariant <$> outliers)) as Ho.
    intros i j a b Hij Ha Hb. apply numOfN_le. by apply (Ho i j a b).
  - apply sortAscending_Permutation.
  - intros f.
    pose proof (sortAscending_stable Outliers.frequencyKey (Js.numOfN f)
                  (Outliers.mapVariant <$> outliers)) as Hs.
    rewrite (filter_ext_elem (λ p, frequencyOf p = f)
               (λ p, (Outliers.frequencyKey p == Js.numOfN f)%Q)).
    2:{ intros p _. unfold Outliers.frequencyKey. by rewrite numOfN_eq. }
    rewrite Hs. clear Hs.
    induction outliers as [|v outliers IH]; [done|]. csimpl.
    rewrite !filter_cons, IH.
    unfold Outliers.frequencyKey at 1. simpl.
    destruct (decide (Js.numOfN (Js.orN (Frequency v) 0) == Js.numOfN f)%Q)
      as [Heq|Hne].
    + apply numOfN_eq in Heq. by rewrite decide_True.
    + rewrite decide_False; [done|]. intros Heq. apply Hne.
      by apply numOfN_eq.
Qed.

(* ------------------------------------------------------------------ *)
(** ** The layout request of the dashboard *)
(* ------------------------------------------------------------------ *)

Lemma setToArray_NoDup (seen : gset string) (l : list string) :
  NoDup (PathSelection.setToArray seen l).
Proof.
  revert seen. induction l as [|x l IH]; intros seen; simpl; [constructor|].
  case_decide as Hx; [apply IH|]. constructor; [|apply IH].
  intros Hin%setToArray_elem. destruct Hin as [_ Hout]. apply Hout.
  apply elem_of_union. left. by apply elem_of_singleton.
Qed.

Lemma filterGraph_nodes_sublist config nodes edges :
  sublist (Store.filterGraph config nodes edges).1 nodes.
Proof.
  unfold Store.filterGraph, Store.applyNodeFilter, Store.applyEdgeFilter.
  destruct (filteredEdgeIds config); repeat case_decide; simpl;
    try done; apply sublist_filter.
Qed.

Lemma graphToLayout_NoDup config nodes edges :
  NoDup (node_id <$> nodes) →
  (∀ info, activePathInfo config = Some info → NoDup (api_nodes info)) →
  (∀ info, searchCasePathInfo config = Some info → NoDup (sc_nodes info)) →
  NoDup (node_id <$> (Store.graphToLayout config nodes edges).1).
Proof.
  intros Hnd Hactive Hsearch. unfold Store.graphToLayout.
  assert (NoDup (node_id <$> (Store.filterGraph config nodes edges).1)) as Hf.
  { eapply sublist_NoDup; [exact Hnd|].
    apply fmap_sublist, filterGraph_nodes_sublist. }
  assert (NoDup (node_id <$> (Store.injectGhosts (activePathInfo config)
                                (Store.filterGraph config nodes edges)).1))
    as Hg.
  { destruct (activePathInfo config) as [info|]; [|done]. simpl.
    apply addOverlayNodes_NoDup; [done | by apply Hactive]. }
  destruct (searchCasePathInfo config) as [info|]; [|done]. simpl.
  apply addOverlayNodes_NoDup; [done | by apply Hsearch].
Qed.

Lemma layoutRequest_nodes app s config :
  Dashboard.layoutRequest app s = Some config →
  (∀ info, activePathInfo config = Some info →
           api_nodes info = selectedPathNodes (Dashboard.selection app)) ∧
  (∀ info, searchCasePathInfo config = Some info →
           sc_nodes info = selectedPathNodes (Dashboard.selection app)).
Proof.
  unfold Dashboard.layoutRequest. case_decide; [done|]. intros [= <-]. simpl.
  split.
  - unfold Dashboard.activePathInfoOf. intros info.
    repeat case_decide; try done; intros [= <-]; simpl;
      unfold Dashboard.pathArrays; by case_decide.
  - unfold Dashboard.searchCasePathInfoOf. intros info.
    repeat case_decide; try done; intros [= <-]; simpl;
      unfold Dashboard.pathArrays; by case_decide.
Qed.

(** X24. The dashboard never asks for the layout of two nodes with the same
    id: after a path or an outlier is selected through the store, the
    selection holds every node of the path once, also when the path visits
    a node several times, and the graph that the layout effect sends to
    the layout has pairwise distinct node ids whenever the nodes of the
    store have. *)
Theorem dashboard_selection_has_distinct_nodes (path : ExtendedPath)
    (index : Z) (st : GraphState * Selection) (app : Dashboard.AppState)
    (s : GraphState) (config : LayoutConfig) :
  Dashboard.selection app = (PathFinding.handleSelectPath path index st).2
  ∨ Dashboard.selection app = (PathFinding.handleSelectOutlier path st).2 →
  NoDup (node_id <$> allNodes s) →
  Dashboard.layoutRequest app s = Some config →
  NoDup (selectedPathNodes (Dashboard.selection app)) ∧
  (∀ id, id ∈ selectedPathNodes (Dashboard.selection app) ↔ id ∈ nodes path) ∧
  NoDup (node_id
           <$> (Store.graphToLayout config (allNodes s) (allEdges s)).1).
Proof.
  intros Hsel Hnd Hreq.
  assert (selectedPathNodes (Dashboard.selection app)
          = PathSelection.setToArray ∅ (nodes path)) as Hnodes.
  { destruct Hsel as [-> | ->]; [|done].
    unfold PathFinding.handleSelectPath. by destruct (Js.at_ _ _). }
  assert (NoDup (selectedPathNodes (Dashboard.selection app))) as Hsn.
  { rewrite Hnodes. apply setToArray_NoDup. }
  split; [done|]. split.
  - intros id. rewrite Hnodes, setToArray_elem. split; [tauto|].
    intros H. split; [done | apply not_elem_of_empty].
  - destruct (layoutRequest_nodes app s config Hreq) as [Ha Hs].
    apply graphToLayout_NoDup; [done| |].
    + intros info Hi. by rewrite (Ha info Hi).
    + intros info Hi. by rewrite (Hs info Hi).
Qed.

Lemma dashboard_selection_has_distinct_nodes_witness :
  ∃ path config,
    Store.clickCandidates "X" "Z" [loopVariant] = [path] ∧
    nodes path = ["X"; "Y"; "X"; "Z"] ∧
    let selection :=
      (PathFinding.handleSelectPath path 0 (storeABC, noSelection)).2 in
    Dashboard.layoutRequest (routingApp selection) storeABC = Some config ∧
    NoDup (node_id
             <$> (Store.graphToLayout config (allNodes storeABC)
                    (allEdges storeABC)).1).
Proof.
  eexists. eexists. split; [reflexivity|]. split; [reflexivity|].
  split; [reflexivity|].
  refine (proj2 (proj2 (dashboard_selection_has_distinct_nodes _ 0
                          (storeABC, noSelection) (routingApp _) storeABC _
                          (or_introl eq_refl) _ eq_refl))).
  apply (bool_decide_eq_true_1 _). vm_compute. reflexivity.
Defined.

(* ------------------------------------------------------------------ *)
(** ** The override of an edge for the paths that the pages build *)
(* ------------------------------------------------------------------ *)

Lemma edgeIndices_nil pathEdges id :
  id ∉ pathEdges → Store.edgeIndices pathEdges id = [].
Proof.
  intros Hid. unfold Store.edgeIndices.
  destruct (Store.edgeIndicesFrom pathEdges id 0) as [|idx rest] eqn:E; [done|].
  assert (idx ∈ Store.edgeIndicesFrom pathEdges id 0) as Hin
    by (rewrite E; left).
  apply edgeIndicesFrom_elem in Hin as [_ Hl].
  exfalso. apply Hid. by eapply list_elem_of_lookup_2.
Qed.

(** When every edge that a path lists has a recorded duration, only the
    recorded durations decide the override. *)
Lemma override_of_recorded (path : ExtendedPath) (edge : Edge) :
  (∀ e, e ∈ edges path → is_Some (lookupIn (_specificEdgeDurations path) e)) →
  Store.calculateEdgeOverride edge (Some path)
  = Store.specificOverride path (edge_id edge)
      <$> lookupIn (_specificEdgeDurations path) (edge_id edge).
Proof.
  intros Hrec. unfold Store.calculateEdgeOverride.
  destruct (lookupIn (_specificEdgeDurations path) (edge_id edge)) eqn:E;
    [done|]. simpl.
  rewrite edgeIndices_nil.
  2:{ intros Hin. destruct (Hrec _ Hin) as [? ?]. congruence. }
  by destruct (_variantTimings path), (_startIndex path).
Qed.

Lemma outlier_edges_recorded (outlier : Variant) (e : string) :
  e ∈ edges (Outliers.pathData (Outliers.mapVariant outlier)) →
  is_Some (lookupIn (_specificEdgeDurations
                       (Outliers.pathData (Outliers.mapVariant outlier))) e).
Proof.
  simpl. intros He.
  destruct (statFold_spec outlier
              (seqZ 0 (Js.len (Variant_Path outlier) - 1)) e) as [Hnd _].
  simpl in Hnd. fold (Outliers.edgeStatsOf outlier) in Hnd.
  rewrite objectOf_lookup by done.
  destruct (JsMap.get e (Outliers.edgeStatsOf outlier)) eqn:E; [by eexists|].
  by apply JsMap_get_None in E.
Qed.

Lemma groupFrequency_pos (grp : list ExtendedPath) :
  grp ≠ [] → (1 ≤ groupFrequency grp)%N.
Proof.
  destruct grp as [|p grp]; [done|]. intros _.
  unfold groupFrequency. csimpl. unfold sumN at 1. simpl.
  assert (1 ≤ countedFrequency p)%N; [|lia].
  unfold countedFrequency, Js.orN. destruct (frequency p) as [n|]; [|lia].
  destruct (N.eqb_spec n 0); lia.
Qed.

(** X25. For a path found by the routing page and for a path of the outliers
    page, the override of an edge is decided by the durations that the
    path records alone: an edge with a recorded average gets the override
    built from it (the label is the formatted average), any other edge
    gets none, and the raw timings of the path are never consulted. For a
    found path the frequency shown in the tooltip is the merged frequency
    of the path. *)
Theorem page_path_override (startId endId : string) (variants : list Variant)
    (outlier : Variant) (path : ExtendedPath) (edge : Edge) :
  path ∈ Routing.findPathsBetweenNodes startId endId variants
  ∨ path = Outliers.pathData (Outliers.mapVariant outlier) →
  Store.calculateEdgeOverride edge (Some path)
  = Store.specificOverride path (edge_id edge)
      <$> lookupIn (_specificEdgeDurations path) (edge_id edge) ∧
  (path ∈ Routing.findPathsBetweenNodes startId endId variants →
   ∀ o, Store.calculateEdgeOverride edge (Some path) = Some o →
        Some (Store.to_label (Store.tooltipOverride o)) = frequency path ∧
        (1 ≤ Store.to_label (Store.tooltipOverride o))%N).
Proof.
  intros Hpath.
  assert (Store.calculateEdgeOverride edge (Some path)
          = Store.specificOverride path (edge_id edge)
              <$> lookupIn (_specificEdgeDurations path) (edge_id edge)) as Heq.
  { apply override_of_recorded. intros e He.
    destruct Hpath as [Hfound | ->]; [|by apply outlier_edges_recorded].
    apply found_path_origin in Hfound as (v & first & g & _ & Hex & -> & Hg).
    change (edges (Routing.mergeGroup g)) with (edges (Routing.g_path g)) in He.
    rewrite Hg, (extractVariant_edges _ _ _ _ Hex) in He.
    by apply elem_of_nil in He. }
  split; [done|].
  intros Hfound o Ho. rewrite Heq in Ho.
  rewrite findPaths_aggregate in Hfound.
  apply aggregate_elem in Hfound as (g & -> & Hne & Hspec).
  destruct Hspec as (_ & Hfreq & _).
  pose proof (groupFrequency_pos _ Hne) as Hpos. rewrite <- Hfreq in Hpos.
  destruct (lookupIn _ _) as [avg|]; [|done].
  injection Ho as <-. simpl. unfold Js.orN.
  destruct (N.eqb_spec (Routing.totalFrequency g) 0); [lia|]. done.
Qed.

Lemma page_path_override_witness :
  ∃ p, head (Routing.findPathsBetweenNodes "X" "Z" [loopVariant]) = Some p ∧
       Store.calculateEdgeOverride (Store.overlayEdge true "X->Y") (Some p)
       = Store.specificOverride p "X->Y"
           <$> lookupIn (_specificEdgeDurations p) "X->Y".
Proof.
  eexists. split; [vm_compute; reflexivity|].
  refine (proj1 (page_path_override "X" "Z" [loopVariant] loopVariant _
                   (Store.overlayEdge true "X->Y") (or_introl _))).
  apply head_Some_elem_of. vm_compute. reflexivity.
Defined.

(** X26. For a path found by a click, built from a variant whose timing array
    covers its trace, every edge of the path gets an override from the
    raw timings: it counts every pass of the path over the edge, and its
    duration is the sum of the clamped durations of these passes. *)
Theorem click_candidate_override (startId endId : string) (variant : Variant)
    (path : ExtendedPath) (edge : Edge) :
  Store.clickCandidate startId endId variant = Some path →
  Js.len (Variant_Path variant) ≤ Js.len (Avg_Timings variant) →
  edge_id edge ∈ edges path →
  let occurrences := Store.edgeIndices (edges path) (edge_id edge) in
  let startIdx := Routing.resolveStartIndex startId (Variant_Path variant) in
  ∃ oc,
    Store.calculateEdgeOverride edge (Some path)
    = Some (Store.variantOverride path oc) ∧
    Store.oc_count oc
    = N.of_nat (length (filter (λ e, e = edge_id edge) (edges path))) ∧
    (1 ≤ Store.oc_count oc)%N ∧
    (Store.oc_totalDuration oc
     == sumQ (clampedDelta (Avg_Timings variant) startIdx <$> occurrences))%Q.
Proof.
  intros Hc Hcover Hin occurrences startIdx.
  destruct (clickCandidate_shape _ _ _ _ Hc)
    as (Hq & Hn & He & _ & Ht & Hs & Hd).
  destruct (window_shape startId endId variant Hq)
    as (H0 & Hse & Hend & Hlen & _).
  fold startIdx in H0, Hse, Hs. rewrite <- Hn in Hlen.
  assert (length (edges path) = (length (nodes path) - 1)%nat) as Hedges
    by (rewrite He; apply consecutiveEdgeIds_length).
  assert (Forall (timed (Avg_Timings variant) startIdx) occurrences) as Htimed.
  { apply Forall_forall. intros idx Hidx.
    apply edgeIndicesFrom_elem in Hidx as [Hi0 Hl].
    apply lookup_lt_Some in Hl. unfold Js.len in *.
    unfold timed, Js.at_.
    destruct (Z.ltb_spec (startIdx + idx) 0); [lia|].
    destruct (Z.ltb_spec (startIdx + idx + 1) 0); [lia|].
    split; apply lookup_lt_is_Some; lia. }
  assert (occurrences ≠ []) as Hocc.
  { intros Hnil. apply list_elem_of_lookup in Hin as [i Hi].
    assert (Z.of_nat i ∈ occurrences) as Hmem.
    { apply edgeIndicesFrom_elem. split; [lia|].
      by rewrite Z.sub_0_r, Nat2Z.id. }
    rewrite Hnil in Hmem. by apply elem_of_nil in Hmem. }
  destruct (sumOccurrences_spec (Avg_Timings variant) startIdx occurrences)
    as [Hcount Htotal].
  rewrite (filter_all _ _ Htimed) in Hcount, Htotal.
  exists (Store.sumOccurrences (Avg_Timings variant) startIdx occurrences).
  assert (Store.oc_count
            (Store.sumOccurrences (Avg_Timings variant) startIdx occurrences)
          = N.of_nat (length (filter (λ e, e = edge_id edge) (edges path))))
    as Hcount'.
  { rewrite Hcount. f_equal. apply edgeIndicesFrom_length. }
  assert (1 ≤ Store.oc_count
                (Store.sumOccurrences (Avg_Timings variant) startIdx occurrences))%N
    as Hpos.
  { rewrite Hcount. destruct occurrences; [done|]. simpl. lia. }
  split; [|done].
  unfold Store.calculateEdgeOverride. rewrite Hd, Ht, Hs. simpl.
  fold occurrences.
  rewrite decide_True.
  - rewrite decide_True by lia. done.
  - split.
    + destruct occurrences; [done|]. unfold Js.len. simpl. lia.
    + lia.
Qed.

Lemma click_candidate_override_witness :
  ∃ p oc,
    Store.clickCandidate "X" "Z" loopVariant = Some p ∧
    Store.calculateEdgeOverride (Store.overlayEdge true "X->Y") (Some p)
    = Some (Store.variantOverride p oc) ∧
    Store.oc_count oc = 1%N.
Proof.
  eexists.
  destruct (click_candidate_override "X" "Z" loopVariant _
              (Store.overlayEdge true "X->Y") eq_refl)
    as (oc & Ho & Hc & _).
  - vm_compute. discriminate.
  - left.
  - exists oc. split; [reflexivity|]. split; [exact Ho | exact Hc].
Defined.

(* ------------------------------------------------------------------ *)
(** ** Formatting durations *)
(* ------------------------------------------------------------------ *)

(** X27. A whole number of seconds below one minute is printed as it is,
    without rounding and without fraction digits, followed by the unit
    of seconds. *)
Theorem format_whole_seconds (n : Z) :
  0 ≤ n < 60 →
  Format.formatDuration (inject_Z n) = pretty n +:+ " ثانیه".
Proof.
  intros Hn. unfold Format.formatDuration.
  rewrite decide_True.
  2:{ change (inject_Z n < inject_Z 60)%Q. rewrite <- Zlt_Qlt. lia. }
  f_equal. unfold Format.toFixed.
  rewrite decide_False.
  2:{ apply Qle_not_lt. change (inject_Z 0 <= inject_Z n)%Q.
      rewrite <- Zle_Qle. lia. }
  assert (Qfloor (Qabs (inject_Z n) * inject_Z (10 ^ Z.of_nat 0) + (1 # 2)) = n)
    as ->.
  { rewrite Qabs_pos
      by (change (inject_Z 0 <= inject_Z n)%Q; rewrite <- Zle_Qle; lia).
    change (10 ^ Z.of_nat 0) with 1.
    unfold Qfloor, Qmult, Qplus, inject_Z. simpl.
    change (Z.pos (1 * 1)) with 1. change (Z.pos (1 * 1 * 2)) with 2.
    symmetry. apply (Z.div_unique _ 2 n 1); lia. }
  change (10 ^ Z.of_nat 0) with 1. rewrite Z.div_1_r.
  by rewrite append_nil_l, append_nil_r.
Qed.

Lemma format_whole_seconds_witness :
  Format.formatDuration (inject_Z 42) = "42 ثانیه".
Proof. apply (format_whole_seconds 42). lia. Defined.

(* ------------------------------------------------------------------ *)
(** ** Laying out a selected outlier *)
(* ------------------------------------------------------------------ *)

Lemma strAt_cons (a : string) (l : list string) (i : nat) :
  Js.strAt (a :: l) (Z.of_nat (S i)) = Js.strAt l (Z.of_nat i).
Proof.
  unfold Js.strAt, Js.at_.
  destruct (Z.ltb_spec (Z.of_nat (S i)) 0); [lia|].
  destruct (Z.ltb_spec (Z.of_nat i) 0); [lia|].
  by rewrite !Nat2Z.id.
Qed.

Lemma consecutiveEdgeIds_lookup (l : list string) (i : nat) :
  (i + 1 < length l)%nat →
  Store.consecutiveEdgeIds l !! i
  = Some (edgeIdOf (Js.strAt l (Z.of_nat i)) (Js.strAt l (Z.of_nat i + 1))).
Proof.
  revert i. induction l as [|a [|b rest] IH]; intros i Hi; simpl in Hi;
    [lia | lia |].
  destruct i as [|i].
  - done.
  - change (Store.consecutiveEdgeIds (a :: b :: rest))
      with (edgeIdOf a b :: Store.consecutiveEdgeIds (b :: rest)).
    rewrite lookup_cons. rewrite IH by (simpl; lia).
    replace (Z.of_nat (S i) + 1) with (Z.of_nat (S (S i))) by lia.
    replace (Z.of_nat i + 1) with (Z.of_nat (S i)) by lia.
    by rewrite !strAt_cons.
Qed.

Lemma consecutiveEdgeIds_edgeAt (variant : Variant) (e : string) :
  e ∈ Store.consecutiveEdgeIds (Variant_Path variant) ↔
  ∃ i, 0 ≤ i < Js.len (Variant_Path variant) - 1 ∧ edgeAt variant i = e.
Proof.
  pose proof (consecutiveEdgeIds_length (Variant_Path variant)) as Hlen.
  unfold Js.len. split.
  - intros [i Hi]%list_elem_of_lookup.
    pose proof (lookup_lt_Some _ _ _ Hi) as Hlt.
    rewrite consecutiveEdgeIds_lookup in Hi by lia. injection Hi as <-.
    exists (Z.of_nat i). split; [lia | done].
  - intros (i & Hi & <-). apply list_elem_of_lookup. exists (Z.to_nat i).
    rewrite consecutiveEdgeIds_lookup by lia. unfold edgeAt.
    by rewrite Z2Nat.id by lia.
Qed.

Lemma passesOf_covered (variant : Variant) (e : string) :
  Js.len (Variant_Path variant) ≤ Js.len (Avg_Timings variant) →
  passesOf variant 0 (Js.len (Variant_Path variant) - 1) e ≠ [] ↔
  e ∈ Store.consecutiveEdgeIds (Variant_Path variant).
Proof.
  intros Hcover. rewrite consecutiveEdgeIds_edgeAt, passesOf_outlier. split.
  - intros Hne.
    destruct (filter _ _) as [|i rest] eqn:E; [done|].
    assert (i ∈ filter (λ i, i + 1 < Js.len (Avg_Timings variant)
                             ∧ edgeAt variant i = e)
                  (seqZ 0 (Js.len (Variant_Path variant) - 1))) as Hin
      by (rewrite E; left).
    apply list_elem_of_filter in Hin as [[_ He] Hi%elem_of_seqZ].
    exists i. split; [lia | done].
  - intros (i & Hi & He) Hnil.
    assert (i ∈ filter (λ i, i + 1 < Js.len (Avg_Timings variant)
                             ∧ edgeAt variant i = e)
                  (seqZ 0 (Js.len (Variant_Path variant) - 1))) as Hin.
    { apply list_elem_of_filter. split; [split; [lia | done]|].
      apply elem_of_seqZ. lia. }
    rewrite Hnil in Hin. by apply elem_of_nil in Hin.
Qed.

Lemma outlier_edges_present (variant : Variant) (e : string) :
  e ∈ edges (Outliers.pathData (Outliers.mapVariant variant)) ↔
  passesOf variant 0 (Js.len (Variant_Path variant) - 1) e ≠ [].
Proof.
  rewrite passesOf_outlier.
  destruct (statFold_spec variant
              (seqZ 0 (Js.len (Variant_Path variant) - 1)) e) as [Hnd Hget].
  simpl in Hnd, Hget. fold (Outliers.edgeStatsOf variant) in Hnd, Hget.
  change (edges (Outliers.pathData (Outliers.mapVariant variant)))
    with (JsMap.keys (Outliers.edgeStatsOf variant)).
  destruct (filter _ _) as [|i passes] eqn:E.
  - apply JsMap_get_None in Hget. tauto.
  - split; [done|]. intros _.
    destruct (decide (e ∈ JsMap.keys (Outliers.edgeStatsOf variant)))
      as [|Hout]; [done|].
    apply JsMap_get_None in Hout. rewrite Hout in Hget. done.
Qed.

(** X28. Selecting an outlier whose timing array covers its trace lays out
    exactly the trace, whatever the store holds: the node ids of the graph
    sent to the layout are the nodes of the trace and its edge ids are the
    ids of the consecutive pairs of the trace. *)
Theorem selected_outlier_is_laid_out (selectedColorPalette : string)
    (variant : Variant) (allNodes : list Node) (allEdges : list Edge) :
  allNodes ≠ [] →
  2 ≤ Js.len (Variant_Path variant) →
  Js.len (Variant_Path variant) ≤ Js.len (Avg_Timings variant) →
  let path := Outliers.pathData (Outliers.mapVariant variant) in
  let graph :=
    Store.graphToLayout (Outliers.selectOutlierConfig selectedColorPalette path)
      allNodes allEdges in
  (∀ id, id ∈ node_id <$> graph.1 ↔ id ∈ Variant_Path variant) ∧
  (∀ id, id ∈ edge_id <$> graph.2 ↔
         id ∈ Store.consecutiveEdgeIds (Variant_Path variant)) ∧
  (∀ id, id ∈ edges path ↔
         id ∈ Store.consecutiveEdgeIds (Variant_Path variant)).
Proof.
  intros Hall Hlen Hcover path graph.
  assert (∀ id, id ∈ edges path ↔
                id ∈ Store.consecutiveEdgeIds (Variant_Path variant)) as Hedges.
  { intros id.
    subst path. etrans; [apply outlier_edges_present|].
    by apply passesOf_covered. }
  assert (Variant_Path variant ≠ []) as Hpn.
  { intros E. rewrite E in Hlen. unfold Js.len in Hlen. simpl in Hlen. lia. }
  assert (edges path ≠ []) as Hpe.
  { destruct (Store.consecutiveEdgeIds (Variant_Path variant)) as [|id ids] eqn:E.
    - pose proof (consecutiveEdgeIds_length (Variant_Path variant)) as Hl.
      rewrite E in Hl. unfold Js.len in Hlen. simpl in Hl. lia.
    - intros Hnil. assert (id ∈ edges path) as Hin.
      { apply Hedges. left. }
      rewrite Hnil in Hin. by apply elem_of_nil in Hin. }
  destruct (path_layout_graph
              (Outliers.selectOutlierConfig selectedColorPalette path)
              {| api_nodes := nodes path;
                 api_edges := edges path;
                 edgeDurations :=
                   Some (Routing.objOrEmpty (_specificEdgeDurations path));
                 edgeTotalDurations :=
                   Some (Routing.objOrEmpty (_specificTotalDurations path));
                 api_frequency := Some (Js.orN (_frequency path) 1) |}
              allNodes allEdges) as (Hn & He & _); try done.
  fold graph in Hn, He.
  split; [exact Hn|]. split; [|done].
  intros id. etrans; [apply He|]. apply Hedges.
Qed.

Lemma selected_outlier_is_laid_out_witness :
  "Y" ∈ node_id
          <$> (Store.graphToLayout
                 (Outliers.selectOutlierConfig "default"
                    (Outliers.pathData (Outliers.mapVariant loopVariant)))
                 (allNodes storeABC) (allEdges storeABC)).1.
Proof.
  refine (proj2 (proj1 (selected_outlier_is_laid_out "default" loopVariant
                          (allNodes storeABC) (allEdges storeABC) _ _ _)
                   "Y") _).
  - vm_compute. discriminate.
  - vm_compute. discriminate.
  - vm_compute. discriminate.
  - right. left.
Defined.
